(** * LPrint common driver code: a shallow embedding of [driver-common.c]

    The development follows the layout of the C file: the C string helpers
    the code relies on, the IPP attribute store it writes through, the two
    driver tables, and then the functions [lprintCreateDriver],
    [lprintCreateMediaCol], [lprintGetDrivers], [lprintGetMakeAndModel],
    [lprint_copy_media] and [lprint_create_media_size].

    Conventions.
    - C [int] values are [Z]; the range of [int] appears as a hypothesis
      where the code formats a number.
    - A C array together with its element count ([media] / [num_media],
      [x_resolution], [y_resolution] / [num_resolution], ...) is a list.
    - A pointer that may be [NULL] is an [option].
    - Dereferencing [NULL] is the outcome [NullDeref] of the [result] type.
    - Where the code keeps a pointer returned by [pwgMediaForPWG] across a
      later call of it ([roll_size]), the pointer is modelled with what it
      points to: a table entry, or the storage of the thread that the later
      call may overwrite.
    - [lprintCreateDriver] runs in a state monad over the printer and the
      record of the steps taken on it; the functions below it pass the
      attribute store explicitly.
    - Line numbers are those of [driver-common.c]. *)

From Stdlib Require Import ZArith List String Ascii Bool Lia Arith.
Import ListNotations.

Local Open Scope string_scope.
Local Open Scope list_scope.
Local Open Scope Z_scope.

(* ================================================================== *)
(** ** C strings *)
(* ================================================================== *)

Module CStr.

(** C fixes the sign of what [strcmp] and [strncmp] return, not the
    value; the characters compare as unsigned. *)
Definition sign (c : comparison) : Z :=
  match c with
  | Eq => 0
  | Lt => -1
  | Gt => 1
  end.

Definition strcmp (a b : string) : Z := sign (String.compare a b).

(** [strncmp]: as [strcmp], over the first [n] characters at most. *)
Definition strncmp (a b : string) (n : nat) : Z :=
  sign (String.compare (String.substring 0 n a) (String.substring 0 n b)).

(** [_cups_tolower]: ASCII upper case letters only. *)
Definition tolower (c : ascii) : ascii :=
  let n := nat_of_ascii c in
  if (andb (Nat.leb 65 n) (Nat.leb n 90)) then ascii_of_nat (n + 32) else c.

Fixpoint lower (s : string) : string :=
  match s with
  | EmptyString => EmptyString
  | String c s' => String (tolower c) (lower s')
  end.

(** [_cups_strcasecmp(a, b) == 0]. *)
Definition strcaseeq (a b : string) : bool := String.eqb (lower a) (lower b).

(** *** [snprintf] with the conversions the driver code uses *)

Definition digit (d : Z) : ascii := ascii_of_nat (48 + Z.to_nat d).

(** The decimal digits of a non-negative number, most significant
    first, pushed in front of [acc]. *)
Fixpoint digits (fuel : nat) (n : Z) (acc : string) : string :=
  match fuel with
  | O => acc
  | S fuel' =>
      let acc' := String (digit (n mod 10)) acc in
      if n <? 10 then acc' else digits fuel' (n / 10) acc'
  end.

(** What [%d] prints. *)
Definition fmt_d (z : Z) : string :=
  if z <? 0
  then String "-"%char (digits (S (Z.to_nat (Z.log2 (- z)))) (- z) EmptyString)
  else digits (S (Z.to_nat (Z.log2 z))) z EmptyString.

(** [snprintf(buf, size, ...)] stores at most [size - 1] characters. *)
Definition snprintf (size : nat) (formatted : string) : string :=
  String.substring 0 (Nat.pred size) formatted.

End CStr.

(* ================================================================== *)
(** ** The outcome of code that may dereference a null pointer *)
(* ================================================================== *)

Inductive result (A : Type) : Type :=
| Ok (a : A)
| NullDeref.

Arguments Ok {A} a.
Arguments NullDeref {A}.

Definition rbind {A B : Type} (r : result A) (k : A -> result B) : result B :=
  match r with
  | Ok a => k a
  | NullDeref => NullDeref
  end.

Declare Scope result_scope.
Delimit Scope result_scope with result.
Notation "x <- c ;; k" := (rbind c (fun x => k))
  (at level 61, c at next level, right associativity) : result_scope.

(** [p->field] for a pointer that may be null. *)
Definition deref {A : Type} (p : option A) : result A :=
  match p with
  | Some a => Ok a
  | None => NullDeref
  end.

(* ================================================================== *)
(** ** The IPP attribute store *)
(* ================================================================== *)

(** Modelled from the spec: the protocol attribute library (the CUPS [ipp]
    API behind the Attribute Store Adapter of section 4.5) is not part of
    the source file.  An [ipp_t] is the ordered list of its attributes;
    adding appends, finding returns the first attribute of that name
    (compared without regard to case) and value tag, deleting unlinks the
    attribute found.  The argument checks of the calls the source makes are
    kept: a list of strings, resolutions or collections is refused below one
    value, a resolution below zero, a collection index beyond the count. *)
Module Ipp.

Inductive ipp_tag_t : Type :=
| IPP_TAG_ZERO
| IPP_TAG_PRINTER
| IPP_TAG_INTEGER
| IPP_TAG_RESOLUTION
| IPP_TAG_RANGE
| IPP_TAG_BEGIN_COLLECTION
| IPP_TAG_TEXTLANG
| IPP_TAG_NAMELANG
| IPP_TAG_TEXT
| IPP_TAG_NAME
| IPP_TAG_KEYWORD.

Definition tag_eq_dec (a b : ipp_tag_t) : {a = b} + {a <> b}.
Proof. decide equality. Defined.

Definition tag_eqb (a b : ipp_tag_t) : bool :=
  if tag_eq_dec a b then true else false.

Inductive ipp_res_t : Type :=
| IPP_RES_PER_INCH
| IPP_RES_PER_CM.

(** An attribute and its values; a collection value is a nested
    [ipp_t], or null while the slot has not been set. *)
Inductive ipp_attribute_t : Type :=
| Attr (name : string) (group_tag value_tag : ipp_tag_t)
       (values : list ipp_value_t)
with ipp_value_t : Type :=
| VInteger (integer : Z)
| VString (text : string)
| VResolution (xres yres : Z) (units : ipp_res_t)
| VRange (lower upper : Z)
| VCollection (collection : option (list ipp_attribute_t)).

Definition ipp_t : Type := list ipp_attribute_t.

Definition attr_name (a : ipp_attribute_t) : string :=
  match a with Attr n _ _ _ => n end.
Definition attr_group (a : ipp_attribute_t) : ipp_tag_t :=
  match a with Attr _ g _ _ => g end.
Definition attr_value_tag (a : ipp_attribute_t) : ipp_tag_t :=
  match a with Attr _ _ t _ => t end.
Definition attr_values (a : ipp_attribute_t) : list ipp_value_t :=
  match a with Attr _ _ _ vs => vs end.

(** [ippNew()]. *)
Definition ippNew : ipp_t := [].

(** The test of [ippFindAttribute]: the names compare equal without
    regard to case and the value tag is the one asked for (a text or
    name with language also answers to the plain tag). *)
Definition tag_matches (value_tag type : ipp_tag_t) : bool :=
  tag_eqb value_tag type
  || tag_eqb type IPP_TAG_ZERO
  || (tag_eqb value_tag IPP_TAG_TEXTLANG && tag_eqb type IPP_TAG_TEXT)
  || (tag_eqb value_tag IPP_TAG_NAMELANG && tag_eqb type IPP_TAG_NAME).

Definition matches (name : string) (type : ipp_tag_t)
           (a : ipp_attribute_t) : bool :=
  CStr.strcaseeq (attr_name a) name && tag_matches (attr_value_tag a) type.

(** An attribute handle is the position of the attribute in its
    [ipp_t]; [None] is the null handle. *)
Definition handle : Type := option nat.

Fixpoint find_from (i : nat) (ipp : ipp_t) (name : string)
         (type : ipp_tag_t) : handle :=
  match ipp with
  | [] => None
  | a :: rest =>
      if matches name type a then Some i
      else find_from (S i) rest name type
  end.

Definition ippFindAttribute (ipp : ipp_t) (name : string)
           (type : ipp_tag_t) : handle :=
  find_from 0 ipp name type.

Fixpoint remove_at (i : nat) (ipp : ipp_t) : ipp_t :=
  match ipp, i with
  | [], _ => []
  | _ :: rest, O => rest
  | a :: rest, S i' => a :: remove_at i' rest
  end.

(** [ippDeleteAttribute]; a null handle is ignored. *)
Definition ippDeleteAttribute (ipp : ipp_t) (attr : handle) : ipp_t :=
  match attr with
  | Some i => remove_at i ipp
  | None => ipp
  end.

(** Every [ippAdd...] appends the new attribute and returns its handle. *)
Definition ipp_add_attr (ipp : ipp_t) (a : ipp_attribute_t)
  : ipp_t * handle :=
  (ipp ++ [a], Some (List.length ipp)).

Definition ippAddInteger (ipp : ipp_t) (group value_tag : ipp_tag_t)
           (name : string) (value : Z) : ipp_t * handle :=
  ipp_add_attr ipp (Attr name group value_tag [VInteger value]).

Definition ippAddString (ipp : ipp_t) (group value_tag : ipp_tag_t)
           (name : string) (value : string) : ipp_t * handle :=
  ipp_add_attr ipp (Attr name group value_tag [VString value]).

(** [ippAddStrings] refuses a count below one. *)
Definition ippAddStrings (ipp : ipp_t) (group value_tag : ipp_tag_t)
           (name : string) (values : list string) : ipp_t * handle :=
  match values with
  | [] => (ipp, None)
  | _ => ipp_add_attr ipp (Attr name group value_tag (map VString values))
  end.

Definition ippAddRange (ipp : ipp_t) (group : ipp_tag_t) (name : string)
           (lower upper : Z) : ipp_t * handle :=
  ipp_add_attr ipp (Attr name group IPP_TAG_RANGE [VRange lower upper]).

(** [ippAddResolution] refuses a negative resolution. *)
Definition ippAddResolution (ipp : ipp_t) (group : ipp_tag_t)
           (name : string) (units : ipp_res_t) (xres yres : Z)
  : ipp_t * handle :=
  if (xres <? 0) || (yres <? 0) then (ipp, None)
  else ipp_add_attr ipp
         (Attr name group IPP_TAG_RESOLUTION [VResolution xres yres units]).

(** [ippAddResolutions] refuses a count below one. *)
Definition ippAddResolutions (ipp : ipp_t) (group : ipp_tag_t)
           (name : string) (units : ipp_res_t) (res : list (Z * Z))
  : ipp_t * handle :=
  match res with
  | [] => (ipp, None)
  | _ => ipp_add_attr ipp
           (Attr name group IPP_TAG_RESOLUTION
                 (map (fun r => VResolution (fst r) (snd r) units) res))
  end.

Definition ippAddCollection (ipp : ipp_t) (group : ipp_tag_t)
           (name : string) (value : ipp_t) : ipp_t * handle :=
  ipp_add_attr ipp
    (Attr name group IPP_TAG_BEGIN_COLLECTION [VCollection (Some value)]).

(** [ippAddCollections(ipp, group, name, num_values, NULL)]: [num_values]
    empty slots, and no attribute at all for a count below one. *)
Definition ippAddCollections (ipp : ipp_t) (group : ipp_tag_t)
           (name : string) (num_values : Z) : ipp_t * handle :=
  if num_values <? 1 then (ipp, None)
  else ipp_add_attr ipp
         (Attr name group IPP_TAG_BEGIN_COLLECTION
               (repeat (VCollection None) (Z.to_nat num_values))).

(** Storing a value at [element]: in place below the count, one past
    the end grows the attribute, anything else is refused. *)
Fixpoint set_nth {A : Type} (l : list A) (n : nat) (x : A) : list A :=
  match l, n with
  | [], O => [x]
  | [], S _ => []
  | _ :: t, O => x :: t
  | h :: t, S n' => h :: set_nth t n' x
  end.

Definition set_value (a : ipp_attribute_t) (element : Z) (v : ipp_value_t)
  : ipp_attribute_t :=
  match a with
  | Attr n g t vs =>
      if (element <? 0) || (Z.of_nat (List.length vs) <? element) then a
      else Attr n g t (set_nth vs (Z.to_nat element) v)
  end.

Fixpoint update_at (i : nat) (f : ipp_attribute_t -> ipp_attribute_t)
         (ipp : ipp_t) : ipp_t :=
  match ipp, i with
  | [], _ => []
  | a :: rest, O => f a :: rest
  | a :: rest, S i' => a :: update_at i' f rest
  end.

(** [ippSetCollection(ipp, &attr, element, colvalue)]. *)
Definition ippSetCollection (ipp : ipp_t) (attr : handle) (element : Z)
           (colvalue : ipp_t) : ipp_t :=
  match attr with
  | None => ipp
  | Some i =>
      update_at i
        (fun a =>
           if tag_eqb (attr_value_tag a) IPP_TAG_BEGIN_COLLECTION
           then set_value a element (VCollection (Some colvalue))
           else a)
        ipp
  end.

Definition is_string_tag (t : ipp_tag_t) : bool :=
  match t with
  | IPP_TAG_TEXTLANG | IPP_TAG_NAMELANG | IPP_TAG_TEXT | IPP_TAG_NAME
  | IPP_TAG_KEYWORD => true
  | _ => false
  end.

(** [ippSetString(ipp, &attr, element, strvalue)]. *)
Definition ippSetString (ipp : ipp_t) (attr : handle) (element : Z)
           (strvalue : string) : ipp_t :=
  match attr with
  | None => ipp
  | Some i =>
      update_at i
        (fun a =>
           if is_string_tag (attr_value_tag a)
           then set_value a element (VString strvalue)
           else a)
        ipp
  end.

(** [ippGetString(attr, element, NULL)]: null for a null attribute, a
    value that is not a string, or an element out of range. *)
Definition ippGetString (ipp : ipp_t) (attr : handle) (element : nat)
  : option string :=
  match attr with
  | None => None
  | Some i =>
      match nth_error ipp i with
      | Some a =>
          if is_string_tag (attr_value_tag a) then
            match nth_error (attr_values a) element with
            | Some (VString s) => Some s
            | _ => None
            end
          else None
      | None => None
      end
  end.


(** The values behind a handle (none for a null handle). *)
Definition values_of (ipp : ipp_t) (attr : handle) : list ipp_value_t :=
  match attr with
  | None => []
  | Some i =>
      match nth_error ipp i with
      | Some a => attr_values a
      | None => []
      end
  end.

(** How many attributes of [ipp] answer to [name] with value tag [type],
    and how many carry the name under any tag. *)
Definition count_matching (name : string) (type : ipp_tag_t) (ipp : ipp_t)
  : nat :=
  List.length (filter (matches name type) ipp).

Definition count_named (name : string) (ipp : ipp_t) : nat :=
  List.length (filter (fun a => CStr.strcaseeq (attr_name a) name) ipp).

End Ipp.

Import Ipp.

(* ================================================================== *)
(** ** Driver and printer structures, collaborators *)
(* ================================================================== *)

(** Modelled from the spec: [lprint.h] is not part of the source file.  The
    driver structure carries the fields the code reads: the name, the
    resolutions ([num_resolution], [x_resolution], [y_resolution]), the two
    margins, and the media, source and type lists with their counts. *)
Record lprint_driver_t : Type := mk_driver {
  driver_name : option string;
  driver_resolution : list (Z * Z);
  driver_left_right : Z;
  driver_bottom_top : Z;
  driver_media : list string;
  driver_source : list string;
  driver_type : list string
}.

Definition num_resolution (d : lprint_driver_t) : Z :=
  Z.of_nat (List.length (driver_resolution d)).
Definition x_resolution (d : lprint_driver_t) (i : Z) : Z :=
  fst (nth (Z.to_nat i) (driver_resolution d) (0, 0)).
Definition y_resolution (d : lprint_driver_t) (i : Z) : Z :=
  snd (nth (Z.to_nat i) (driver_resolution d) (0, 0)).
Definition num_media (d : lprint_driver_t) : Z :=
  Z.of_nat (List.length (driver_media d)).
Definition num_source (d : lprint_driver_t) : Z :=
  Z.of_nat (List.length (driver_source d)).
Definition num_type (d : lprint_driver_t) : Z :=
  Z.of_nat (List.length (driver_type d)).

(** What [calloc(1, sizeof(lprint_driver_t))] returns. *)
Definition zeroed_driver : lprint_driver_t :=
  mk_driver None [] 0 0 [] [] [].

(** Modelled from the spec: the printer structure of [lprint.h], with the
    two fields the code touches. *)
Record lprint_printer_t : Type := mk_printer {
  printer_attrs : ipp_t;
  printer_driver : option lprint_driver_t
}.

(** Modelled from the spec: an entry of the media database consulted by
    [pwgMediaForPWG], dimensions in hundredths of a millimetre. *)
Record pwg_media_t : Type := mk_pwg {
  pwg_width : Z;
  pwg_length : Z
}.

(** What a pointer returned by [pwgMediaForPWG] points to: an entry of the
    library's table of sizes, or the storage of the calling thread. *)
Inductive pwg_ptr : Type :=
| PwgEntry (p : pwg_media_t)
| PwgBuffer.

(** The seven printer families of the initializer dispatch. *)
Inductive family : Type := CPCL | DYMO | EPL1 | EPL2 | FGL | PCL | ZPL.

(** The functions the file calls and does not define: the media database
    lookup (null for an unknown name) and the family initializers.
    [pwgMediaForPWG] gives the dimensions the lookup yields for a name.  The
    library documents where the result lives: a name of its table of sizes
    yields a pointer to the table entry; any other name is decoded as a
    self-describing name, and the result is then stored in storage of the
    calling thread that every such call overwrites.  [pwg_decoded] tells the
    names of the second kind. *)
Class Collaborators : Type := {
  pwgMediaForPWG : string -> option pwg_media_t;
  pwg_decoded : string -> bool;
  lprintInitCPCL : lprint_driver_t -> lprint_driver_t;
  lprintInitDYMO : lprint_driver_t -> lprint_driver_t;
  lprintInitEPL1 : lprint_driver_t -> lprint_driver_t;
  lprintInitEPL2 : lprint_driver_t -> lprint_driver_t;
  lprintInitFGL : lprint_driver_t -> lprint_driver_t;
  lprintInitPCL : lprint_driver_t -> lprint_driver_t;
  lprintInitZPL : lprint_driver_t -> lprint_driver_t
}.

(* ================================================================== *)
(** ** Local globals *)
(* ================================================================== *)

(** Driver keywords. *)
Definition lprint_drivers : list string :=
  [ "dymo_lm-400";
    "dymo_lm-450";
    "dymo_lm-pc";
    "dymo_lm-pc-ii";
    "dymo_lm-pnp";
    "dymo_lp-350";
    "dymo_lw-300";
    "dymo_lw-310";
    "dymo_lw-315";
    "dymo_lw-320";
    "dymo_lw-330-turbo";
    "dymo_lw-330";
    "dymo_lw-400-turbo";
    "dymo_lw-400";
    "dymo_lw-450-duo-label";
    "dymo_lw-450-duo-tape";
    "dymo_lw-450-turbo";
    "dymo_lw-450-twin-turbo";
    "dymo_lw-450";
    "dymo_lw-4xl";
    "dymo_lw-duo-label";
    "dymo_lw-duo-tape";
    "dymo_lw-duo-tape-128";
    "dymo_lw-se450";
    "dymo_lw-wireless" ].

(** Make and model strings. *)
Definition lprint_models : list string :=
  [ "Dymo LabelMANAGER 400";
    "Dymo LabelMANAGER 450";
    "Dymo LabelMANAGER PC";
    "Dymo LabelMANAGER PC II";
    "Dymo LabelMANAGER PNP";
    "Dymo LabelPOINT 350";
    "Dymo LabelWriter 300";
    "Dymo LabelWriter 310";
    "Dymo LabelWriter 315";
    "Dymo LabelWriter 320";
    "Dymo LabelWriter 330 Turbo";
    "Dymo LabelWriter 330";
    "Dymo LabelWriter 400 Turbo";
    "Dymo LabelWriter 400";
    "Dymo LabelWriter 450 DUO Label";
    "Dymo LabelWriter 450 DUO Tape";
    "Dymo LabelWriter 450 Turbo";
    "Dymo LabelWriter 450 Twin Turbo";
    "Dymo LabelWriter 450";
    "Dymo LabelWriter 4XL";
    "Dymo LabelWriter DUO Label";
    "Dymo LabelWriter DUO Tape";
    "Dymo LabelWriter DUO Tape 128";
    "Dymo LabelWriter SE450";
    "Dymo LabelWriter Wireless" ].

(** [sizeof(lprint_drivers) / sizeof(lprint_drivers[0])]. *)
Definition num_drivers : nat := List.length lprint_drivers.

(** [lprint_models[i]]. *)
Definition lprint_models_at (i : nat) : string := nth i lprint_models "".

(** The recurring idiom
    [if ((attr = ippFindAttribute(attrs, name, type)) != NULL)
       ippDeleteAttribute(attrs, attr);]. *)
Definition delete_if_found (attrs : ipp_t) (name : string) (type : ipp_tag_t)
  : ipp_t :=
  match ippFindAttribute attrs name type with
  | Some i => ippDeleteAttribute attrs (Some i)
  | None => attrs
  end.

Section Driver.

Context {collab : Collaborators}.

Local Open Scope result_scope.

(* ---------------------------------------------------------------- *)
(** *** [lprint_create_media_size] - create a media-size collection *)
(* ---------------------------------------------------------------- *)

Definition lprint_create_media_size (size_name : string) : result ipp_t :=
  let col := ippNew in
  let pwg := pwgMediaForPWG size_name in
  p <- deref pwg ;;
  let '(col, _) :=
    ippAddInteger col IPP_TAG_ZERO IPP_TAG_INTEGER "x-dimension" (pwg_width p) in
  let '(col, _) :=
    ippAddInteger col IPP_TAG_ZERO IPP_TAG_INTEGER "y-dimension" (pwg_length p) in
  Ok col.

(* ---------------------------------------------------------------- *)
(** *** [lprintCreateMediaCol] - create a media-col collection *)
(* ---------------------------------------------------------------- *)

Definition lprintCreateMediaCol (size_name : string)
           (source type : option string) (left_right bottom_top : Z)
  : result ipp_t :=
  let col := ippNew in
  size <- lprint_create_media_size size_name ;;
  let '(col, _) :=
    ippAddString col IPP_TAG_ZERO IPP_TAG_KEYWORD "media-size-name" size_name in
  let '(col, _) := ippAddCollection col IPP_TAG_ZERO "media-size" size in
  let '(col, _) :=
    ippAddInteger col IPP_TAG_ZERO IPP_TAG_INTEGER "media-bottom-margin" bottom_top in
  let '(col, _) :=
    ippAddInteger col IPP_TAG_ZERO IPP_TAG_INTEGER "media-left-margin" left_right in
  let '(col, _) :=
    ippAddInteger col IPP_TAG_ZERO IPP_TAG_INTEGER "media-right-margin" left_right in
  let '(col, _) :=
    ippAddInteger col IPP_TAG_ZERO IPP_TAG_INTEGER "media-top-margin" bottom_top in
  let col :=
    match source with
    | Some s =>
        fst (ippAddString col IPP_TAG_ZERO IPP_TAG_KEYWORD "media-source" s)
    | None => col
    end in
  let col :=
    match type with
    | Some t =>
        fst (ippAddString col IPP_TAG_ZERO IPP_TAG_KEYWORD "media-type" t)
    | None => col
    end in
  Ok col.

(* ---------------------------------------------------------------- *)
(** *** [lprintGetDrivers] - get the list of supported drivers *)
(* ---------------------------------------------------------------- *)

Definition lprintGetDrivers : list string * Z :=
  (lprint_drivers, Z.of_nat num_drivers).

(* ---------------------------------------------------------------- *)
(** *** [lprintGetMakeAndModel] - make and model string of a driver *)
(* ---------------------------------------------------------------- *)

(** The loop over the registry from index [i] on, [keywords] being the
    part of [lprint_drivers] not yet visited. *)
Fixpoint make_and_model_loop (keywords : list string) (i : nat)
         (name : string) : option string :=
  match keywords with
  | [] => None
  | k :: rest =>
      if CStr.strcmp k name =? 0 then Some (lprint_models_at i)
      else make_and_model_loop rest (S i) name
  end.

Definition lprintGetMakeAndModel (driver : option lprint_driver_t) : string :=
  match driver with
  | Some d =>
      match driver_name d with
      | Some name =>
          match make_and_model_loop lprint_drivers 0 name with
          | Some model => model
          | None => "Unknown"
          end
      | None => "Unknown"
      end
  | None => "Unknown"
  end.

(* ---------------------------------------------------------------- *)
(** *** [lprint_copy_media] - copy media capability attributes *)
(* ---------------------------------------------------------------- *)

(** The counting loops (lines 316-318 and 379-381). *)
Fixpoint count_loop (media : list string) (count : Z) : Z :=
  match media with
  | [] => count
  | m :: rest =>
      if negb (CStr.strncmp m "roll_max_" 9 =? 0)
      then count_loop rest (count + 1)
      else count_loop rest count
  end.

(** The state the filling loops carry from one iteration to the next. *)
Record fill_state : Type := mk_fill {
  fill_attrs : ipp_t;
  fill_count : Z;
  fill_maxname : option string;
  fill_minname : option string
}.

(** The filling loops (lines 322-342 and 385-405); they differ in the
    collection [fixed] built for a fixed size only. *)
Fixpoint fill_loop (fixed : string -> result ipp_t) (attr : handle)
         (media : list string) (st : fill_state) : result fill_state :=
  match media with
  | [] => Ok st
  | m :: rest =>
      if CStr.strncmp m "roll_max_" 9 =? 0 then
        (* Save the maximum size... *)
        fill_loop fixed attr rest
          (mk_fill (fill_attrs st) (fill_count st) (Some m) (fill_minname st))
      else if CStr.strncmp m "roll_min_" 9 =? 0 then
        (* Save the minimum size... *)
        fill_loop fixed attr rest
          (mk_fill (fill_attrs st) (fill_count st) (fill_maxname st) (Some m))
      else
        (* Add the fixed size... *)
        col <- fixed m ;;
        let attrs := ippSetCollection (fill_attrs st) attr (fill_count st) col in
        fill_loop fixed attr rest
          (mk_fill attrs (fill_count st + 1) (fill_maxname st) (fill_minname st))
  end.

(** One call of [pwgMediaForPWG] as its caller sees it: the pointer
    returned (null for an unknown name) and the storage of the thread after
    the call, which a decoded name overwrites. *)
Definition pwg_call (name : string) (buffer : option pwg_media_t)
  : option pwg_ptr * option pwg_media_t :=
  match pwgMediaForPWG name with
  | Some p =>
      if pwg_decoded name then (Some PwgBuffer, Some p)
      else (Some (PwgEntry p), buffer)
  | None => (None, buffer)
  end.

(** Reading through a pointer, [ptr->width] or [ptr->length]: what it
    points to at the time of the read. *)
Definition pwg_deref (ptr : option pwg_ptr) (buffer : option pwg_media_t)
  : result pwg_media_t :=
  match ptr with
  | Some (PwgEntry p) => Ok p
  | Some PwgBuffer => deref buffer
  | None => NullDeref
  end.

(** The size of a roll: a range in each dimension (lines 346-353 and
    409-416).  Both pointers are kept and read only after the second call;
    what the thread's storage held before the first call is never read, a
    pointer to it being held only after a call that wrote it. *)
Definition roll_size (minname maxname : string) : result ipp_t :=
  let size := ippNew in
  let '(maxpwg, buffer) := pwg_call maxname None in
  let '(minpwg, buffer) := pwg_call minname buffer in
  minp <- pwg_deref minpwg buffer ;;
  maxp <- pwg_deref maxpwg buffer ;;
  let '(size, _) :=
    ippAddRange size IPP_TAG_ZERO "x-dimension" (pwg_width minp) (pwg_width maxp) in
  let '(size, _) :=
    ippAddRange size IPP_TAG_ZERO "y-dimension" (pwg_length minp) (pwg_length maxp) in
  Ok size.

Definition lprint_copy_media (attrs : ipp_t) (driver : lprint_driver_t)
  : result ipp_t :=
  let maxname : option string := None in
  let minname : option string := None in

  (* media-bottom-margin-supported *)
  let attrs := delete_if_found attrs "media-bottom-margin-supported" IPP_TAG_INTEGER in
  let '(attrs, _) :=
    ippAddInteger attrs IPP_TAG_PRINTER IPP_TAG_INTEGER
      "media-bottom-margin-supported" (driver_bottom_top driver) in

  (* media-col-database *)
  let attrs := delete_if_found attrs "media-col-database" IPP_TAG_BEGIN_COLLECTION in
  let count := count_loop (driver_media driver) 0 in
  let '(attrs, attr) :=
    ippAddCollections attrs IPP_TAG_PRINTER "media-col-database" count in
  st <- fill_loop
          (fun m => lprintCreateMediaCol m None None
                      (driver_left_right driver) (driver_bottom_top driver))
          attr (driver_media driver) (mk_fill attrs 0 maxname minname) ;;
  let attrs := fill_attrs st in
  let count := fill_count st in
  let maxname := fill_maxname st in
  let minname := fill_minname st in
  attrs <-
    match minname, maxname with
    | Some minname, Some maxname =>
        size <- roll_size minname maxname ;;
        let col := ippNew in
        let '(col, _) := ippAddCollection col IPP_TAG_ZERO "media-size" size in
        Ok (ippSetCollection attrs attr count col)
    | _, _ => Ok attrs
    end ;;

  (* media-left-margin-supported *)
  let attrs := delete_if_found attrs "media-left-margin-supported" IPP_TAG_INTEGER in
  let '(attrs, _) :=
    ippAddInteger attrs IPP_TAG_PRINTER IPP_TAG_INTEGER
      "media-left-margin-supported" (driver_left_right driver) in

  (* media-right-margin-supported *)
  let attrs := delete_if_found attrs "media-right-margin-supported" IPP_TAG_INTEGER in
  let '(attrs, _) :=
    ippAddInteger attrs IPP_TAG_PRINTER IPP_TAG_INTEGER
      "media-right-margin-supported" (driver_left_right driver) in

  (* media-size-supported *)
  let attrs := delete_if_found attrs "media-size-supported" IPP_TAG_BEGIN_COLLECTION in
  let count := count_loop (driver_media driver) 0 in
  let '(attrs, attr) :=
    ippAddCollections attrs IPP_TAG_PRINTER "media-size-supported" count in
  st <- fill_loop lprint_create_media_size
          attr (driver_media driver) (mk_fill attrs 0 maxname minname) ;;
  let attrs := fill_attrs st in
  let count := fill_count st in
  let maxname := fill_maxname st in
  let minname := fill_minname st in
  attrs <-
    match minname, maxname with
    | Some minname, Some maxname =>
        size <- roll_size minname maxname ;;
        Ok (ippSetCollection attrs attr count size)
    | _, _ => Ok attrs
    end ;;

  (* media-source-supported *)
  let attrs := delete_if_found attrs "media-source-supported" IPP_TAG_KEYWORD in
  let attrs :=
    if negb (num_source driver =? 0)
    then fst (ippAddStrings attrs IPP_TAG_PRINTER IPP_TAG_KEYWORD
                "media-source-supported" (driver_source driver))
    else attrs in

  (* media-supported *)
  let attrs := delete_if_found attrs "media-supported" IPP_TAG_KEYWORD in
  let '(attrs, _) :=
    ippAddStrings attrs IPP_TAG_PRINTER IPP_TAG_KEYWORD
      "media-supported" (driver_media driver) in

  (* media-top-margin-supported *)
  let attrs := delete_if_found attrs "media-top-margin-supported" IPP_TAG_INTEGER in
  let '(attrs, _) :=
    ippAddInteger attrs IPP_TAG_PRINTER IPP_TAG_INTEGER
      "media-top-margin-supported" (driver_bottom_top driver) in

  (* media-type-supported *)
  let attrs := delete_if_found attrs "media-type-supported" IPP_TAG_KEYWORD in
  let attrs :=
    if negb (num_type driver =? 0)
    then fst (ippAddStrings attrs IPP_TAG_PRINTER IPP_TAG_KEYWORD
                "media-type-supported" (driver_type driver))
    else attrs in
  Ok attrs.

(* ---------------------------------------------------------------- *)
(** *** The resolution attributes of [lprintCreateDriver] *)
(* ---------------------------------------------------------------- *)

(** The value of the [rs] buffer (lines 172-177). *)
Definition urf_rs (driver : lprint_driver_t) : string :=
  if num_resolution driver =? 1 then
    CStr.snprintf 32
      (String.append "RS" (CStr.fmt_d (x_resolution driver 0)))
  else
    CStr.snprintf 32
      (String.append "RS"
         (String.append
            (CStr.fmt_d (x_resolution driver (num_resolution driver - 2)))
            (String.append "-"
               (CStr.fmt_d (x_resolution driver (num_resolution driver - 1)))))).

(** Lines 146-184 of [lprintCreateDriver]: printer-resolution-default and
    -supported, pwg-raster-document-resolution-supported, urf-supported. *)
Definition copy_resolution (attrs : ipp_t) (driver : lprint_driver_t)
  : ipp_t :=
  (* printer-resolution-supported, -default *)
  let attrs := delete_if_found attrs "printer-resolution-default" IPP_TAG_RESOLUTION in
  let attrs := delete_if_found attrs "printer-resolution-supported" IPP_TAG_RESOLUTION in
  let attrs :=
    if num_resolution driver >? 0 then
      let '(attrs, _) :=
        ippAddResolution attrs IPP_TAG_PRINTER "printer-resolution-default"
          IPP_RES_PER_INCH
          (x_resolution driver (num_resolution driver - 1))
          (y_resolution driver (num_resolution driver - 1)) in
      let '(attrs, _) :=
        ippAddResolutions attrs IPP_TAG_PRINTER "printer-resolution-supported"
          IPP_RES_PER_INCH (driver_resolution driver) in
      attrs
    else attrs in

  (* pwg-raster-document-resolution-supported *)
  let attrs :=
    delete_if_found attrs "pwg-raster-document-resolution-supported"
      IPP_TAG_RESOLUTION in
  let attrs :=
    if num_resolution driver >? 0 then
      fst (ippAddResolutions attrs IPP_TAG_PRINTER
             "pwg-raster-document-resolution-supported"
             IPP_RES_PER_INCH (driver_resolution driver))
    else attrs in

  (* urf-supported *)
  let attrs := delete_if_found attrs "urf-supported" IPP_TAG_KEYWORD in
  let attrs :=
    if num_resolution driver >? 0 then
      let rs := urf_rs driver in
      let values := ["V1.4"; "W8"; rs] in
      fst (ippAddStrings attrs IPP_TAG_PRINTER IPP_TAG_KEYWORD
             "urf-supported" values)
    else attrs in
  attrs.

(** Lines 140-144: printer-make-and-model. *)
Definition set_make_and_model (attrs : ipp_t) (i : nat) : ipp_t :=
  match ippFindAttribute attrs "printer-make-and-model" IPP_TAG_TEXT with
  | Some h => ippSetString attrs (Some h) 0 (lprint_models_at i)
  | None =>
      fst (ippAddString attrs IPP_TAG_PRINTER IPP_TAG_TEXT
             "printer-make-and-model" (lprint_models_at i))
  end.

(* ---------------------------------------------------------------- *)
(** *** [lprintCreateDriver] - create a driver for a printer *)
(* ---------------------------------------------------------------- *)

(** The steps of [lprintCreateDriver] that act on the printer, in the
    order they are executed. *)
Inductive event : Type :=
| EvWrLock                    (* pthread_rwlock_wrlock(&printer->rwlock) *)
| EvInit (f : family)         (* lprintInit<family>(driver) *)
| EvAttach                    (* printer->driver = driver *)
| EvCopyMedia                 (* lprint_copy_media(printer, driver) *)
| EvMakeAndModel              (* printer-make-and-model *)
| EvResolution                (* the resolution attributes *)
| EvUnlock.                   (* pthread_rwlock_unlock(&printer->rwlock) *)

(** The printer together with the record of the steps taken on it. *)
Record machine : Type := mk_machine {
  m_printer : lprint_printer_t;
  m_trace : list event
}.

Definition M (A : Type) : Type := machine -> result (A * machine).

Definition mret {A : Type} (a : A) : M A := fun m => Ok (a, m).

Definition mbind {A B : Type} (c : M A) (k : A -> M B) : M B :=
  fun m =>
    match c m with
    | Ok (a, m') => k a m'
    | NullDeref => NullDeref
    end.

Declare Scope machine_scope.
Delimit Scope machine_scope with machine.
Notation "x <- c ;; k" := (mbind c (fun x => k))
  (at level 61, c at next level, right associativity) : machine_scope.
Notation "c ;;; k" := (mbind c (fun _ => k))
  (at level 61, right associativity) : machine_scope.

Definition emit (e : event) : M unit :=
  fun m => Ok (tt, mk_machine (m_printer m) (m_trace m ++ [e])).

Definition get_attrs : M ipp_t :=
  fun m => Ok (printer_attrs (m_printer m), m).

(** A step that rewrites [printer->attrs]. *)
Definition on_attrs (e : event) (f : ipp_t -> result ipp_t) : M unit :=
  fun m =>
    match f (printer_attrs (m_printer m)) with
    | Ok attrs =>
        Ok (tt, mk_machine (mk_printer attrs (printer_driver (m_printer m)))
                           (m_trace m ++ [e]))
    | NullDeref => NullDeref
    end.

(** [printer->driver = driver]. *)
Definition set_printer_driver (driver : lprint_driver_t) : M unit :=
  fun m =>
    Ok (tt, mk_machine (mk_printer (printer_attrs (m_printer m)) (Some driver))
                       (m_trace m ++ [EvAttach])).

Definition pthread_rwlock_wrlock : M unit := emit EvWrLock.
Definition pthread_rwlock_unlock : M unit := emit EvUnlock.

Local Open Scope machine_scope.

(** The dispatch on the keyword prefix (lines 119-132). *)
Definition init_driver (name : string) (driver : lprint_driver_t)
  : M lprint_driver_t :=
  if CStr.strncmp name "cpcl_" 5 =? 0 then
    emit (EvInit CPCL) ;;; mret (lprintInitCPCL driver)
  else if CStr.strncmp name "dymo_" 5 =? 0 then
    emit (EvInit DYMO) ;;; mret (lprintInitDYMO driver)
  else if CStr.strncmp name "epl1_" 5 =? 0 then
    emit (EvInit EPL1) ;;; mret (lprintInitEPL1 driver)
  else if CStr.strncmp name "epl2_" 5 =? 0 then
    emit (EvInit EPL2) ;;; mret (lprintInitEPL2 driver)
  else if CStr.strncmp name "fgl_" 4 =? 0 then
    emit (EvInit FGL) ;;; mret (lprintInitFGL driver)
  else if CStr.strncmp name "pcl_" 4 =? 0 then
    emit (EvInit PCL) ;;; mret (lprintInitPCL driver)
  else
    emit (EvInit ZPL) ;;; mret (lprintInitZPL driver).

(** The body run for the registry entry [i] that matches [name] (lines
    112-185); [calloc_ok] tells whether the allocation succeeds. *)
Definition create_matched (calloc_ok : bool) (name : string) (i : nat)
  : M (option lprint_driver_t) :=
  if calloc_ok then
    (* Initialize the driver structure... *)
    let driver := zeroed_driver in
    let driver :=
      mk_driver (Some name) (driver_resolution driver)
        (driver_left_right driver) (driver_bottom_top driver)
        (driver_media driver) (driver_source driver) (driver_type driver) in
    driver <- init_driver name driver ;;
    (* Assign to printer and copy capabilities... *)
    set_printer_driver driver ;;;
    (* media-xxx *)
    on_attrs EvCopyMedia (fun attrs => lprint_copy_media attrs driver) ;;;
    (* printer-make-and-model *)
    on_attrs EvMakeAndModel (fun attrs => Ok (set_make_and_model attrs i)) ;;;
    (* printer-resolution-..., pwg-raster-..., urf-supported *)
    on_attrs EvResolution (fun attrs => Ok (copy_resolution attrs driver)) ;;;
    mret (Some driver)
  else
    mret None.

(** The loop over the registry (lines 108-189), left at the first
    keyword equal to [name]. *)
Fixpoint create_loop (calloc_ok : bool) (keywords : list string) (i : nat)
         (name : string) : M (option lprint_driver_t) :=
  match keywords with
  | [] => mret None
  | k :: rest =>
      if CStr.strcmp name k =? 0 then create_matched calloc_ok name i
      else create_loop calloc_ok rest (S i) name
  end.

Definition lprintCreateDriver (calloc_ok : bool)
  : M (option lprint_driver_t) :=
  pthread_rwlock_wrlock ;;;
  attrs <- get_attrs ;;
  driver <-
    match ippGetString attrs
            (ippFindAttribute attrs "lprint-driver" IPP_TAG_KEYWORD) 0 with
    | Some name => create_loop calloc_ok lprint_drivers 0 name
    | None => mret None
    end ;;
  pthread_rwlock_unlock ;;;
  mret driver.

(** Running [lprintCreateDriver] on a printer, from an empty record. *)
Definition run_lprintCreateDriver (calloc_ok : bool)
           (printer : lprint_printer_t)
  : result (option lprint_driver_t * machine) :=
  lprintCreateDriver calloc_ok (mk_machine printer []).

End Driver.

(** A small media database and family initializers to run the code on. *)
Module Sample.

Definition media_db (name : string) : option pwg_media_t :=
  if String.eqb name "w36h23" then Some (mk_pwg 3600 2300)
  else if String.eqb name "roll_min_w6" then Some (mk_pwg 600 600)
  else if String.eqb name "roll_max_w101" then Some (mk_pwg 10100 360000)
  else if String.eqb name "oe_address-label_1.25x3.5in" then Some (mk_pwg 3175 8890)
  else None.

Definition init_dymo (d : lprint_driver_t) : lprint_driver_t :=
  mk_driver (driver_name d) [(300, 300)] 100 525
    ["oe_address-label_1.25x3.5in"; "roll_min_w6"; "roll_max_w101"]
    ["main-roll"] ["labels"].

#[export] Instance collaborators : Collaborators := {
  pwgMediaForPWG := media_db;
  pwg_decoded := String.prefix "roll_";
  lprintInitCPCL := fun d => d;
  lprintInitDYMO := init_dymo;
  lprintInitEPL1 := fun d => d;
  lprintInitEPL2 := fun d => d;
  lprintInitFGL := fun d => d;
  lprintInitPCL := fun d => d;
  lprintInitZPL := fun d => d
}.

(** A driver without resolutions, and a capability set holding
    urf-supported once and one holding it twice. *)
Definition plain_driver : lprint_driver_t :=
  mk_driver (Some "dymo_lw-450") [] 100 525 [] [] [].

Definition urf : ipp_attribute_t :=
  Attr "urf-supported" IPP_TAG_PRINTER IPP_TAG_KEYWORD
    [VString "V1.4"; VString "W8"; VString "RS203"].

Definition duplicate_printer : lprint_printer_t :=
  mk_printer
    [Attr "lprint-driver" IPP_TAG_PRINTER IPP_TAG_KEYWORD [VString "dymo_lw-450"];
     urf; urf]
    None.

(** The media list of the specification's example. *)
Definition roll_media : list string :=
  ["w36h23"; "roll_min_w6"; "roll_max_w101"].

Definition roll_driver : lprint_driver_t :=
  mk_driver (Some "dymo_lw-450") [(203, 203); (300, 300); (600, 600)] 100 525
    roll_media [] [].

Definition printer_with (keyword : string) : lprint_printer_t :=
  mk_printer
    [Attr "lprint-driver" IPP_TAG_PRINTER IPP_TAG_KEYWORD [VString keyword]]
    None.

End Sample.


(* ================================================================== *)
(** ** Facts about the C string helpers *)
(* ================================================================== *)

Module CStrFacts.
Import CStr.

Lemma ascii_compare_refl (c : ascii) : Ascii.compare c c = Eq.
Proof. unfold Ascii.compare. apply N.compare_refl. Qed.

Lemma compare_refl (s : string) : String.compare s s = Eq.
Proof.
  induction s as [|c s IH]; simpl; [reflexivity|].
  now rewrite ascii_compare_refl.
Qed.

Lemma sign_zero (c : comparison) : sign c = 0 <-> c = Eq.
Proof. destruct c; simpl; split; intros H; try reflexivity; discriminate. Qed.

Lemma strcmp_zero (a b : string) : strcmp a b = 0 <-> a = b.
Proof.
  unfold strcmp. rewrite sign_zero. split.
  - apply String.compare_eq_iff.
  - intros ->. apply compare_refl.
Qed.

Lemma strcmp_eqb (a b : string) : (strcmp a b =? 0) = String.eqb a b.
Proof.
  destruct (String.eqb_spec a b) as [->|Hne].
  - apply Z.eqb_eq. now apply strcmp_zero.
  - apply Z.eqb_neq. intros H. now apply strcmp_zero in H.
Qed.

Lemma substring_prefix (p s : string) :
  String.substring 0 (String.length p) s = p <-> String.prefix p s = true.
Proof.
  revert s. induction p as [|c p IH]; intros s; simpl.
  - destruct s; simpl; split; reflexivity.
  - destruct s as [|c' s]; simpl.
    + split; discriminate.
    + destruct (Ascii.ascii_dec c c') as [->|Hne].
      * rewrite <- IH. split; [intros H; congruence | intros ->; reflexivity].
      * split; [intros H; congruence | discriminate].
Qed.

Lemma substring_all (s : string) :
  String.substring 0 (String.length s) s = s.
Proof. induction s as [|c s IH]; simpl; [reflexivity | now rewrite IH]. Qed.

(** [strncmp(s, p, strlen(p)) == 0] tests for the prefix [p]. *)
Lemma strncmp_prefix (s p : string) :
  (strncmp s p (String.length p) =? 0) = String.prefix p s.
Proof.
  unfold strncmp. rewrite (substring_all p).
  destruct (String.prefix p s) eqn:Hp.
  - apply Z.eqb_eq, sign_zero. apply substring_prefix in Hp. rewrite Hp.
    apply compare_refl.
  - apply Z.eqb_neq. rewrite sign_zero. intros H.
    apply String.compare_eq_iff, substring_prefix in H. congruence.
Qed.

Lemma substring_short (n : nat) (s : string) :
  (String.length s <= n)%nat -> String.substring 0 n s = s.
Proof.
  revert n. induction s as [|c s IH]; intros n Hn; simpl in *.
  - destruct n; reflexivity.
  - destruct n as [|n]; [lia|]. simpl. rewrite IH by lia. reflexivity.
Qed.

Lemma length_append (a b : string) :
  String.length (String.append a b) = (String.length a + String.length b)%nat.
Proof. induction a as [|c a IH]; simpl; [reflexivity | now rewrite IH]. Qed.

(** A number below [10^(k+1)] prints in at most [k + 1] digits. *)
Lemma digits_length (fuel : nat) :
  forall (k : nat) (n : Z) (acc : string),
    0 <= n < 10 ^ Z.of_nat (S k) ->
    (String.length (digits fuel n acc) <= S k + String.length acc)%nat.
Proof.
  induction fuel as [|fuel IH]; intros k n acc Hn; simpl; [lia|].
  destruct (n <? 10) eqn:Hlt; simpl; [lia|].
  apply Z.ltb_ge in Hlt.
  destruct k as [|k].
  - change (10 ^ Z.of_nat 1) with 10 in Hn. lia.
  - assert (Hdiv : 0 <= n / 10 < 10 ^ Z.of_nat (S k)).
    { split; [apply Z.div_pos; lia|].
      apply Z.div_lt_upper_bound; [lia|].
      replace (Z.of_nat (S (S k))) with (Z.succ (Z.of_nat (S k))) in Hn by lia.
      rewrite Z.pow_succ_r in Hn by lia. lia. }
    specialize (IH k (n / 10) (String (digit (n mod 10)) acc) Hdiv).
    simpl in IH. lia.
Qed.

(** A C [int] prints in at most eleven characters. *)
Lemma fmt_d_length (z : Z) :
  -2147483648 <= z <= 2147483647 -> (String.length (fmt_d z) <= 11)%nat.
Proof.
  intros Hz. unfold fmt_d. destruct (z <? 0) eqn:Hneg.
  - apply Z.ltb_lt in Hneg.
    pose proof (digits_length (S (Z.to_nat (Z.log2 (- z)))) 9 (- z) EmptyString) as H.
    change (10 ^ Z.of_nat 10) with 10000000000 in H.
    change (String.length EmptyString) with 0%nat in H.
    specialize (H ltac:(lia)).
    set (ds := digits _ _ _) in *.
    change (S (String.length ds) <= 11)%nat. lia.
  - apply Z.ltb_ge in Hneg.
    pose proof (digits_length (S (Z.to_nat (Z.log2 z))) 9 z EmptyString) as H.
    change (10 ^ Z.of_nat 10) with 10000000000 in H.
    change (String.length EmptyString) with 0%nat in H.
    specialize (H ltac:(lia)). lia.
Qed.

(** Reading a decimal numeral back, to check what [%d] prints. *)
Definition digit_value (c : ascii) : Z := Z.of_nat (nat_of_ascii c) - 48.

Fixpoint read_digits (s : string) (acc : Z) : Z :=
  match s with
  | EmptyString => acc
  | String c s' => read_digits s' (10 * acc + digit_value c)
  end.

Lemma digit_value_digit (d : Z) : 0 <= d < 10 -> digit_value (digit d) = d.
Proof.
  intros Hd. unfold digit_value, digit.
  rewrite nat_ascii_embedding by lia. lia.
Qed.

Lemma read_digits_digits (fuel : nat) :
  forall (n : Z) (s : string),
    0 <= n < 2 ^ Z.of_nat fuel ->
    read_digits (digits fuel n s) 0 = read_digits s n.
Proof.
  induction fuel as [|fuel IH]; intros n s Hn.
  - change (2 ^ Z.of_nat 0) with 1 in Hn. simpl.
    replace n with 0 by lia. reflexivity.
  - cbn [digits]. cbv zeta. destruct (n <? 10) eqn:Hlt.
    + apply Z.ltb_lt in Hlt. cbn [read_digits].
      rewrite digit_value_digit by (rewrite Z.mod_small; lia).
      rewrite Z.mod_small by lia. f_equal.
    + apply Z.ltb_ge in Hlt.
      rewrite Nat2Z.inj_succ, Z.pow_succ_r in Hn by lia.
      rewrite IH.
      * cbn [read_digits].
        rewrite digit_value_digit by (apply Z.mod_pos_bound; lia).
        f_equal. pose proof (Z.div_mod n 10). lia.
      * split; [apply Z.div_pos; lia|].
        apply Z.div_lt_upper_bound; lia.
Qed.

(** [%d] prints the decimal numeral of a non-negative number, and a minus
    sign in front of the numeral of its opposite for a negative one. *)
Lemma fmt_d_value (z : Z) : 0 <= z -> read_digits (fmt_d z) 0 = z.
Proof.
  intros Hz. unfold fmt_d.
  replace (z <? 0) with false by (symmetry; apply Z.ltb_ge; lia).
  apply read_digits_digits. split; [exact Hz|].
  destruct (Z.eq_dec z 0) as [->|Hne]; [reflexivity|].
  rewrite Nat2Z.inj_succ, Z2Nat.id by apply Z.log2_nonneg.
  apply Z.log2_spec. lia.
Qed.

Lemma fmt_d_negative (z : Z) :
  z < 0 -> fmt_d z = String "-"%char (fmt_d (- z)).
Proof.
  intros Hz. unfold fmt_d.
  replace (z <? 0) with true by (symmetry; apply Z.ltb_lt; lia).
  replace (- z <? 0) with false by (symmetry; apply Z.ltb_ge; lia).
  reflexivity.
Qed.

End CStrFacts.

(* ================================================================== *)
(** ** Facts about the attribute store *)
(* ================================================================== *)

Module IppFacts.

(** Removing the first element that satisfies [p]. *)
Fixpoint remove_first {A : Type} (p : A -> bool) (l : list A) : list A :=
  match l with
  | [] => []
  | a :: rest => if p a then rest else a :: remove_first p rest
  end.

Definition none_of {A : Type} (p : A -> bool) (l : list A) : Prop :=
  forall a, In a l -> p a = false.

Lemma find_from_spec (n : string) (t : ipp_tag_t) (l : ipp_t) :
  forall i,
    match find_from i l n t with
    | Some j => (i <= j)%nat /\
                remove_at (j - i) l = remove_first (matches n t) l /\
                nth_error l (j - i) = find (matches n t) l
    | None => remove_first (matches n t) l = l /\ find (matches n t) l = None
    end.
Proof.
  induction l as [|a l IH]; intros i; simpl; [auto|].
  destruct (matches n t a) eqn:Hm.
  - rewrite Nat.sub_diag. simpl. auto.
  - specialize (IH (S i)). destruct (find_from (S i) l n t) as [j|].
    + destruct IH as (Hle & Hrm & Hnth).
      replace (j - i)%nat with (S (j - S i)) by lia. simpl.
      rewrite Hrm. repeat split; [lia | exact Hnth].
    + destruct IH as [Hrm Hf]. rewrite Hrm. auto.
Qed.

(** The delete idiom removes the first attribute that answers. *)
Lemma delete_if_found_remove_first (attrs : ipp_t) (n : string) (t : ipp_tag_t) :
  delete_if_found attrs n t = remove_first (matches n t) attrs.
Proof.
  unfold delete_if_found, ippFindAttribute.
  pose proof (find_from_spec n t attrs 0) as H.
  destruct (find_from 0 attrs n t) as [j|]; simpl.
  - destruct H as (_ & H & _). now rewrite Nat.sub_0_r in H.
  - symmetry. apply H.
Qed.

(** What a client reads behind the handle [ippFindAttribute] returns. *)
Lemma values_of_find (attrs : ipp_t) (n : string) (t : ipp_tag_t) :
  values_of attrs (ippFindAttribute attrs n t) =
  match find (matches n t) attrs with
  | Some a => attr_values a
  | None => []
  end.
Proof.
  unfold ippFindAttribute, values_of.
  pose proof (find_from_spec n t attrs 0) as H.
  destruct (find_from 0 attrs n t) as [j|].
  - destruct H as (_ & _ & H). rewrite Nat.sub_0_r in H. now rewrite H.
  - destruct H as [_ H]. now rewrite H.
Qed.


Section Lists.
Context {A : Type}.
Implicit Types (p q : A -> bool) (l : list A).

Lemma remove_first_none p l : none_of p l -> remove_first p l = l.
Proof.
  induction l as [|a l IH]; intros H; simpl; [reflexivity|].
  rewrite (H a) by (left; reflexivity).
  rewrite IH; [reflexivity|]. intros b Hb. apply H. now right.
Qed.

Lemma remove_first_app p l1 l2 :
  none_of p l2 -> remove_first p (l1 ++ l2) = remove_first p l1 ++ l2.
Proof.
  intros H. induction l1 as [|a l1 IH]; simpl.
  - now apply remove_first_none.
  - destruct (p a); [reflexivity | now rewrite IH].
Qed.

Lemma filter_remove_first_other p q l :
  (forall a, p a = true -> q a = false) ->
  filter q (remove_first p l) = filter q l.
Proof.
  intros H. induction l as [|a l IH]; simpl; [reflexivity|].
  destruct (p a) eqn:Hp.
  - now rewrite (H a Hp).
  - simpl. now rewrite IH.
Qed.

Lemma filter_remove_first_same p l :
  List.length (filter p (remove_first p l)) = Nat.pred (List.length (filter p l)).
Proof.
  induction l as [|a l IH]; simpl; [reflexivity|].
  destruct (p a) eqn:Hp; simpl; [reflexivity|].
  now rewrite Hp.
Qed.

Lemma filter_none p l : none_of p l <-> filter p l = [].
Proof.
  induction l as [|a l IH]; simpl.
  - split; [reflexivity | intros _ b []].
  - destruct (p a) eqn:Hp.
    + split; [|discriminate]. intros H.
      rewrite (H a) in Hp by (left; reflexivity). discriminate.
    + rewrite <- IH. split.
      * intros H b Hb. apply H. now right.
      * intros H b [<-|Hb]; [exact Hp | now apply H].
Qed.

Lemma none_of_length p l : none_of p l <-> List.length (filter p l) = 0%nat.
Proof.
  rewrite filter_none. split; [intros ->; reflexivity|].
  destruct (filter p l); [reflexivity | discriminate].
Qed.

Lemma find_none_of p l : none_of p l -> find p l = None.
Proof.
  induction l as [|a l IH]; intros H; simpl; [reflexivity|].
  rewrite (H a) by (left; reflexivity). apply IH.
  intros b Hb. apply H. now right.
Qed.

Lemma find_app p l1 l2 :
  find p (l1 ++ l2) =
  match find p l1 with
  | Some a => Some a
  | None => find p l2
  end.
Proof.
  induction l1 as [|a l1 IH]; simpl; [reflexivity|].
  destruct (p a); [reflexivity | exact IH].
Qed.

Lemma find_remove_first_other p q l :
  (forall a, p a = true -> q a = false) ->
  find q (remove_first p l) = find q l.
Proof.
  intros H. induction l as [|a l IH]; simpl; [reflexivity|].
  destruct (p a) eqn:Hp.
  - now rewrite (H a Hp).
  - simpl. now rewrite IH.
Qed.

Lemma none_of_app p l1 l2 :
  none_of p (l1 ++ l2) <-> none_of p l1 /\ none_of p l2.
Proof.
  unfold none_of. split.
  - intros H. split; intros a Ha; apply H, in_or_app; auto.
  - intros [H1 H2] a Ha. apply in_app_or in Ha. destruct Ha; auto.
Qed.


Lemma set_nth_app (done rest : list A) (x v : A) :
  set_nth (done ++ x :: rest) (List.length done) v = done ++ v :: rest.
Proof. induction done as [|d done IH]; simpl; [reflexivity | now rewrite IH]. Qed.

Lemma set_nth_end (done : list A) (v : A) :
  set_nth done (List.length done) v = done ++ [v].
Proof. induction done as [|d done IH]; simpl; [reflexivity | now rewrite IH]. Qed.

End Lists.

Lemma update_at_last (pre : ipp_t) (a : ipp_attribute_t)
      (f : ipp_attribute_t -> ipp_attribute_t) :
  update_at (List.length pre) f (pre ++ [a]) = pre ++ [f a].
Proof. induction pre as [|b pre IH]; simpl; [reflexivity | now rewrite IH]. Qed.

(** The name and value tag of an attribute. *)
Definition key (a : ipp_attribute_t) : string * ipp_tag_t :=
  (attr_name a, attr_value_tag a).

Lemma set_value_key (a : ipp_attribute_t) (e : Z) (v : ipp_value_t) :
  key (set_value a e v) = key a.
Proof.
  destruct a as [n g t vs]. unfold set_value.
  destruct ((e <? 0) || (Z.of_nat (List.length vs) <? e)); reflexivity.
Qed.

Lemma update_at_keys (i : nat) (f : ipp_attribute_t -> ipp_attribute_t)
      (l : ipp_t) :
  (forall a, key (f a) = key a) -> map key (update_at i f l) = map key l.
Proof.
  intros Hf. revert i. induction l as [|a l IH]; intros [|i]; simpl;
    try reflexivity; [now rewrite Hf | now rewrite IH].
Qed.

Lemma ippSetCollection_keys (attrs : ipp_t) (h : handle) (e : Z) (col : ipp_t) :
  map key (ippSetCollection attrs h e col) = map key attrs.
Proof.
  destruct h as [i|]; [|reflexivity]. simpl. apply update_at_keys.
  intros a. destruct (tag_eqb (attr_value_tag a) IPP_TAG_BEGIN_COLLECTION);
    [apply set_value_key | reflexivity].
Qed.

Lemma ippSetString_keys (attrs : ipp_t) (h : handle) (e : Z) (s : string) :
  map key (ippSetString attrs h e s) = map key attrs.
Proof.
  destruct h as [i|]; [|reflexivity]. simpl. apply update_at_keys.
  intros a. destruct (is_string_tag (attr_value_tag a));
    [apply set_value_key | reflexivity].
Qed.

End IppFacts.

(* ================================================================== *)
(** ** Facts about the registry and [lprintCreateDriver] *)
(* ================================================================== *)

Section CreateDriverFacts.

Context {collab : Collaborators}.

(** The position of the first occurrence of a step in a record. *)
Definition event_eq_dec (a b : event) : {a = b} + {a <> b}.
Proof. repeat decide equality. Defined.

Fixpoint index_of (e : event) (trace : list event) : option nat :=
  match trace with
  | [] => None
  | x :: rest =>
      if event_eq_dec e x then Some O
      else option_map S (index_of e rest)
  end.

(** The order of steps in which the driver is attached only after the
    capability attributes and the make and model have been written. *)
Definition attached_after_synthesis (trace : list event) : Prop :=
  match index_of EvAttach trace, index_of EvCopyMedia trace,
        index_of EvMakeAndModel trace, index_of EvResolution trace with
  | Some a, Some m, Some k, Some r => (m < a /\ r < a /\ k < a)%nat
  | _, _, _, _ => False
  end.

(** The store left by the steps that follow the family initializer. *)
Definition synthesized_attrs (attrs : ipp_t) (driver : lprint_driver_t)
           (i : nat) : result ipp_t :=
  rbind (lprint_copy_media attrs driver)
        (fun attrs1 => Ok (copy_resolution (set_make_and_model attrs1 i) driver)).

Definition named_driver (name : string) : lprint_driver_t :=
  mk_driver (Some name) [] 0 0 [] [] [].

Lemma registry_prefix (name : string) :
  In name lprint_drivers ->
  (CStr.strncmp name "cpcl_" 5 =? 0) = false /\
  (CStr.strncmp name "dymo_" 5 =? 0) = true.
Proof.
  intros H.
  assert (Hall : forallb (fun k => negb (CStr.strncmp k "cpcl_" 5 =? 0)
                                   && (CStr.strncmp k "dymo_" 5 =? 0))
                         lprint_drivers = true) by (vm_compute; reflexivity).
  rewrite forallb_forall in Hall. specialize (Hall name H).
  apply andb_true_iff in Hall. destruct Hall as [H1 H2].
  apply negb_true_iff in H1. auto.
Qed.

(** The body run for a registry keyword, spelled out. *)
Lemma create_matched_registry (name : string) (i : nat) (m : machine) :
  In name lprint_drivers ->
  create_matched true name i m =
  let driver := lprintInitDYMO (named_driver name) in
  match synthesized_attrs (printer_attrs (m_printer m)) driver i with
  | Ok attrs =>
      Ok (Some driver,
          mk_machine (mk_printer attrs (Some driver))
            (m_trace m ++ [EvInit DYMO] ++ [EvAttach] ++ [EvCopyMedia]
               ++ [EvMakeAndModel] ++ [EvResolution]))
  | NullDeref => NullDeref
  end.
Proof.
  intros Hin. destruct (registry_prefix name Hin) as [Hc Hd].
  unfold create_matched, init_driver. rewrite Hc, Hd.
  unfold synthesized_attrs, mbind, emit, mret, set_printer_driver, on_attrs.
  cbn [m_printer m_trace printer_attrs printer_driver zeroed_driver
       driver_resolution driver_left_right driver_bottom_top driver_media
       driver_source driver_type].
  fold (named_driver name).
  destruct (lprint_copy_media (printer_attrs (m_printer m))
              (lprintInitDYMO (named_driver name))) as [attrs1|];
    cbn [rbind m_printer m_trace printer_attrs printer_driver]; [|reflexivity].
  repeat rewrite <- app_assoc. reflexivity.
Qed.

Lemma create_matched_no_memory (name : string) (i : nat) (m : machine) :
  create_matched false name i m = Ok (None, m).
Proof. reflexivity. Qed.

(** The loop stops at the first keyword equal to the name. *)
Lemma create_loop_miss (calloc_ok : bool) (name : string) (m : machine) :
  forall keywords i,
    ~ In name keywords ->
    create_loop calloc_ok keywords i name m = Ok (None, m).
Proof.
  induction keywords as [|k rest IH]; intros i Hn; simpl; [reflexivity|].
  rewrite CStrFacts.strcmp_eqb.
  destruct (String.eqb_spec name k) as [->|Hne].
  - exfalso. apply Hn. now left.
  - apply IH. intros H. apply Hn. now right.
Qed.

Lemma create_loop_hit (calloc_ok : bool) (name : string) (m : machine) :
  forall keywords i,
    In name keywords ->
    exists j, nth_error keywords j = Some name /\
              create_loop calloc_ok keywords i name m =
              create_matched calloc_ok name (i + j) m.
Proof.
  induction keywords as [|k rest IH]; intros i Hin; [destruct Hin|].
  simpl. rewrite CStrFacts.strcmp_eqb.
  destruct (String.eqb_spec name k) as [->|Hne].
  - exists O. rewrite Nat.add_0_r. split; reflexivity.
  - destruct Hin as [->|Hin]; [congruence|].
    destruct (IH (S i) Hin) as (j & Hj & Heq).
    exists (S j). split; [exact Hj|]. rewrite Heq.
    now replace (S i + j)%nat with (i + S j)%nat by lia.
Qed.

Definition requested_driver (printer : lprint_printer_t) : option string :=
  ippGetString (printer_attrs printer)
    (ippFindAttribute (printer_attrs printer) "lprint-driver" IPP_TAG_KEYWORD) 0.

Lemma run_unfold (calloc_ok : bool) (printer : lprint_printer_t) :
  run_lprintCreateDriver calloc_ok printer =
  match
    match requested_driver printer with
    | Some name => create_loop calloc_ok lprint_drivers 0 name
                     (mk_machine printer [EvWrLock])
    | None => Ok (None, mk_machine printer [EvWrLock])
    end
  with
  | Ok (driver, m) =>
      Ok (driver, mk_machine (m_printer m) (m_trace m ++ [EvUnlock]))
  | NullDeref => NullDeref
  end.
Proof.
  unfold run_lprintCreateDriver, lprintCreateDriver, requested_driver,
    mbind, pthread_rwlock_wrlock, pthread_rwlock_unlock, emit, get_attrs, mret.
  cbn [m_printer m_trace app].
  destruct (ippGetString _ _ _) as [name|]; [|reflexivity].
  destruct (create_loop _ _ _ _ _) as [[d m]|]; reflexivity.
Qed.

(** Every run that returns a driver has this shape. *)
Lemma run_success (calloc_ok : bool) (printer : lprint_printer_t)
      (driver : lprint_driver_t) (m : machine) :
  run_lprintCreateDriver calloc_ok printer = Ok (Some driver, m) ->
  exists name i attrs,
    requested_driver printer = Some name /\
    nth_error lprint_drivers i = Some name /\
    calloc_ok = true /\
    driver = lprintInitDYMO (named_driver name) /\
    synthesized_attrs (printer_attrs printer) driver i = Ok attrs /\
    m = mk_machine (mk_printer attrs (Some driver))
          [EvWrLock; EvInit DYMO; EvAttach; EvCopyMedia; EvMakeAndModel;
           EvResolution; EvUnlock].
Proof.
  rewrite run_unfold. intros H.
  destruct (requested_driver printer) as [name|] eqn:Hreq; [|discriminate].
  destruct (in_dec string_dec name lprint_drivers) as [Hin|Hnin].
  - destruct (create_loop_hit calloc_ok name (mk_machine printer [EvWrLock])
                lprint_drivers 0 Hin) as (j & Hj & Heq).
    rewrite Heq in H. destruct calloc_ok; [|discriminate].
    rewrite (create_matched_registry name (0 + j) _ Hin) in H.
    cbn [m_printer m_trace printer_attrs] in H. cbv zeta in H.
    destruct (synthesized_attrs (printer_attrs printer)
                (lprintInitDYMO (named_driver name)) (0 + j)) as [attrs|] eqn:Hs;
      [|discriminate].
    injection H as Hd Hm. exists name, j, attrs. subst driver.
    repeat split; try assumption; try reflexivity. now rewrite <- Hm.
  - rewrite (create_loop_miss calloc_ok name _ lprint_drivers 0 Hnin) in H.
    discriminate.
Qed.

(** A registry keyword whose media all resolve yields a driver. *)
Lemma run_progress (printer : lprint_printer_t) (name : string) :
  requested_driver printer = Some name ->
  In name lprint_drivers ->
  forall attrs i,
    nth_error lprint_drivers i = Some name ->
    synthesized_attrs (printer_attrs printer)
      (lprintInitDYMO (named_driver name)) i = Ok attrs ->
    exists m,
      run_lprintCreateDriver true printer =
      Ok (Some (lprintInitDYMO (named_driver name)), m).
Proof.
  intros Hreq Hin attrs i Hi Hs. rewrite run_unfold, Hreq.
  destruct (create_loop_hit true name (mk_machine printer [EvWrLock])
              lprint_drivers 0 Hin) as (j & Hj & Heq).
  rewrite Heq, (create_matched_registry name (0 + j) _ Hin).
  cbn [m_printer m_trace printer_attrs]. cbv zeta.
  unfold synthesized_attrs in *.
  destruct (lprint_copy_media (printer_attrs printer)
              (lprintInitDYMO (named_driver name))) as [a1|]; [|discriminate].
  cbn [rbind]. eexists. reflexivity.
Qed.

End CreateDriverFacts.

(* ================================================================== *)
(** ** Facts about the media loops *)
(* ================================================================== *)

(** The three shapes of a media size name. *)
Definition is_roll_max (m : string) : bool := String.prefix "roll_max_" m.
Definition is_roll_min (m : string) : bool := String.prefix "roll_min_" m.
Definition is_fixed (m : string) : bool :=
  negb (is_roll_max m) && negb (is_roll_min m).

(** The fixed sizes of a media list, in order. *)
Definition fixed_sizes (media : list string) : list string :=
  filter is_fixed media.

(** The last name of a list that satisfies [p], [init] if there is none. *)
Definition pick_last (p : string -> bool) (media : list string)
           (init : option string) : option string :=
  fold_left (fun acc m => if p m then Some m else acc) media init.

(** A collection slot that has been set. *)
Definition is_set (v : ipp_value_t) : bool :=
  match v with
  | VCollection (Some _) => true
  | _ => false
  end.

Definition slot (col : ipp_t) : ipp_value_t := VCollection (Some col).
Definition empty_slot : ipp_value_t := VCollection None.

Section MediaFacts.

Context {collab : Collaborators}.
Import IppFacts.

Lemma roll_max_test (m : string) :
  (CStr.strncmp m "roll_max_" 9 =? 0) = is_roll_max m.
Proof. exact (CStrFacts.strncmp_prefix m "roll_max_"). Qed.

Lemma roll_min_test (m : string) :
  (CStr.strncmp m "roll_min_" 9 =? 0) = is_roll_min m.
Proof. exact (CStrFacts.strncmp_prefix m "roll_min_"). Qed.

Lemma roll_min_not_max (m : string) :
  is_roll_min m = true -> is_roll_max m = false.
Proof.
  unfold is_roll_min, is_roll_max. intros Hmin.
  destruct (String.prefix "roll_max_" m) eqn:Hmax; [|reflexivity].
  apply (CStrFacts.substring_prefix "roll_min_" m) in Hmin.
  apply (CStrFacts.substring_prefix "roll_max_" m) in Hmax.
  simpl String.length in *. congruence.
Qed.

(** The three shapes exclude one another and cover every name. *)
Lemma shape_cases (m : string) :
  (is_roll_max m = true /\ is_roll_min m = false /\ is_fixed m = false) \/
  (is_roll_max m = false /\ is_roll_min m = true /\ is_fixed m = false) \/
  (is_roll_max m = false /\ is_roll_min m = false /\ is_fixed m = true).
Proof.
  unfold is_fixed. destruct (is_roll_min m) eqn:Hmin.
  - rewrite (roll_min_not_max m Hmin). auto.
  - destruct (is_roll_max m); auto.
Qed.

(** The counting loop counts the names that are not prefixed roll_max_. *)
Lemma count_loop_spec (media : list string) :
  forall count,
    count_loop media count =
    count + Z.of_nat (List.length (filter (fun m => negb (is_roll_max m)) media)).
Proof.
  induction media as [|m media IH]; intros count; simpl; [lia|].
  rewrite roll_max_test. destruct (is_roll_max m); simpl.
  - apply IH.
  - rewrite IH. lia.
Qed.

Lemma not_max_split (media : list string) :
  List.length (filter (fun m => negb (is_roll_max m)) media) =
  (List.length (fixed_sizes media) + List.length (filter is_roll_min media))%nat.
Proof.
  unfold fixed_sizes.
  induction media as [|m media IH]; simpl; [reflexivity|].
  destruct (shape_cases m) as [(H1 & H2 & H3)|[(H1 & H2 & H3)|(H1 & H2 & H3)]];
    rewrite H1, H2, H3; simpl; lia.
Qed.

Lemma pick_last_some (p : string -> bool) (media : list string) :
  forall init m,
    pick_last p media init = Some m ->
    init = Some m \/ (In m media /\ p m = true).
Proof.
  unfold pick_last.
  induction media as [|x media IH]; intros init m H; simpl in H; [auto|].
  apply IH in H. destruct H as [H|[H1 H2]].
  - destruct (p x) eqn:Hp; [|auto]. injection H as <-. right. split; [now left | exact Hp].
  - right. split; [now right | exact H2].
Qed.

Lemma pick_last_none (p : string -> bool) (media : list string) :
  forall init,
    pick_last p media init = None <-> init = None /\ none_of p media.
Proof.
  unfold pick_last.
  induction media as [|x media IH]; intros init; simpl.
  - split; [intros ->; split; [reflexivity | intros a []] | intros [-> _]; reflexivity].
  - rewrite IH. destruct (p x) eqn:Hp.
    + split; [intros [H _]; discriminate|].
      intros [_ H]. rewrite (H x) in Hp by (left; reflexivity). discriminate.
    + split.
      * intros [-> H]. split; [reflexivity|].
        intros a [<-|Ha]; [exact Hp | now apply H].
      * intros [-> H]. split; [reflexivity|].
        intros a Ha. apply H. now right.
Qed.

Lemma pick_last_init (p : string -> bool) (media : list string) :
  forall init,
    pick_last p media init =
    match pick_last p media None with
    | Some m => Some m
    | None => init
    end.
Proof.
  unfold pick_last.
  induction media as [|x media IH]; intros init; simpl; [reflexivity|].
  rewrite (IH (if p x then Some x else init)), (IH (if p x then Some x else None)).
  destruct (fold_left _ media None); [reflexivity|].
  destruct (p x); reflexivity.
Qed.

Lemma pick_last_idem (p : string -> bool) (media : list string) :
  pick_last p media (pick_last p media None) = pick_last p media None.
Proof.
  rewrite pick_last_init. destruct (pick_last p media None); reflexivity.
Qed.

(** *** The filling loop, seen from the attribute it fills *)

(** [ippSetCollection] on a list of values. *)
Definition store (vals : list ipp_value_t) (element : Z) (v : ipp_value_t)
  : list ipp_value_t :=
  if (element <? 0) || (Z.of_nat (List.length vals) <? element) then vals
  else set_nth vals (Z.to_nat element) v.

(** Storing collections in consecutive slots from [count] on. *)
Fixpoint place (vals : list ipp_value_t) (count : Z) (cols : list ipp_t)
  : list ipp_value_t :=
  match cols with
  | [] => vals
  | col :: rest => place (store vals count (slot col)) (count + 1) rest
  end.

Lemma ippSetCollection_last (pre : ipp_t) (n : string) (g : ipp_tag_t)
      (vals : list ipp_value_t) (e : Z) (col : ipp_t) :
  ippSetCollection (pre ++ [Attr n g IPP_TAG_BEGIN_COLLECTION vals])
    (Some (List.length pre)) e col =
  pre ++ [Attr n g IPP_TAG_BEGIN_COLLECTION (store vals e (slot col))].
Proof.
  unfold ippSetCollection. rewrite update_at_last. unfold store, set_value.
  cbn [attr_value_tag]. change (tag_eqb IPP_TAG_BEGIN_COLLECTION IPP_TAG_BEGIN_COLLECTION) with true.
  cbv iota. destruct ((e <? 0) || (Z.of_nat (List.length vals) <? e)); reflexivity.
Qed.

Lemma place_slots (cols : list ipp_t) :
  forall (done : list ipp_value_t) (r : nat),
    (List.length cols <= r)%nat ->
    place (done ++ repeat empty_slot r) (Z.of_nat (List.length done)) cols =
    done ++ map slot cols ++ repeat empty_slot (r - List.length cols).
Proof.
  induction cols as [|c cols IH]; intros done r Hr; simpl.
  - now rewrite Nat.sub_0_r.
  - destruct r as [|r]; [simpl in Hr; lia|]. simpl in Hr.
    unfold store. rewrite length_app. simpl List.length.
    replace (_ || _) with false
      by (symmetry; apply orb_false_iff; split;
          [apply Z.ltb_ge | apply Z.ltb_ge]; lia).
    rewrite Nat2Z.id. simpl repeat. rewrite set_nth_app.
    replace (Z.of_nat (List.length done) + 1)
      with (Z.of_nat (List.length (done ++ [slot c])))
      by (rewrite length_app; simpl; lia).
    replace (done ++ slot c :: repeat empty_slot r)
      with ((done ++ [slot c]) ++ repeat empty_slot r)
      by (rewrite <- app_assoc; reflexivity).
    rewrite IH by lia. rewrite <- app_assoc. reflexivity.
Qed.

Section Loop.

Variable fixed : string -> result ipp_t.

(** A filling loop changes no name and no value tag. *)
Lemma fill_loop_keys (attr : handle) (media : list string) :
  forall st st',
    fill_loop fixed attr media st = Ok st' ->
    map key (fill_attrs st') = map key (fill_attrs st).
Proof.
  induction media as [|m media IH]; intros st st' H; simpl in H.
  - now injection H as <-.
  - destruct (CStr.strncmp m "roll_max_" 9 =? 0);
      [apply IH in H; exact H|].
    destruct (CStr.strncmp m "roll_min_" 9 =? 0);
      [apply IH in H; exact H|].
    destruct (fixed m) as [col|]; [|discriminate]. cbn [rbind] in H.
    apply IH in H. cbn [fill_attrs] in H. rewrite H.
    apply ippSetCollection_keys.
Qed.

(** A fixed size that is not in the media database stops the loop on
    a null pointer. *)
Lemma fill_loop_fault (attr : handle) (media : list string) (m : string) :
  In m media -> is_fixed m = true -> fixed m = NullDeref ->
  forall st, fill_loop fixed attr media st = NullDeref.
Proof.
  intros Hin Hfix Hnull.
  induction media as [|x media IH]; intros st; [destruct Hin|]. simpl.
  rewrite roll_max_test, roll_min_test.
  destruct (shape_cases x) as [(H1 & H2 & H3)|[(H1 & H2 & H3)|(H1 & H2 & H3)]];
    rewrite H1; try rewrite H2.
  - destruct Hin as [->|Hin]; [congruence | now apply IH].
  - destruct Hin as [->|Hin]; [congruence | now apply IH].
  - destruct Hin as [->|Hin]; [now rewrite Hnull|].
    destruct (fixed x); [cbn [rbind]; now apply IH | reflexivity].
Qed.

Variable col : string -> ipp_t.

(** With every fixed size resolved, the loop stores one collection per
    fixed size, in order, and remembers the last sentinel of each kind. *)
Lemma fill_loop_values (pre : ipp_t) (n : string) (g : ipp_tag_t)
      (media : list string) :
  (forall m, In m media -> is_fixed m = true -> fixed m = Ok (col m)) ->
  forall vals count mx mn,
    fill_loop fixed (Some (List.length pre)) media
      (mk_fill (pre ++ [Attr n g IPP_TAG_BEGIN_COLLECTION vals]) count mx mn) =
    Ok (mk_fill
          (pre ++ [Attr n g IPP_TAG_BEGIN_COLLECTION
                     (place vals count (map col (fixed_sizes media)))])
          (count + Z.of_nat (List.length (fixed_sizes media)))
          (pick_last is_roll_max media mx)
          (pick_last is_roll_min media mn)).
Proof.
  unfold fixed_sizes, pick_last.
  induction media as [|x media IH]; intros Hok vals count mx mn;
    cbn [fill_loop filter fold_left].
  - simpl. now rewrite Z.add_0_r.
  - rewrite roll_max_test, roll_min_test.
    assert (Hrest : forall m, In m media -> is_fixed m = true -> fixed m = Ok (col m))
      by (intros m Hm; apply Hok; now right).
    destruct (shape_cases x) as [(H1 & H2 & H3)|[(H1 & H2 & H3)|(H1 & H2 & H3)]];
      rewrite H1, ?H2, H3; cbn [fill_attrs fill_count fill_maxname fill_minname].
    + now rewrite IH.
    + now rewrite IH.
    + rewrite (Hok x (or_introl eq_refl) H3). cbn [rbind].
      rewrite ippSetCollection_last, IH by assumption.
      cbn [map place List.length]. rewrite Nat2Z.inj_succ.
      do 2 f_equal. lia.
Qed.

(** The same loop when no attribute was allocated. *)
Lemma fill_loop_null (media : list string) :
  (forall m, In m media -> is_fixed m = true -> fixed m = Ok (col m)) ->
  forall attrs count mx mn,
    fill_loop fixed None media (mk_fill attrs count mx mn) =
    Ok (mk_fill attrs
          (count + Z.of_nat (List.length (fixed_sizes media)))
          (pick_last is_roll_max media mx)
          (pick_last is_roll_min media mn)).
Proof.
  unfold fixed_sizes, pick_last.
  induction media as [|x media IH]; intros Hok attrs count mx mn;
    cbn [fill_loop filter fold_left].
  - simpl. now rewrite Z.add_0_r.
  - rewrite roll_max_test, roll_min_test.
    assert (Hrest : forall m, In m media -> is_fixed m = true -> fixed m = Ok (col m))
      by (intros m Hm; apply Hok; now right).
    destruct (shape_cases x) as [(H1 & H2 & H3)|[(H1 & H2 & H3)|(H1 & H2 & H3)]];
      rewrite H1, ?H2, H3; cbn [fill_attrs fill_count fill_maxname fill_minname].
    + now rewrite IH.
    + now rewrite IH.
    + rewrite (Hok x (or_introl eq_refl) H3). cbn [rbind].
      cbn [ippSetCollection]. rewrite IH by assumption.
      cbn [List.length]. rewrite Nat2Z.inj_succ.
      do 2 f_equal. lia.
Qed.

End Loop.

(** *** [lprint_copy_media] as a chain of replacements *)

Definition replace_integer (attrs : ipp_t) (name : string) (v : Z) : ipp_t :=
  delete_if_found attrs name IPP_TAG_INTEGER
    ++ [Attr name IPP_TAG_PRINTER IPP_TAG_INTEGER [VInteger v]].

Definition strings_attr (name : string) (l : list string) : ipp_t :=
  match l with
  | [] => []
  | _ => [Attr name IPP_TAG_PRINTER IPP_TAG_KEYWORD (map VString l)]
  end.

Definition replace_strings (attrs : ipp_t) (name : string) (l : list string)
  : ipp_t :=
  delete_if_found attrs name IPP_TAG_KEYWORD ++ strings_attr name l.

(** The collection holding the size of a roll in media-col-database. *)
Definition media_col_roll (size : ipp_t) : ipp_t :=
  [Attr "media-size" IPP_TAG_ZERO IPP_TAG_BEGIN_COLLECTION [slot size]].

(** Either block of lines 312-361 and 375-420: the attribute [name] is
    deleted, allocated anew, filled with the fixed sizes and completed
    with the roll. *)
Definition sizes_block (name : string) (fixed : string -> result ipp_t)
           (roll : ipp_t -> ipp_t) (attrs : ipp_t) (media : list string)
           (maxname minname : option string) : result fill_state :=
  let attrs := delete_if_found attrs name IPP_TAG_BEGIN_COLLECTION in
  let count := count_loop media 0 in
  let '(attrs, attr) := ippAddCollections attrs IPP_TAG_PRINTER name count in
  rbind (fill_loop fixed attr media (mk_fill attrs 0 maxname minname))
    (fun st =>
       rbind
         (match fill_minname st, fill_maxname st with
          | Some minname, Some maxname =>
              rbind (roll_size minname maxname)
                (fun size =>
                   Ok (ippSetCollection (fill_attrs st) attr (fill_count st)
                         (roll size)))
          | _, _ => Ok (fill_attrs st)
          end)
         (fun attrs =>
            Ok (mk_fill attrs (fill_count st) (fill_maxname st) (fill_minname st)))).

Lemma strings_if (attrs : ipp_t) (name : string) (l : list string) :
  (if negb (Z.of_nat (List.length l) =? 0)
   then fst (ippAddStrings attrs IPP_TAG_PRINTER IPP_TAG_KEYWORD name l)
   else attrs) = attrs ++ strings_attr name l.
Proof.
  destruct l as [|x l]; simpl; [now rewrite app_nil_r | reflexivity].
Qed.

Lemma strings_add (attrs : ipp_t) (name : string) (l : list string) :
  ippAddStrings attrs IPP_TAG_PRINTER IPP_TAG_KEYWORD name l =
  (attrs ++ strings_attr name l,
   match l with
   | [] => None
   | _ => Some (List.length attrs)
   end).
Proof.
  destruct l as [|x l]; simpl; [now rewrite app_nil_r | reflexivity].
Qed.

Lemma lprint_copy_media_blocks (attrs : ipp_t) (driver : lprint_driver_t) :
  lprint_copy_media attrs driver =
  rbind
    (sizes_block "media-col-database"
       (fun m => lprintCreateMediaCol m None None
                   (driver_left_right driver) (driver_bottom_top driver))
       media_col_roll
       (replace_integer attrs "media-bottom-margin-supported"
          (driver_bottom_top driver))
       (driver_media driver) None None)
    (fun st1 =>
       rbind
         (sizes_block "media-size-supported" lprint_create_media_size
            (fun size => size)
            (replace_integer
               (replace_integer (fill_attrs st1) "media-left-margin-supported"
                  (driver_left_right driver))
               "media-right-margin-supported" (driver_left_right driver))
            (driver_media driver) (fill_maxname st1) (fill_minname st1))
         (fun st2 =>
            Ok (replace_strings
                  (replace_integer
                     (replace_strings
                        (replace_strings (fill_attrs st2)
                           "media-source-supported" (driver_source driver))
                        "media-supported" (driver_media driver))
                     "media-top-margin-supported" (driver_bottom_top driver))
                  "media-type-supported" (driver_type driver)))).
Proof.
  unfold lprint_copy_media, sizes_block, replace_integer, replace_strings,
    media_col_roll, slot, num_source, num_type.
  cbn [ippAddInteger ipp_add_attr ippAddCollection ippNew app].
  unfold ippAddCollections.
  destruct (count_loop (driver_media driver) 0 <? 1);
    cbn [ipp_add_attr];
    repeat
      (match goal with
       | |- context [rbind (fill_loop ?f ?a ?m ?s) _] =>
           destruct (fill_loop f a m s) as [[? ? [?|] [?|]]|]
       | |- context [rbind (roll_size ?a ?b) _] => destruct (roll_size a b)
       end;
       cbn [rbind fill_attrs fill_count fill_maxname fill_minname];
       try reflexivity);
    rewrite strings_if, (strings_add _ "media-supported"); cbv beta iota;
    rewrite strings_if; reflexivity.
Qed.

(** *** What a block leaves in its attribute *)

(** The values of the attribute: the fixed sizes, then the roll if both
    sentinels were seen, then the slots never set. *)
Definition sizes_values (cols : list ipp_t) (unset : nat)
           (rollcol : option ipp_t) : list ipp_value_t :=
  map slot cols ++
  match rollcol with
  | Some r => slot r :: repeat empty_slot (unset - 1)
  | None => repeat empty_slot unset
  end.

Definition sizes_attr (name : string) (vals : list ipp_value_t) : ipp_t :=
  match vals with
  | [] => []
  | _ => [Attr name IPP_TAG_PRINTER IPP_TAG_BEGIN_COLLECTION vals]
  end.

Lemma store_at (done rest : list ipp_value_t) (x v : ipp_value_t) :
  store (done ++ x :: rest) (Z.of_nat (List.length done)) v = done ++ v :: rest.
Proof.
  unfold store. rewrite length_app. simpl List.length.
  replace (_ || _) with false
    by (symmetry; apply orb_false_iff; split; apply Z.ltb_ge; lia).
  rewrite Nat2Z.id. apply set_nth_app.
Qed.

Lemma length_zero_nil {A : Type} (l : list A) :
  List.length l = 0%nat -> l = [].
Proof. destruct l; [reflexivity | discriminate]. Qed.

Section Block.

Variables (name : string) (fixed : string -> result ipp_t)
          (roll : ipp_t -> ipp_t) (col : string -> ipp_t).

Lemma sizes_block_keys (attrs : ipp_t) (media : list string)
      (mx0 mn0 : option string) (st : fill_state) :
  sizes_block name fixed roll attrs media mx0 mn0 = Ok st ->
  map key (fill_attrs st) =
  map key (delete_if_found attrs name IPP_TAG_BEGIN_COLLECTION) ++
  (if count_loop media 0 <? 1 then []
   else [(name, IPP_TAG_BEGIN_COLLECTION)]).
Proof.
  unfold sizes_block, ippAddCollections. intros H.
  assert (G : forall a0 h,
             rbind (fill_loop fixed h media (mk_fill a0 0 mx0 mn0))
               (fun st0 =>
                  rbind
                    (match fill_minname st0, fill_maxname st0 with
                     | Some minname, Some maxname =>
                         rbind (roll_size minname maxname)
                           (fun size =>
                              Ok (ippSetCollection (fill_attrs st0) h
                                    (fill_count st0) (roll size)))
                     | _, _ => Ok (fill_attrs st0)
                     end)
                    (fun attrs0 =>
                       Ok (mk_fill attrs0 (fill_count st0) (fill_maxname st0)
                             (fill_minname st0)))) = Ok st ->
             map key (fill_attrs st) = map key a0).
  { intros a0 h G.
    destruct (fill_loop fixed h media (mk_fill a0 0 mx0 mn0)) as [st0|] eqn:Hl;
      [|discriminate].
    apply fill_loop_keys in Hl. cbn [rbind fill_attrs] in *.
    destruct (fill_minname st0) as [mn|], (fill_maxname st0) as [mx|];
      try (injection G as <-; exact Hl).
    destruct (roll_size mn mx) as [size|]; [|discriminate].
    cbn [rbind] in G. injection G as <-. cbn [fill_attrs].
    now rewrite ippSetCollection_keys. }
  destruct (count_loop media 0 <? 1).
  - apply G in H. now rewrite H, app_nil_r.
  - cbn [ipp_add_attr] in H. apply G in H. rewrite H, map_app. reflexivity.
Qed.

Lemma sizes_block_fault (attrs : ipp_t) (media : list string)
      (mx0 mn0 : option string) (m : string) :
  In m media -> is_fixed m = true -> fixed m = NullDeref ->
  sizes_block name fixed roll attrs media mx0 mn0 = NullDeref.
Proof.
  intros Hin Hfix Hnull. unfold sizes_block, ippAddCollections.
  destruct (count_loop media 0 <? 1); cbn [ipp_add_attr];
    now rewrite (fill_loop_fault fixed _ media m Hin Hfix Hnull).
Qed.

Lemma sizes_block_values (attrs : ipp_t) (media : list string)
      (mx0 mn0 : option string) (size : ipp_t) :
  (forall m, In m media -> is_fixed m = true -> fixed m = Ok (col m)) ->
  pick_last is_roll_min media mn0 = pick_last is_roll_min media None ->
  (forall mn mx,
      pick_last is_roll_min media mn0 = Some mn ->
      pick_last is_roll_max media mx0 = Some mx ->
      roll_size mn mx = Ok size) ->
  sizes_block name fixed roll attrs media mx0 mn0 =
  Ok (mk_fill
        (delete_if_found attrs name IPP_TAG_BEGIN_COLLECTION ++
         sizes_attr name
           (sizes_values (map col (fixed_sizes media))
              (List.length (filter is_roll_min media))
              (match pick_last is_roll_min media mn0,
                     pick_last is_roll_max media mx0 with
               | Some _, Some _ => Some (roll size)
               | _, _ => None
               end)))
        (Z.of_nat (List.length (fixed_sizes media)))
        (pick_last is_roll_max media mx0)
        (pick_last is_roll_min media mn0)).
Proof.
  intros Hfix Hmn Hroll. unfold sizes_block, ippAddCollections.
  rewrite count_loop_spec, not_max_split. cbn [Z.add].
  set (D := delete_if_found attrs name IPP_TAG_BEGIN_COLLECTION).
  set (d := List.length (fixed_sizes media)).
  set (k := List.length (filter is_roll_min media)).
  destruct (Z.of_nat (d + k) <? 1) eqn:Hc.
  - apply Z.ltb_lt in Hc.
    assert (Hd : d = 0%nat) by lia. assert (Hk : k = 0%nat) by lia.
    rewrite (fill_loop_null fixed col media Hfix). cbn [rbind fill_minname fill_maxname fill_attrs fill_count].
    assert (Hnone : pick_last is_roll_min media mn0 = None).
    { rewrite Hmn. apply pick_last_none. split; [reflexivity|].
      apply none_of_length. exact Hk. }
    rewrite Hnone. cbn [rbind].
    fold d. rewrite Hd, Hk.
    unfold d in Hd. apply length_zero_nil in Hd. rewrite Hd.
    cbn [map sizes_values repeat app sizes_attr]. now rewrite app_nil_r.
  - apply Z.ltb_ge in Hc. cbn [ipp_add_attr].
    rewrite Nat2Z.id.
    rewrite (fill_loop_values fixed col D name IPP_TAG_PRINTER media Hfix).
    cbn [rbind fill_minname fill_maxname fill_attrs fill_count].
    pose proof (place_slots (map col (fixed_sizes media)) [] (d + k)) as Hp.
    cbn [app List.length] in Hp. change (Z.of_nat 0) with 0 in Hp.
    rewrite length_map in Hp. fold d in Hp.
    specialize (Hp ltac:(lia)).
    replace (d + k - d)%nat with k in Hp by lia.
    change (VCollection None) with empty_slot. rewrite Hp. fold d.
    change (0 + Z.of_nat d) with (Z.of_nat d).
    destruct (pick_last is_roll_min media mn0) as [mn|] eqn:Emn.
    + destruct (pick_last is_roll_max media mx0) as [mx|] eqn:Emx.
      * rewrite (Hroll mn mx eq_refl eq_refl). cbn [rbind].
        rewrite ippSetCollection_last.
        assert (Hk : (1 <= k)%nat).
        { assert (Emn' : pick_last is_roll_min media None = Some mn)
            by congruence.
          apply pick_last_some in Emn'.
          destruct Emn' as [Emn'|[Hin Hp']]; [discriminate|].
          unfold k. destruct (filter is_roll_min media) as [|y l] eqn:Hf;
            [|simpl; lia].
          assert (Hin' : In mn (filter is_roll_min media))
            by (apply filter_In; auto).
          rewrite Hf in Hin'. destruct Hin'. }
        destruct k as [|k']; [lia|]. cbn [repeat].
        replace d with (List.length (map slot (map col (fixed_sizes media))))
          by (now rewrite !length_map).
        rewrite store_at. rewrite !length_map. fold d.
        unfold sizes_values, sizes_attr. cbn [Nat.sub]. rewrite Nat.sub_0_r.
        destruct (map slot (map col (fixed_sizes media))); reflexivity.
      * cbn [rbind]. unfold sizes_values, sizes_attr.
        destruct (map slot (map col (fixed_sizes media)) ++ repeat empty_slot k)
          eqn:Hv; [|reflexivity].
        apply (f_equal (@List.length _)) in Hv.
        rewrite length_app, !length_map, repeat_length in Hv.
        fold d in Hv. simpl in Hv. lia.
    + cbn [rbind]. unfold sizes_values, sizes_attr.
      destruct (map slot (map col (fixed_sizes media)) ++ repeat empty_slot k)
        eqn:Hv; [|reflexivity].
      apply (f_equal (@List.length _)) in Hv.
      rewrite length_app, !length_map, repeat_length in Hv.
      fold d in Hv. simpl in Hv. lia.
Qed.

End Block.

(** *** The store [lprint_copy_media] leaves when every name resolves *)

Definition resolves (m : string) : Prop := pwgMediaForPWG m <> None.

Definition unwrap (r : result ipp_t) : ipp_t :=
  match r with
  | Ok c => c
  | NullDeref => []
  end.

Lemma media_size_resolves (m : string) :
  resolves m -> lprint_create_media_size m = Ok (unwrap (lprint_create_media_size m)).
Proof.
  unfold resolves, lprint_create_media_size. intros H.
  destruct (pwgMediaForPWG m); [reflexivity | congruence].
Qed.

Lemma media_col_resolves (m : string) (source type : option string)
      (lr bt : Z) :
  resolves m ->
  lprintCreateMediaCol m source type lr bt =
  Ok (unwrap (lprintCreateMediaCol m source type lr bt)).
Proof.
  unfold resolves, lprintCreateMediaCol, lprint_create_media_size. intros H.
  destruct (pwgMediaForPWG m); [reflexivity | congruence].
Qed.

Lemma roll_size_resolves (mn mx : string) :
  resolves mn -> resolves mx ->
  roll_size mn mx = Ok (unwrap (roll_size mn mx)).
Proof.
  unfold resolves, roll_size, pwg_call. intros Hn Hx.
  destruct (pwgMediaForPWG mn); [|congruence].
  destruct (pwgMediaForPWG mx); [|congruence].
  destruct (pwg_decoded mx), (pwg_decoded mn); reflexivity.
Qed.

(** The last sentinel of each kind, when both kinds occur. *)
Definition sentinels (media : list string) : option (string * string) :=
  match pick_last is_roll_min media None, pick_last is_roll_max media None with
  | Some mn, Some mx => Some (mn, mx)
  | _, _ => None
  end.

Definition roll_of (media : list string) : option ipp_t :=
  option_map (fun s => unwrap (roll_size (fst s) (snd s))) (sentinels media).

Definition col_database_values (driver : lprint_driver_t) : list ipp_value_t :=
  sizes_values
    (map (fun m => unwrap (lprintCreateMediaCol m None None
                             (driver_left_right driver) (driver_bottom_top driver)))
         (fixed_sizes (driver_media driver)))
    (List.length (filter is_roll_min (driver_media driver)))
    (option_map media_col_roll (roll_of (driver_media driver))).

Definition size_supported_values (driver : lprint_driver_t) : list ipp_value_t :=
  sizes_values
    (map (fun m => unwrap (lprint_create_media_size m))
         (fixed_sizes (driver_media driver)))
    (List.length (filter is_roll_min (driver_media driver)))
    (roll_of (driver_media driver)).

Definition media_store (attrs : ipp_t) (driver : lprint_driver_t) : ipp_t :=
  let a := replace_integer attrs "media-bottom-margin-supported"
             (driver_bottom_top driver) in
  let a := delete_if_found a "media-col-database" IPP_TAG_BEGIN_COLLECTION
             ++ sizes_attr "media-col-database" (col_database_values driver) in
  let a := replace_integer a "media-left-margin-supported"
             (driver_left_right driver) in
  let a := replace_integer a "media-right-margin-supported"
             (driver_left_right driver) in
  let a := delete_if_found a "media-size-supported" IPP_TAG_BEGIN_COLLECTION
             ++ sizes_attr "media-size-supported" (size_supported_values driver) in
  let a := replace_strings a "media-source-supported" (driver_source driver) in
  let a := replace_strings a "media-supported" (driver_media driver) in
  let a := replace_integer a "media-top-margin-supported"
             (driver_bottom_top driver) in
  replace_strings a "media-type-supported" (driver_type driver).

Lemma sentinel_roll (media : list string) (roll : ipp_t -> ipp_t) :
  match pick_last is_roll_min media None, pick_last is_roll_max media None with
  | Some _, Some _ =>
      Some (roll (match sentinels media with
                  | Some s => unwrap (roll_size (fst s) (snd s))
                  | None => []
                  end))
  | _, _ => None
  end = option_map roll (roll_of media).
Proof.
  unfold roll_of, sentinels.
  destruct (pick_last is_roll_min media None), (pick_last is_roll_max media None);
    reflexivity.
Qed.

Lemma copy_media_resolved (attrs : ipp_t) (driver : lprint_driver_t) :
  (forall m, In m (driver_media driver) -> resolves m) ->
  lprint_copy_media attrs driver = Ok (media_store attrs driver).
Proof.
  intros Hres. rewrite lprint_copy_media_blocks.
  set (media := driver_media driver) in *.
  set (size := match sentinels media with
               | Some s => unwrap (roll_size (fst s) (snd s))
               | None => []
               end).
  assert (Hroll : forall mn mx,
             pick_last is_roll_min media None = Some mn ->
             pick_last is_roll_max media None = Some mx ->
             roll_size mn mx = Ok size).
  { intros mn mx Hmn Hmx. unfold size, sentinels. rewrite Hmn, Hmx.
    cbn [fst snd]. apply roll_size_resolves.
    - apply pick_last_some in Hmn. destruct Hmn as [?|[? _]]; [discriminate|auto].
    - apply pick_last_some in Hmx. destruct Hmx as [?|[? _]]; [discriminate|auto]. }
  rewrite (sizes_block_values "media-col-database" _ media_col_roll
             (fun m => unwrap (lprintCreateMediaCol m None None
                                 (driver_left_right driver)
                                 (driver_bottom_top driver)))
             _ media None None size);
    [ | intros m Hm _; apply media_col_resolves; auto | reflexivity | exact Hroll ].
  cbn [rbind fill_attrs fill_maxname fill_minname].
  rewrite (sizes_block_values "media-size-supported" _ (fun s => s)
             (fun m => unwrap (lprint_create_media_size m))
             _ media _ _ size);
    [ | intros m Hm _; apply media_size_resolves; auto
      | apply pick_last_idem
      | rewrite !pick_last_idem; exact Hroll ].
  cbn [rbind fill_attrs fill_maxname fill_minname].
  rewrite !pick_last_idem.
  unfold media_store, col_database_values, size_supported_values.
  fold media. rewrite <- (sentinel_roll media media_col_roll).
  replace (roll_of media) with (option_map (fun s : ipp_t => s) (roll_of media))
    by (destruct (roll_of media); reflexivity).
  rewrite <- (sentinel_roll media (fun s => s)). reflexivity.
Qed.

End MediaFacts.

(* ================================================================== *)
(** ** Replacing an attribute: delete, then add *)
(* ================================================================== *)

(** The attribute names the capability synthesis writes, each with the value
    tag it is looked up and added under. *)
Definition synthesized : list (string * ipp_tag_t) :=
  [ ("media-bottom-margin-supported", IPP_TAG_INTEGER);
    ("media-col-database", IPP_TAG_BEGIN_COLLECTION);
    ("media-left-margin-supported", IPP_TAG_INTEGER);
    ("media-right-margin-supported", IPP_TAG_INTEGER);
    ("media-size-supported", IPP_TAG_BEGIN_COLLECTION);
    ("media-source-supported", IPP_TAG_KEYWORD);
    ("media-supported", IPP_TAG_KEYWORD);
    ("media-top-margin-supported", IPP_TAG_INTEGER);
    ("media-type-supported", IPP_TAG_KEYWORD);
    ("printer-resolution-default", IPP_TAG_RESOLUTION);
    ("printer-resolution-supported", IPP_TAG_RESOLUTION);
    ("pwg-raster-document-resolution-supported", IPP_TAG_RESOLUTION);
    ("urf-supported", IPP_TAG_KEYWORD) ].

(** At most one attribute carries each synthesized name, and it has the
    value tag of the synthesis. *)
Definition single_valued (attrs : ipp_t) : Prop :=
  forall n t,
    In (n, t) synthesized ->
    (count_named n attrs <= 1)%nat /\
    (forall a, In a attrs ->
               CStr.strcaseeq (attr_name a) n = true -> attr_value_tag a = t).

Module ReplaceFacts.
Import IppFacts.

Definition name_is (n : string) (a : ipp_attribute_t) : bool :=
  CStr.strcaseeq (attr_name a) n.

(** Every attribute of [new] is named [n] and tagged [t]. *)
Definition all_keyed (n : string) (t : ipp_tag_t) (new : ipp_t) : Prop :=
  forall a, In a new -> attr_name a = n /\ attr_value_tag a = t.

Lemma strcaseeq_trans (a b c : string) :
  CStr.strcaseeq a b = true -> CStr.strcaseeq a c = true ->
  CStr.strcaseeq b c = true.
Proof.
  unfold CStr.strcaseeq. rewrite !String.eqb_eq. congruence.
Qed.

Lemma matches_name (n : string) (t : ipp_tag_t) (a : ipp_attribute_t) :
  matches n t a = true -> name_is n a = true.
Proof. unfold matches, name_is. intros H. now apply andb_true_iff in H. Qed.

Lemma matches_disjoint (n n' : string) (t t' : ipp_tag_t) :
  CStr.strcaseeq n' n = false ->
  forall a, matches n' t' a = true -> matches n t a = false.
Proof.
  intros Hne a H'. destruct (matches n t a) eqn:H; [|reflexivity].
  apply matches_name in H, H'. unfold name_is in *.
  rewrite (strcaseeq_trans _ _ _ H' H) in Hne. discriminate.
Qed.

Lemma name_disjoint (n n' : string) (t' : ipp_tag_t) :
  CStr.strcaseeq n' n = false ->
  forall a, matches n' t' a = true -> name_is n a = false.
Proof.
  intros Hne a H'. destruct (name_is n a) eqn:H; [|reflexivity].
  apply matches_name in H'. unfold name_is in *.
  rewrite (strcaseeq_trans _ _ _ H' H) in Hne. discriminate.
Qed.

Lemma keyed_none (n n' : string) (t t' : ipp_tag_t) (new : ipp_t) :
  CStr.strcaseeq n' n = false -> all_keyed n' t' new ->
  none_of (matches n t) new.
Proof.
  intros Hne Hk a Ha. destruct (Hk a Ha) as [Hn _].
  unfold matches. rewrite Hn, Hne. reflexivity.
Qed.

Lemma keyed_unnamed (n n' : string) (t' : ipp_tag_t) (new : ipp_t) :
  CStr.strcaseeq n' n = false -> all_keyed n' t' new ->
  none_of (name_is n) new.
Proof.
  intros Hne Hk a Ha. destruct (Hk a Ha) as [Hn _].
  unfold name_is. now rewrite Hn.
Qed.

Lemma keyed_nil (n : string) (t : ipp_tag_t) : all_keyed n t [].
Proof. intros a []. Qed.

Lemma keyed_single (n : string) (g t : ipp_tag_t) (vs : list ipp_value_t) :
  all_keyed n t [Attr n g t vs].
Proof. intros a [<-|[]]. split; reflexivity. Qed.

(** What [ippFindAttribute] sees is untouched by the replacement of an
    attribute of another name. *)
Lemma find_replace_other (n n' : string) (t t' : ipp_tag_t) (X new : ipp_t) :
  CStr.strcaseeq n' n = false -> all_keyed n' t' new ->
  find (matches n t) (delete_if_found X n' t' ++ new) = find (matches n t) X.
Proof.
  intros Hne Hk. rewrite find_app, delete_if_found_remove_first.
  rewrite (find_remove_first_other _ _ _ (matches_disjoint n n' t t' Hne)).
  destruct (find (matches n t) X); [reflexivity|].
  apply find_none_of. exact (keyed_none n n' t t' new Hne Hk).
Qed.



(** Deleting commutes with attributes of other names added behind. *)
Lemma delete_app_other (n n' : string) (t t' : ipp_tag_t) (X new : ipp_t) :
  CStr.strcaseeq n' n = false -> all_keyed n' t' new ->
  delete_if_found (X ++ new) n t = delete_if_found X n t ++ new.
Proof.
  intros Hne Hk. rewrite !delete_if_found_remove_first.
  apply remove_first_app. exact (keyed_none n n' t t' new Hne Hk).
Qed.

Lemma in_remove_first {A : Type} (p : A -> bool) (l : list A) (a : A) :
  In a (remove_first p l) -> In a l.
Proof.
  induction l as [|x l IH]; simpl; [auto|].
  destruct (p x); [now right|]. intros [->|H]; [now left | right; auto].
Qed.

Lemma remove_first_ext {A : Type} (p q : A -> bool) (l : list A) :
  (forall a, In a l -> p a = q a) -> remove_first p l = remove_first q l.
Proof.
  induction l as [|x l IH]; intros H; simpl; [reflexivity|].
  rewrite (H x) by now left. destruct (q x); [reflexivity|].
  rewrite IH; [reflexivity|]. intros a Ha. apply H. now right.
Qed.

(** The synthesized names differ pairwise, even without regard to case. *)
Lemma synthesized_distinct (n n' : string) (t t' : ipp_tag_t) :
  In (n, t) synthesized -> In (n', t') synthesized ->
  CStr.strcaseeq n n' = true -> n = n' /\ t = t'.
Proof.
  intros H H' He.
  assert (Hall :
            forallb (fun p =>
              forallb (fun q =>
                implb (CStr.strcaseeq (fst p) (fst q))
                      (String.eqb (fst p) (fst q)
                       && tag_eqb (snd p) (snd q)))
                synthesized) synthesized = true) by (vm_compute; reflexivity).
  rewrite forallb_forall in Hall. specialize (Hall _ H).
  rewrite forallb_forall in Hall. specialize (Hall _ H').
  cbn [fst snd] in Hall. rewrite He in Hall. cbn [implb] in Hall.
  apply andb_true_iff in Hall. destruct Hall as [H1 H2].
  apply String.eqb_eq in H1. unfold tag_eqb in H2.
  destruct (tag_eq_dec t t'); [auto | discriminate].
Qed.

Lemma synthesized_tag (n : string) (t : ipp_tag_t) :
  In (n, t) synthesized -> tag_matches t t = true.
Proof.
  intros H. unfold tag_matches, tag_eqb.
  destruct (tag_eq_dec t t); [reflexivity | congruence].
Qed.

(** Replacing a synthesized attribute keeps the store single valued. *)
Lemma sv_replace (X new : ipp_t) (n : string) (t : ipp_tag_t) :
  single_valued X -> In (n, t) synthesized ->
  all_keyed n t new -> (List.length new <= 1)%nat ->
  single_valued (delete_if_found X n t ++ new).
Proof.
  intros Hsv Hin Hk Hlen n1 t1 Hin1.
  destruct (Hsv n1 t1 Hin1) as [Hc1 Ht1].
  rewrite delete_if_found_remove_first.
  destruct (CStr.strcaseeq n n1) eqn:He.
  - destruct (synthesized_distinct n n1 t t1 Hin Hin1 He) as [<- <-].
    split.
    + unfold count_named in *. rewrite filter_app, length_app.
      assert (Hext : forall a, In a X ->
                 matches n t a = CStr.strcaseeq (attr_name a) n).
      { intros a Ha. unfold matches.
        destruct (CStr.strcaseeq (attr_name a) n) eqn:Hn; [|reflexivity].
        rewrite (Ht1 a Ha Hn). apply (synthesized_tag n t Hin). }
      rewrite (remove_first_ext _ _ X Hext), filter_remove_first_same.
      pose proof (filter_length_le (fun a => CStr.strcaseeq (attr_name a) n) new).
      lia.
    + intros a Ha Hn. apply in_app_or in Ha. destruct Ha as [Ha|Ha].
      * apply in_remove_first in Ha. now apply Ht1.
      * now destruct (Hk a Ha).
  - split.
    + unfold count_named in *. rewrite filter_app, length_app.
      rewrite (filter_remove_first_other _ _ _ (name_disjoint n1 n t He)).
      pose proof (keyed_unnamed n1 n t new He Hk) as Hnone.
      apply none_of_length in Hnone. unfold name_is in *. lia.
    + intros a Ha Hn. apply in_app_or in Ha. destruct Ha as [Ha|Ha].
      * apply in_remove_first in Ha. now apply Ht1.
      * destruct (Hk a Ha) as [Hna _]. rewrite Hna, He in Hn. discriminate.
Qed.

(** Single-valuedness is a property of the names and tags alone. *)
Lemma count_named_keys (n : string) (X : ipp_t) :
  count_named n X =
  List.length (filter (fun k => CStr.strcaseeq (fst k) n) (map key X)).
Proof.
  unfold count_named. induction X as [|a X IH]; simpl; [reflexivity|].
  destruct (CStr.strcaseeq (attr_name a) n); simpl; now rewrite IH.
Qed.

Lemma sv_keys (X Y : ipp_t) :
  map key X = map key Y -> single_valued X -> single_valued Y.
Proof.
  intros Hk Hsv n t Hin. destruct (Hsv n t Hin) as [Hc Ht]. split.
  - now rewrite count_named_keys, <- Hk, <- count_named_keys.
  - intros a Ha Hn. apply (in_map key) in Ha. rewrite <- Hk in Ha.
    apply in_map_iff in Ha. destruct Ha as (b & Hb & Hinb).
    unfold key in Hb. injection Hb as Hb1 Hb2.
    rewrite <- Hb2. apply Ht; [exact Hinb | now rewrite Hb1].
Qed.

(** An attribute of a name outside the synthesis may be added freely. *)
Lemma sv_add_other (X : ipp_t) (a : ipp_attribute_t) :
  single_valued X ->
  (forall n t, In (n, t) synthesized -> CStr.strcaseeq (attr_name a) n = false) ->
  single_valued (X ++ [a]).
Proof.
  intros Hsv Hother n t Hin. destruct (Hsv n t Hin) as [Hc Ht]. split.
  - unfold count_named in *. rewrite filter_app, length_app. simpl.
    rewrite (Hother n t Hin). simpl. lia.
  - intros b Hb Hn. apply in_app_or in Hb. destruct Hb as [Hb|[<-|[]]].
    + now apply Ht.
    + rewrite (Hother n t Hin) in Hn. discriminate.
Qed.

End ReplaceFacts.

(* ================================================================== *)
(** ** Facts about the synthesized attributes *)
(* ================================================================== *)

(** The attributes of the resolution block, in the order they are added. *)
Definition default_attr (driver : lprint_driver_t) : ipp_t :=
  if num_resolution driver >? 0 then
    if (x_resolution driver (num_resolution driver - 1) <? 0)
       || (y_resolution driver (num_resolution driver - 1) <? 0)
    then []
    else [Attr "printer-resolution-default" IPP_TAG_PRINTER IPP_TAG_RESOLUTION
            [VResolution (x_resolution driver (num_resolution driver - 1))
                         (y_resolution driver (num_resolution driver - 1))
                         IPP_RES_PER_INCH]]
  else [].

Definition resolutions_attr (name : string) (driver : lprint_driver_t) : ipp_t :=
  match driver_resolution driver with
  | [] => []
  | res => [Attr name IPP_TAG_PRINTER IPP_TAG_RESOLUTION
              (map (fun r => VResolution (fst r) (snd r) IPP_RES_PER_INCH) res)]
  end.

Definition urf_attr (driver : lprint_driver_t) : ipp_t :=
  match driver_resolution driver with
  | [] => []
  | _ => [Attr "urf-supported" IPP_TAG_PRINTER IPP_TAG_KEYWORD
            [VString "V1.4"; VString "W8"; VString (urf_rs driver)]]
  end.

(** The store with the first attribute of each resolution name deleted. *)
Definition without_resolution (attrs : ipp_t) : ipp_t :=
  delete_if_found
    (delete_if_found
       (delete_if_found
          (delete_if_found attrs "printer-resolution-default" IPP_TAG_RESOLUTION)
          "printer-resolution-supported" IPP_TAG_RESOLUTION)
       "pwg-raster-document-resolution-supported" IPP_TAG_RESOLUTION)
    "urf-supported" IPP_TAG_KEYWORD.

Section SynthesisFacts.

Context {collab : Collaborators}.
Import IppFacts ReplaceFacts.

Lemma none_of_forallb {A : Type} (p : A -> bool) (l : list A) :
  forallb (fun a => negb (p a)) l = true -> none_of p l.
Proof.
  intros H a Ha. rewrite forallb_forall in H.
  apply H in Ha. now apply negb_true_iff in Ha.
Qed.

Lemma delete_app_none (n : string) (t : ipp_tag_t) (X new : ipp_t) :
  none_of (matches n t) new ->
  delete_if_found (X ++ new) n t = delete_if_found X n t ++ new.
Proof.
  intros H. rewrite !delete_if_found_remove_first. now apply remove_first_app.
Qed.

Lemma num_resolution_pos (driver : lprint_driver_t) :
  (num_resolution driver >? 0) =
  match driver_resolution driver with
  | [] => false
  | _ => true
  end.
Proof.
  unfold num_resolution. destruct (driver_resolution driver); reflexivity.
Qed.

(** The resolution block deletes, then appends. *)
Lemma copy_resolution_purge (attrs : ipp_t) (driver : lprint_driver_t) :
  copy_resolution attrs driver =
  without_resolution attrs ++
  (default_attr driver
     ++ resolutions_attr "printer-resolution-supported" driver
     ++ resolutions_attr "pwg-raster-document-resolution-supported" driver
     ++ urf_attr driver).
Proof.
  unfold copy_resolution, without_resolution, default_attr, resolutions_attr,
    urf_attr, ippAddResolution.
  rewrite !num_resolution_pos.
  destruct (driver_resolution driver) as [|r res] eqn:Hres.
  - cbn [app]. now rewrite app_nil_r.
  - set (D := delete_if_found
                (delete_if_found attrs "printer-resolution-default" IPP_TAG_RESOLUTION)
                "printer-resolution-supported" IPP_TAG_RESOLUTION).
    destruct ((x_resolution driver (num_resolution driver - 1) <? 0)
              || (y_resolution driver (num_resolution driver - 1) <? 0));
      cbn [ippAddResolutions ippAddStrings ipp_add_attr fst];
      repeat (rewrite delete_app_none
               by (apply none_of_forallb; vm_compute; reflexivity));
      repeat rewrite <- app_assoc; reflexivity.
Qed.

(** The same block as four replacements in a row. *)
Lemma copy_resolution_chain (attrs : ipp_t) (driver : lprint_driver_t) :
  copy_resolution attrs driver =
  delete_if_found
    (delete_if_found
       (delete_if_found
          (delete_if_found attrs "printer-resolution-default" IPP_TAG_RESOLUTION
             ++ default_attr driver)
          "printer-resolution-supported" IPP_TAG_RESOLUTION
          ++ resolutions_attr "printer-resolution-supported" driver)
       "pwg-raster-document-resolution-supported" IPP_TAG_RESOLUTION
       ++ resolutions_attr "pwg-raster-document-resolution-supported" driver)
    "urf-supported" IPP_TAG_KEYWORD
    ++ urf_attr driver.
Proof.
  rewrite copy_resolution_purge.
  unfold without_resolution, default_attr, resolutions_attr, urf_attr.
  rewrite !num_resolution_pos.
  destruct (driver_resolution driver) as [|r res] eqn:Hres.
  - now rewrite !app_nil_r.
  - destruct ((x_resolution driver (num_resolution driver - 1) <? 0)
              || (y_resolution driver (num_resolution driver - 1) <? 0));
      repeat (rewrite delete_app_none
               by (apply none_of_forallb; vm_compute; reflexivity));
      repeat rewrite <- app_assoc; reflexivity.
Qed.

Lemma keyed_default (driver : lprint_driver_t) :
  all_keyed "printer-resolution-default" IPP_TAG_RESOLUTION (default_attr driver)
  /\ (List.length (default_attr driver) <= 1)%nat.
Proof.
  unfold default_attr.
  destruct (num_resolution driver >? 0); [|split; [apply keyed_nil | simpl; lia]].
  destruct (_ || _); split;
    first [apply keyed_nil | apply keyed_single | simpl; lia].
Qed.

Lemma keyed_resolutions (name : string) (driver : lprint_driver_t) :
  all_keyed name IPP_TAG_RESOLUTION (resolutions_attr name driver)
  /\ (List.length (resolutions_attr name driver) <= 1)%nat.
Proof.
  unfold resolutions_attr.
  destruct (driver_resolution driver); split;
    first [apply keyed_nil | apply keyed_single | simpl; lia].
Qed.

Lemma keyed_urf (driver : lprint_driver_t) :
  all_keyed "urf-supported" IPP_TAG_KEYWORD (urf_attr driver)
  /\ (List.length (urf_attr driver) <= 1)%nat.
Proof.
  unfold urf_attr.
  destruct (driver_resolution driver); split;
    first [apply keyed_nil | apply keyed_single | simpl; lia].
Qed.

Lemma keyed_strings (name : string) (l : list string) :
  all_keyed name IPP_TAG_KEYWORD (strings_attr name l)
  /\ (List.length (strings_attr name l) <= 1)%nat.
Proof.
  unfold strings_attr.
  destruct l; split; first [apply keyed_nil | apply keyed_single | simpl; lia].
Qed.

Lemma keyed_sizes (name : string) (vals : list ipp_value_t) :
  all_keyed name IPP_TAG_BEGIN_COLLECTION (sizes_attr name vals)
  /\ (List.length (sizes_attr name vals) <= 1)%nat.
Proof.
  unfold sizes_attr.
  destruct vals; split; first [apply keyed_nil | apply keyed_single | simpl; lia].
Qed.

Ltac in_synthesized := unfold synthesized; simpl; tauto.

Lemma sv_copy_resolution (attrs : ipp_t) (driver : lprint_driver_t) :
  single_valued attrs -> single_valued (copy_resolution attrs driver).
Proof.
  intros H. rewrite copy_resolution_chain.
  apply sv_replace;
    [ | in_synthesized | apply keyed_urf | apply keyed_urf ].
  apply sv_replace;
    [ | in_synthesized | apply keyed_resolutions | apply keyed_resolutions ].
  apply sv_replace;
    [ | in_synthesized | apply keyed_resolutions | apply keyed_resolutions ].
  apply sv_replace;
    [ exact H | in_synthesized | apply keyed_default | apply keyed_default ].
Qed.

Lemma sv_replace_integer (attrs : ipp_t) (name : string) (v : Z) :
  single_valued attrs -> In (name, IPP_TAG_INTEGER) synthesized ->
  single_valued (replace_integer attrs name v).
Proof.
  intros H Hin. unfold replace_integer.
  apply sv_replace; [exact H | exact Hin | apply keyed_single | simpl; lia].
Qed.

Lemma sv_replace_strings (attrs : ipp_t) (name : string) (l : list string) :
  single_valued attrs -> In (name, IPP_TAG_KEYWORD) synthesized ->
  single_valued (replace_strings attrs name l).
Proof.
  intros H Hin. unfold replace_strings.
  apply sv_replace; [exact H | exact Hin | apply keyed_strings | apply keyed_strings].
Qed.

Lemma sv_sizes_block (name : string) (fixed : string -> result ipp_t)
      (roll : ipp_t -> ipp_t) (attrs : ipp_t) (media : list string)
      (mx0 mn0 : option string) (st : fill_state) :
  single_valued attrs -> In (name, IPP_TAG_BEGIN_COLLECTION) synthesized ->
  sizes_block name fixed roll attrs media mx0 mn0 = Ok st ->
  single_valued (fill_attrs st).
Proof.
  intros H Hin Hst. apply sizes_block_keys in Hst.
  set (new := if count_loop media 0 <? 1 then []
              else [Attr name IPP_TAG_PRINTER IPP_TAG_BEGIN_COLLECTION []]).
  apply (sv_keys (delete_if_found attrs name IPP_TAG_BEGIN_COLLECTION ++ new)).
  - rewrite Hst, map_app. unfold new.
    destruct (count_loop media 0 <? 1); reflexivity.
  - apply sv_replace; [exact H | exact Hin | | ]; unfold new;
      destruct (count_loop media 0 <? 1);
      first [apply keyed_nil | apply keyed_single | simpl; lia].
Qed.

Lemma sv_copy_media (attrs attrs' : ipp_t) (driver : lprint_driver_t) :
  single_valued attrs ->
  lprint_copy_media attrs driver = Ok attrs' ->
  single_valued attrs'.
Proof.
  intros H. rewrite lprint_copy_media_blocks.
  destruct (sizes_block "media-col-database" _ _ _ _ _ _) as [st1|] eqn:H1;
    [|discriminate].
  cbn [rbind].
  destruct (sizes_block "media-size-supported" _ _ _ _ _ _) as [st2|] eqn:H2;
    [|discriminate].
  cbn [rbind]. intros Heq. injection Heq as <-.
  apply sv_sizes_block in H1;
    [ | apply sv_replace_integer; [exact H | in_synthesized] | in_synthesized ].
  apply sv_sizes_block in H2;
    [ | repeat (apply sv_replace_integer; [ | in_synthesized ]); exact H1
      | in_synthesized ].
  apply sv_replace_strings; [ | in_synthesized ].
  apply sv_replace_integer; [ | in_synthesized ].
  apply sv_replace_strings; [ | in_synthesized ].
  apply sv_replace_strings; [ exact H2 | in_synthesized ].
Qed.

Lemma sv_make_and_model (attrs : ipp_t) (i : nat) :
  single_valued attrs -> single_valued (set_make_and_model attrs i).
Proof.
  intros H. unfold set_make_and_model.
  destruct (ippFindAttribute attrs "printer-make-and-model" IPP_TAG_TEXT).
  - apply (sv_keys attrs); [|exact H]. symmetry. apply ippSetString_keys.
  - cbn [ippAddString ipp_add_attr fst]. apply sv_add_other; [exact H|].
    intros n t Hin. cbn [attr_name].
    assert (Hall : forallb (fun p => negb (CStr.strcaseeq "printer-make-and-model" (fst p)))
                           synthesized = true) by (vm_compute; reflexivity).
    rewrite forallb_forall in Hall. specialize (Hall _ Hin).
    now apply negb_true_iff in Hall.
Qed.

Lemma sv_synthesized (attrs attrs' : ipp_t) (driver : lprint_driver_t) (i : nat) :
  single_valued attrs ->
  synthesized_attrs attrs driver i = Ok attrs' ->
  single_valued attrs'.
Proof.
  unfold synthesized_attrs. intros H Hs.
  destruct (lprint_copy_media attrs driver) as [a1|] eqn:H1; [|discriminate].
  cbn [rbind] in Hs. injection Hs as <-.
  apply sv_copy_resolution, sv_make_and_model.
  exact (sv_copy_media attrs a1 driver H H1).
Qed.

(** A run that returns no driver leaves the printer as it was. *)
Lemma run_none (calloc_ok : bool) (printer : lprint_printer_t) (m : machine) :
  run_lprintCreateDriver calloc_ok printer = Ok (None, m) ->
  m = mk_machine printer [EvWrLock; EvUnlock].
Proof.
  rewrite run_unfold. intros H.
  destruct (requested_driver printer) as [name|];
    [|injection H as <-; reflexivity].
  destruct (in_dec string_dec name lprint_drivers) as [Hin|Hnin].
  - destruct (create_loop_hit calloc_ok name (mk_machine printer [EvWrLock])
                lprint_drivers 0 Hin) as (j & Hj & Heq).
    rewrite Heq in H. destruct calloc_ok.
    + rewrite (create_matched_registry name (0 + j) _ Hin) in H.
      cbv zeta in H.
      destruct (synthesized_attrs _ _ _); discriminate.
    + rewrite create_matched_no_memory in H. injection H as <-. reflexivity.
  - rewrite (create_loop_miss calloc_ok name _ lprint_drivers 0 Hnin) in H.
    injection H as <-. reflexivity.
Qed.

End SynthesisFacts.

(* ================================================================== *)
(** ** The properties of the specification *)
(* ================================================================== *)

(** Concrete runs use the sample database and initializers. *)
#[local] Existing Instance Sample.collaborators.

Lemma make_and_model_loop_miss (name : string) :
  forall keywords i,
    ~ In name keywords -> make_and_model_loop keywords i name = None.
Proof.
  induction keywords as [|k rest IH]; intros i Hn; simpl; [reflexivity|].
  rewrite CStrFacts.strcmp_eqb.
  destruct (String.eqb_spec k name) as [->|Hne].
  - exfalso. apply Hn. now left.
  - apply IH. intros H. apply Hn. now right.
Qed.

(** C9 (driver registry, make and model).  The keyword at index [i] of the
    registry yields the model name at index [i]: for a driver named
    [lprint_drivers[i]], [lprintGetMakeAndModel] returns [lprint_models[i]].
    It returns "Unknown" for a null driver, for a driver without a name, and
    for a driver whose name is no registry keyword. *)
Theorem make_and_model_registry :
  (forall i keyword driver,
      nth_error lprint_drivers i = Some keyword ->
      driver_name driver = Some keyword ->
      nth_error lprint_models i = Some (lprintGetMakeAndModel (Some driver)))
  /\ lprintGetMakeAndModel None = "Unknown"
  /\ (forall driver,
         driver_name driver = None ->
         lprintGetMakeAndModel (Some driver) = "Unknown")
  /\ (forall driver name,
         driver_name driver = Some name ->
         ~ In name lprint_drivers ->
         lprintGetMakeAndModel (Some driver) = "Unknown").
Proof.
  split; [|split; [reflexivity|split]].
  - intros i keyword driver Hi Hname. unfold lprintGetMakeAndModel.
    rewrite Hname.
    do 25 (destruct i as [|i]; [injection Hi as <-; reflexivity|]).
    destruct i; discriminate.
  - intros driver Hname. unfold lprintGetMakeAndModel. now rewrite Hname.
  - intros driver name Hname Hnin. unfold lprintGetMakeAndModel.
    now rewrite Hname, make_and_model_loop_miss.
Qed.

Lemma make_and_model_registry_witness :
  nth_error lprint_models 18 = Some (lprintGetMakeAndModel (Some Sample.roll_driver)).
Proof.
  exact (proj1 make_and_model_registry 18%nat "dymo_lw-450" Sample.roll_driver
           eq_refl eq_refl).
Defined.

(** C5 (unknown driver keyword).  When the printer has no lprint-driver
    keyword, or its keyword equals no entry of the registry,
    [lprintCreateDriver] returns null and the printer is unchanged, driver
    field and attributes alike; the lock is taken and released. *)
Theorem create_driver_not_found {collab : Collaborators}
        (calloc_ok : bool) (printer : lprint_printer_t) :
  (forall name, requested_driver printer = Some name -> ~ In name lprint_drivers) ->
  run_lprintCreateDriver calloc_ok printer =
  Ok (None, mk_machine printer [EvWrLock; EvUnlock]).
Proof.
  intros H. rewrite run_unfold.
  destruct (requested_driver printer) as [name|]; [|reflexivity].
  now rewrite (create_loop_miss calloc_ok name _ lprint_drivers 0 (H name eq_refl)).
Qed.

Lemma create_driver_not_found_witness :
  run_lprintCreateDriver true (Sample.printer_with "dymo_lw-45") =
  Ok (None, mk_machine (Sample.printer_with "dymo_lw-45") [EvWrLock; EvUnlock]).
Proof.
  apply (create_driver_not_found true (Sample.printer_with "dymo_lw-45")).
  intros name H. vm_compute in H. injection H as <-.
  intros Hin. simpl in Hin.
  repeat (destruct Hin as [Hin|Hin]; [discriminate|]). exact Hin.
Defined.

(** C10 (family dispatch).  Every keyword of the registry begins with
    "dymo_"; hence every run of [lprintCreateDriver] that returns a driver
    has called the DYMO initializer and no other, on a zeroed structure
    carrying the keyword as its name. *)
Theorem registry_dispatches_dymo {collab : Collaborators} :
  (forall keyword, In keyword lprint_drivers -> String.prefix "dymo_" keyword = true)
  /\ (forall calloc_ok printer driver m,
         run_lprintCreateDriver calloc_ok printer = Ok (Some driver, m) ->
         In (EvInit DYMO) (m_trace m)
         /\ (forall f, In (EvInit f) (m_trace m) -> f = DYMO)
         /\ exists keyword,
              In keyword lprint_drivers
              /\ driver = lprintInitDYMO (named_driver keyword)).
Proof.
  split.
  - intros keyword Hin.
    assert (Hall : forallb (String.prefix "dymo_") lprint_drivers = true)
      by (vm_compute; reflexivity).
    rewrite forallb_forall in Hall. now apply Hall.
  - intros calloc_ok printer driver m Hrun.
    destruct (run_success calloc_ok printer driver m Hrun)
      as (name & i & attrs & _ & Hi & _ & Hd & _ & ->).
    cbn [m_trace]. split; [simpl; tauto|]. split.
    + intros f Hf. simpl in Hf.
      repeat (destruct Hf as [Hf|Hf]; [try discriminate; now injection Hf as <-|]).
      destruct Hf.
    + exists name. split; [eapply nth_error_In; eassumption | exact Hd].
Qed.

Lemma registry_dispatches_dymo_witness :
  exists driver m,
    run_lprintCreateDriver true (Sample.printer_with "dymo_lw-450") = Ok (Some driver, m)
    /\ In (EvInit DYMO) (m_trace m).
Proof.
  eexists. eexists. split; [vm_compute; reflexivity|].
  eapply (proj2 (@registry_dispatches_dymo Sample.collaborators) true
                (Sample.printer_with "dymo_lw-450")).
  vm_compute. reflexivity.
Defined.

(** C6 (order of the steps), as the code has it.  In every run of
    [lprintCreateDriver] that returns a driver the steps are, in this
    order: the lock is taken, one family initializer fills the structure,
    the structure is attached to the printer, the media attributes are
    copied, make and model is set, the resolution attributes are written,
    and the lock is released. *)
Theorem create_driver_step_order {collab : Collaborators}
        (calloc_ok : bool) (printer : lprint_printer_t)
        (driver : lprint_driver_t) (m : machine) :
  run_lprintCreateDriver calloc_ok printer = Ok (Some driver, m) ->
  (exists f,
      m_trace m = [EvWrLock; EvInit f; EvAttach; EvCopyMedia; EvMakeAndModel;
                   EvResolution; EvUnlock])
  /\ printer_driver (m_printer m) = Some driver.
Proof.
  intros Hrun.
  destruct (run_success calloc_ok printer driver m Hrun)
    as (name & i & attrs & _ & _ & _ & _ & _ & ->).
  split; [exists DYMO|]; reflexivity.
Qed.

Lemma create_driver_step_order_witness :
  exists driver m,
    run_lprintCreateDriver true (Sample.printer_with "dymo_lw-450") = Ok (Some driver, m)
    /\ (exists f,
           m_trace m = [EvWrLock; EvInit f; EvAttach; EvCopyMedia; EvMakeAndModel;
                        EvResolution; EvUnlock])
    /\ printer_driver (m_printer m) = Some driver.
Proof.
  eexists. eexists. split; [vm_compute; reflexivity|].
  eapply (@create_driver_step_order Sample.collaborators true
            (Sample.printer_with "dymo_lw-450")).
  vm_compute. reflexivity.
Defined.

(** C6 as the specification words it fails: on a printer asking for
    "dymo_lw-450" the driver is attached before the media attributes are
    copied, not after the synthesis. *)
Lemma attach_precedes_synthesis :
  exists driver m,
    run_lprintCreateDriver true (Sample.printer_with "dymo_lw-450") = Ok (Some driver, m)
    /\ ~ attached_after_synthesis (m_trace m).
Proof.
  eexists. eexists. split; [vm_compute; reflexivity|].
  vm_compute. intros [H _]. inversion H as [|? H']. inversion H' as [|? H''].
  inversion H''.
Qed.

(** C8 (unknown media size), what the code does: a size name the media
    database does not know makes [lprint_create_media_size] dereference the
    null pointer, and with it [lprintCreateMediaCol] and, when the name is a
    fixed size of the driver, [lprint_copy_media]. *)
Theorem unknown_media_null_deref {collab : Collaborators} (size_name : string) :
  pwgMediaForPWG size_name = None ->
  lprint_create_media_size size_name = NullDeref
  /\ (forall source type left_right bottom_top,
         lprintCreateMediaCol size_name source type left_right bottom_top = NullDeref)
  /\ (forall attrs driver,
         In size_name (driver_media driver) ->
         is_fixed size_name = true ->
         lprint_copy_media attrs driver = NullDeref).
Proof.
  intros Hnull.
  assert (H1 : lprint_create_media_size size_name = NullDeref)
    by (unfold lprint_create_media_size; now rewrite Hnull).
  assert (H2 : forall source type left_right bottom_top,
             lprintCreateMediaCol size_name source type left_right bottom_top = NullDeref)
    by (intros; unfold lprintCreateMediaCol; now rewrite H1).
  repeat split; [exact H1 | exact H2|].
  intros attrs driver Hin Hfix. rewrite lprint_copy_media_blocks.
  rewrite (sizes_block_fault "media-col-database"
             (fun m => lprintCreateMediaCol m None None
                         (driver_left_right driver) (driver_bottom_top driver))
             media_col_roll _ (driver_media driver) None None size_name
             Hin Hfix (H2 _ _ _ _)).
  reflexivity.
Qed.

Lemma unknown_media_null_deref_witness :
  lprint_create_media_size "no_such_size" = NullDeref
  /\ lprint_copy_media [] (mk_driver None [] 0 0 ["no_such_size"] [] []) = NullDeref.
Proof.
  destruct (@unknown_media_null_deref Sample.collaborators "no_such_size" eq_refl)
    as (H1 & _ & H3).
  split; [exact H1|].
  apply H3; [left; reflexivity | reflexivity].
Defined.

(** The four names of the resolution block, with their value tags. *)
Definition resolution_names : list (string * ipp_tag_t) :=
  [ ("printer-resolution-default", IPP_TAG_RESOLUTION);
    ("printer-resolution-supported", IPP_TAG_RESOLUTION);
    ("pwg-raster-document-resolution-supported", IPP_TAG_RESOLUTION);
    ("urf-supported", IPP_TAG_KEYWORD) ].

(** An attribute one of the four lookups of the resolution block finds. *)
Definition is_resolution_attr (a : ipp_attribute_t) : bool :=
  existsb (fun p => matches (fst p) (snd p) a) resolution_names.

Lemma count_delete_same (n : string) (t : ipp_tag_t) (X : ipp_t) :
  count_matching n t (delete_if_found X n t) = Nat.pred (count_matching n t X).
Proof.
  unfold count_matching. rewrite IppFacts.delete_if_found_remove_first.
  apply IppFacts.filter_remove_first_same.
Qed.

Lemma count_delete_other (n n' : string) (t t' : ipp_tag_t) (X : ipp_t) :
  CStr.strcaseeq n' n = false ->
  count_matching n t (delete_if_found X n' t') = count_matching n t X.
Proof.
  intros Hne. unfold count_matching. rewrite IppFacts.delete_if_found_remove_first.
  now rewrite (IppFacts.filter_remove_first_other _ _ _
                 (ReplaceFacts.matches_disjoint n n' t t' Hne)).
Qed.

Lemma delete_absent (n : string) (t : ipp_tag_t) (X : ipp_t) :
  count_matching n t X = 0%nat -> delete_if_found X n t = X.
Proof.
  intros H. rewrite IppFacts.delete_if_found_remove_first.
  apply IppFacts.remove_first_none. now apply IppFacts.none_of_length.
Qed.

Lemma in_delete (n : string) (t : ipp_tag_t) (X : ipp_t) (a : ipp_attribute_t) :
  In a (delete_if_found X n t) -> In a X.
Proof.
  rewrite IppFacts.delete_if_found_remove_first.
  apply ReplaceFacts.in_remove_first.
Qed.

Lemma filter_delete_resolution (n : string) (t : ipp_tag_t) (X : ipp_t) :
  In (n, t) resolution_names ->
  filter (fun a => negb (is_resolution_attr a)) (delete_if_found X n t) =
  filter (fun a => negb (is_resolution_attr a)) X.
Proof.
  intros Hin. rewrite IppFacts.delete_if_found_remove_first.
  apply IppFacts.filter_remove_first_other. intros a Ha.
  apply negb_false_iff. unfold is_resolution_attr. apply existsb_exists.
  exists (n, t). split; [exact Hin | exact Ha].
Qed.

(** C7 (empty resolution list), as the code has it.  For a driver without
    resolutions the resolution block adds no attribute; it deletes the first
    attribute found under each of its four names and leaves every other
    attribute as it was, so a capability set holding none of the four is
    unchanged. *)
Theorem empty_resolution_purges (attrs : ipp_t) (driver : lprint_driver_t) :
  driver_resolution driver = [] ->
  copy_resolution attrs driver = without_resolution attrs
  /\ (forall a, In a (copy_resolution attrs driver) -> In a attrs)
  /\ (forall n t,
         In (n, t) resolution_names ->
         count_matching n t (copy_resolution attrs driver) =
         Nat.pred (count_matching n t attrs))
  /\ filter (fun a => negb (is_resolution_attr a)) (copy_resolution attrs driver) =
     filter (fun a => negb (is_resolution_attr a)) attrs
  /\ ((forall n t, In (n, t) resolution_names -> count_matching n t attrs = 0%nat) ->
      copy_resolution attrs driver = attrs).
Proof.
  intros Hres.
  assert (Heq : copy_resolution attrs driver = without_resolution attrs).
  { rewrite copy_resolution_purge.
    unfold default_attr, resolutions_attr, urf_attr, num_resolution.
    rewrite Hres. cbn. now rewrite app_nil_r. }
  rewrite Heq. unfold without_resolution.
  split; [reflexivity|]. split; [|split; [|split]].
  - intros a Ha. now do 4 apply in_delete in Ha.
  - intros n t Hin. simpl in Hin.
    destruct Hin as [H|[H|[H|[H|[]]]]]; injection H as <- <-;
      repeat first [ rewrite count_delete_same
                   | rewrite count_delete_other by reflexivity ];
      reflexivity.
  - rewrite !filter_delete_resolution; [reflexivity | | | | ]; simpl; tauto.
  - intros Hnone.
    rewrite (delete_absent "printer-resolution-default") by (apply Hnone; simpl; tauto).
    rewrite (delete_absent "printer-resolution-supported") by (apply Hnone; simpl; tauto).
    rewrite (delete_absent "pwg-raster-document-resolution-supported")
      by (apply Hnone; simpl; tauto).
    apply delete_absent. apply Hnone. simpl; tauto.
Qed.

Lemma empty_resolution_purges_witness :
  copy_resolution
    [Attr "printer-name" IPP_TAG_PRINTER IPP_TAG_NAME [VString "labels"]]
    (mk_driver (Some "dymo_lw-450") [] 100 525 [] [] []) =
  [Attr "printer-name" IPP_TAG_PRINTER IPP_TAG_NAME [VString "labels"]].
Proof.
  apply (empty_resolution_purges
           [Attr "printer-name" IPP_TAG_PRINTER IPP_TAG_NAME [VString "labels"]]
           (mk_driver (Some "dymo_lw-450") [] 100 525 [] [] []) eq_refl).
  intros n t Hin. simpl in Hin.
  destruct Hin as [H|[H|[H|[H|[]]]]]; injection H as <- <-; reflexivity.
Defined.

(** C7 as the specification words it fails: a urf-supported attribute
    already in the capability set is deleted although the driver has no
    resolution. *)
Lemma empty_resolution_deletes :
  driver_resolution Sample.plain_driver = []
  /\ copy_resolution [Sample.urf] Sample.plain_driver = []
  /\ copy_resolution [Sample.urf] Sample.plain_driver <> [Sample.urf].
Proof.
  split; [reflexivity|]. split; [vm_compute; reflexivity|].
  vm_compute. discriminate.
Qed.

(** A resolution the driver tables may hold: both values non-negative C
    [int]s. *)
Definition valid_resolution (r : Z * Z) : Prop :=
  0 <= fst r <= 2147483647 /\ 0 <= snd r <= 2147483647.

Lemma valid_nth (res : list (Z * Z)) (i : nat) :
  Forall valid_resolution res -> valid_resolution (nth i res (0, 0)).
Proof.
  intros H. destruct (Nat.lt_ge_cases i (List.length res)) as [Hlt|Hge].
  - rewrite Forall_forall in H. apply H. now apply nth_In.
  - rewrite nth_overflow by exact Hge. unfold valid_resolution. simpl. lia.
Qed.

Lemma rs_not_truncated (a b : Z) :
  -2147483648 <= a <= 2147483647 ->
  -2147483648 <= b <= 2147483647 ->
  CStr.snprintf 32 (String.append "RS" (CStr.fmt_d a)) =
  String.append "RS" (CStr.fmt_d a)
  /\ CStr.snprintf 32
       (String.append "RS"
          (String.append (CStr.fmt_d a) (String.append "-" (CStr.fmt_d b)))) =
     String.append "RS"
       (String.append (CStr.fmt_d a) (String.append "-" (CStr.fmt_d b))).
Proof.
  intros Ha Hb. pose proof (CStrFacts.fmt_d_length a Ha) as La.
  pose proof (CStrFacts.fmt_d_length b Hb) as Lb.
  unfold CStr.snprintf. cbn [Nat.pred].
  split; apply CStrFacts.substring_short;
    rewrite ?CStrFacts.length_append; cbn [String.length]; lia.
Qed.

(** C3 (resolution capability).  For a driver with [n >= 1] resolutions,
    each a pair of non-negative C [int]s, the resolution block appends, to
    the store with the first attribute of each of its four names deleted,
    the default resolution equal to the last entry, the two full lists, and
    urf-supported equal to the three values "V1.4", "W8" and the token:
    "RS<x>" for the single entry [(x, y)], and "RS<x2>-<x1>" when the last
    two entries are [(x2, y2)] and [(x1, y1)]. *)
Theorem resolution_default_and_token (attrs : ipp_t) (driver : lprint_driver_t) :
  driver_resolution driver <> [] ->
  Forall valid_resolution (driver_resolution driver) ->
  exists token,
    copy_resolution attrs driver =
    without_resolution attrs ++
    [ Attr "printer-resolution-default" IPP_TAG_PRINTER IPP_TAG_RESOLUTION
        [VResolution (fst (last (driver_resolution driver) (0, 0)))
                     (snd (last (driver_resolution driver) (0, 0)))
                     IPP_RES_PER_INCH];
      Attr "printer-resolution-supported" IPP_TAG_PRINTER IPP_TAG_RESOLUTION
        (map (fun r => VResolution (fst r) (snd r) IPP_RES_PER_INCH)
             (driver_resolution driver));
      Attr "pwg-raster-document-resolution-supported" IPP_TAG_PRINTER
        IPP_TAG_RESOLUTION
        (map (fun r => VResolution (fst r) (snd r) IPP_RES_PER_INCH)
             (driver_resolution driver));
      Attr "urf-supported" IPP_TAG_PRINTER IPP_TAG_KEYWORD
        [VString "V1.4"; VString "W8"; VString token] ]
    /\ (forall x y,
           driver_resolution driver = [(x, y)] ->
           token = String.append "RS" (CStr.fmt_d x))
    /\ (forall pre x2 y2 x1 y1,
           driver_resolution driver = pre ++ [(x2, y2); (x1, y1)] ->
           token = String.append "RS"
                     (String.append (CStr.fmt_d x2)
                        (String.append "-" (CStr.fmt_d x1)))).
Proof.
  intros Hne Hvalid. exists (urf_rs driver).
  destruct (exists_last Hne) as (pre & r & Hres).
  assert (Hn : num_resolution driver = Z.of_nat (List.length pre) + 1)
    by (unfold num_resolution; rewrite Hres, length_app; simpl; lia).
  assert (Hx : forall i, -2147483648 <= x_resolution driver i <= 2147483647).
  { intros i. unfold x_resolution.
    destruct (valid_nth (driver_resolution driver) (Z.to_nat i) Hvalid) as [H _]. lia. }
  assert (Hlast : nth (Z.to_nat (num_resolution driver - 1))
                      (driver_resolution driver) (0, 0) = r).
  { rewrite Hn, Hres. replace (Z.to_nat _) with (List.length pre) by lia.
    apply nth_middle. }
  split; [|split].
  - rewrite copy_resolution_purge. f_equal.
    unfold default_attr, resolutions_attr, urf_attr.
    rewrite num_resolution_pos.
    unfold x_resolution, y_resolution. rewrite Hlast.
    assert (Hr : valid_resolution r).
    { rewrite Forall_forall in Hvalid. apply Hvalid. rewrite Hres.
      apply in_or_app. right. now left. }
    destruct Hr as [[Hr1 _] [Hr2 _]].
    replace ((fst r <? 0) || (snd r <? 0)) with false
      by (symmetry; apply orb_false_iff; split; apply Z.ltb_ge; assumption).
    assert (Elast : last (driver_resolution driver) (0, 0) = r)
      by (rewrite Hres; apply last_last).
    rewrite Elast.
    destruct (driver_resolution driver); [congruence | reflexivity].
  - intros x y H1. unfold urf_rs, num_resolution, x_resolution.
    rewrite H1. cbn [List.length Z.of_nat Z.eqb Pos.of_succ_nat Pos.eqb nth Z.to_nat fst].
    apply (rs_not_truncated x x);
      pose proof (Hx 0) as H0; unfold x_resolution in H0; rewrite H1 in H0;
      exact H0.
  - intros pre' x2 y2 x1 y1 H2.
    pose proof (Hx (num_resolution driver - 2)) as Hx2.
    pose proof (Hx (num_resolution driver - 1)) as Hx1.
    unfold urf_rs.
    assert (Hn2 : num_resolution driver = Z.of_nat (List.length pre') + 2)
      by (unfold num_resolution; rewrite H2, length_app; simpl; lia).
    replace (num_resolution driver =? 1) with false
      by (symmetry; apply Z.eqb_neq; lia).
    assert (E2 : x_resolution driver (num_resolution driver - 2) = x2).
    { unfold x_resolution. rewrite Hn2, H2.
      replace (Z.to_nat _) with (List.length pre') by lia.
      now rewrite nth_middle. }
    assert (E1 : x_resolution driver (num_resolution driver - 1) = x1).
    { unfold x_resolution. rewrite Hn2, H2.
      replace (Z.to_nat _) with (List.length (pre' ++ [(x2, y2)]))
        by (rewrite length_app; simpl; lia).
      replace (pre' ++ [(x2, y2); (x1, y1)])
        with ((pre' ++ [(x2, y2)]) ++ [(x1, y1)])
        by (rewrite <- app_assoc; reflexivity).
      now rewrite nth_middle. }
    rewrite E2, E1 in *. apply (rs_not_truncated x2 x1); assumption.
Qed.

Lemma resolution_default_and_token_witness :
  copy_resolution [] Sample.roll_driver =
  [ Attr "printer-resolution-default" IPP_TAG_PRINTER IPP_TAG_RESOLUTION
      [VResolution 600 600 IPP_RES_PER_INCH];
    Attr "printer-resolution-supported" IPP_TAG_PRINTER IPP_TAG_RESOLUTION
      [VResolution 203 203 IPP_RES_PER_INCH; VResolution 300 300 IPP_RES_PER_INCH;
       VResolution 600 600 IPP_RES_PER_INCH];
    Attr "pwg-raster-document-resolution-supported" IPP_TAG_PRINTER
      IPP_TAG_RESOLUTION
      [VResolution 203 203 IPP_RES_PER_INCH; VResolution 300 300 IPP_RES_PER_INCH;
       VResolution 600 600 IPP_RES_PER_INCH];
    Attr "urf-supported" IPP_TAG_PRINTER IPP_TAG_KEYWORD
      [VString "V1.4"; VString "W8"; VString "RS300-600"] ].
Proof.
  assert (Hne : driver_resolution Sample.roll_driver <> []) by discriminate.
  assert (Hv : Forall valid_resolution (driver_resolution Sample.roll_driver)).
  { repeat constructor; simpl; lia. }
  destruct (resolution_default_and_token [] Sample.roll_driver Hne Hv)
    as (token & Heq & _ & Htok).
  rewrite Heq, (Htok [(203, 203)] 300 300 600 600 eq_refl). reflexivity.
Defined.

(* ================================================================== *)
(** ** What a client reads in the two size attributes *)
(* ================================================================== *)

Section Observed.

Context {collab : Collaborators}.
Import IppFacts ReplaceFacts.






(** *** The shape of the values *)

Lemma pick_last_exists (p : string -> bool) (media : list string) :
  existsb p media = true <-> exists m, pick_last p media None = Some m.
Proof.
  split.
  - intros H. destruct (pick_last p media None) as [m|] eqn:E; [eauto|].
    apply pick_last_none in E. destruct E as [_ E].
    apply existsb_exists in H. destruct H as (x & Hx & Hp).
    rewrite (E x Hx) in Hp. discriminate.
  - intros [m H]. apply pick_last_some in H.
    destruct H as [H|[Hin Hp]]; [discriminate|].
    apply existsb_exists. eauto.
Qed.

Lemma sentinels_both (media : list string) :
  existsb is_roll_min media && existsb is_roll_max media = true <->
  exists mn mx, sentinels media = Some (mn, mx).
Proof.
  unfold sentinels. rewrite andb_true_iff, !pick_last_exists. split.
  - intros [[mn Hn] [mx Hx]]. rewrite Hn, Hx. eauto.
  - intros (mn & mx & H).
    destruct (pick_last is_roll_min media None) as [mn'|]; [|discriminate].
    destruct (pick_last is_roll_max media None) as [mx'|]; [|discriminate].
    eauto.
Qed.

Lemma sentinels_some (media : list string) (mn mx : string) :
  sentinels media = Some (mn, mx) ->
  In mn media /\ is_roll_min mn = true /\ In mx media /\ is_roll_max mx = true
  /\ pick_last is_roll_min media None = Some mn
  /\ pick_last is_roll_max media None = Some mx.
Proof.
  unfold sentinels. intros H.
  destruct (pick_last is_roll_min media None) as [mn'|] eqn:En; [|discriminate].
  destruct (pick_last is_roll_max media None) as [mx'|] eqn:Ex; [|discriminate].
  injection H as -> ->.
  apply pick_last_some in En, Ex.
  destruct En as [?|[? ?]]; [discriminate|].
  destruct Ex as [?|[? ?]]; [discriminate|]. auto 10.
Qed.

Lemma sentinel_counted (media : list string) (mn mx : string) :
  sentinels media = Some (mn, mx) ->
  (1 <= List.length (filter is_roll_min media))%nat.
Proof.
  intros H. apply sentinels_some in H. destruct H as (Hin & Hp & _).
  assert (Hf : In mn (filter is_roll_min media)) by (apply filter_In; auto).
  destruct (filter is_roll_min media); [destruct Hf | simpl; lia].
Qed.


Lemma sizes_values_roll (cols : list ipp_t) (unset : nat) (r : ipp_t) :
  nth_error (sizes_values cols unset (Some r)) (List.length cols) = Some (slot r).
Proof.
  unfold sizes_values.
  rewrite nth_error_app2 by (rewrite length_map; lia).
  rewrite length_map, Nat.sub_diag. reflexivity.
Qed.

Lemma sizes_values_rest (cols : list ipp_t) (unset : nat)
      (rollcol : option ipp_t) (i : nat) (v : ipp_value_t) :
  (List.length cols <= i)%nat ->
  nth_error (sizes_values cols unset rollcol) i = Some v ->
  v = empty_slot \/ (exists r, rollcol = Some r /\ v = slot r /\ i = List.length cols).
Proof.
  intros Hi H. unfold sizes_values in H.
  rewrite nth_error_app2 in H by (rewrite length_map; lia).
  rewrite length_map in H.
  destruct rollcol as [r|].
  - destruct (i - List.length cols)%nat as [|j] eqn:Hj.
    + injection H as <-. right. exists r. repeat split. lia.
    + cbn [nth_error] in H. apply nth_error_In, repeat_spec in H. now left.
  - apply nth_error_In, repeat_spec in H. now left.
Qed.

Lemma filter_set_slots (cols : list ipp_t) :
  filter is_set (map slot cols) = map slot cols.
Proof. induction cols as [|c cols IH]; simpl; [reflexivity | now rewrite IH]. Qed.

Lemma filter_set_empty (n : nat) : filter is_set (repeat empty_slot n) = [].
Proof. induction n as [|n IH]; simpl; [reflexivity | exact IH]. Qed.

Lemma sizes_values_set (cols : list ipp_t) (unset : nat) (rollcol : option ipp_t) :
  List.length (filter is_set (sizes_values cols unset rollcol)) =
  (List.length cols + match rollcol with Some _ => 1 | None => 0 end)%nat.
Proof.
  unfold sizes_values. rewrite filter_app, length_app, filter_set_slots, length_map.
  destruct rollcol; cbn [filter is_set slot]; rewrite filter_set_empty; reflexivity.
Qed.

Lemma sizes_values_length (cols : list ipp_t) (unset : nat) (rollcol : option ipp_t) :
  (rollcol <> None -> 1 <= unset)%nat ->
  List.length (sizes_values cols unset rollcol) = (List.length cols + unset)%nat.
Proof.
  intros H. unfold sizes_values. rewrite length_app, length_map.
  destruct rollcol; cbn [List.length]; rewrite repeat_length; [|reflexivity].
  assert (1 <= unset)%nat by (apply H; discriminate). lia.
Qed.

Lemma roll_of_some (media : list string) :
  roll_of media <> None -> (1 <= List.length (filter is_roll_min media))%nat.
Proof.
  unfold roll_of. destruct (sentinels media) as [[mn mx]|] eqn:E.
  - intros _. exact (sentinel_counted media mn mx E).
  - intros H. now elim H.
Qed.


End Observed.




(** A store checked to be single valued by computation. *)
Definition single_valuedb (attrs : ipp_t) : bool :=
  forallb
    (fun p =>
       (count_named (fst p) attrs <=? 1)%nat
       && forallb
            (fun a => implb (CStr.strcaseeq (attr_name a) (fst p))
                            (tag_eqb (attr_value_tag a) (snd p)))
            attrs)
    synthesized.

Lemma single_valuedb_sound (attrs : ipp_t) :
  single_valuedb attrs = true -> single_valued attrs.
Proof.
  unfold single_valuedb. rewrite forallb_forall. intros H n t Hin.
  specialize (H (n, t) Hin). cbn [fst snd] in H.
  apply andb_true_iff in H. destruct H as [Hc Ht]. split.
  - now apply Nat.leb_le.
  - intros a Ha Hn. rewrite forallb_forall in Ht. specialize (Ht a Ha).
    rewrite Hn in Ht. cbn [implb] in Ht. unfold tag_eqb in Ht.
    destruct (tag_eq_dec (attr_value_tag a) t); [assumption | discriminate].
Qed.

(** C4 (replace, not append), as the code has it.  Let the capability set
    hold each synthesized name at most once, under the value tag of the
    synthesis (the empty set does, and so does the set left by a previous
    synthesis).  Then after any run of [lprintCreateDriver] each of the
    thirteen names (the four margins, media-col-database,
    media-size-supported, media-supported, media-source-supported,
    media-type-supported, the three resolution attributes and urf-supported)
    is again held at most once; so it is after a second run; and a run for a
    registry keyword whose media names all resolve does return a driver. *)
Theorem synthesis_single_valued {collab : Collaborators}
        (calloc_ok : bool) (printer : lprint_printer_t) :
  single_valued (printer_attrs printer) ->
  (forall driver m,
      run_lprintCreateDriver calloc_ok printer = Ok (driver, m) ->
      single_valued (printer_attrs (m_printer m))
      /\ forall calloc_ok' driver' m',
           run_lprintCreateDriver calloc_ok' (m_printer m) = Ok (driver', m') ->
           single_valued (printer_attrs (m_printer m')))
  /\ (forall keyword,
         requested_driver printer = Some keyword ->
         In keyword lprint_drivers ->
         (forall m, In m (driver_media (lprintInitDYMO (named_driver keyword))) ->
                    pwgMediaForPWG m <> None) ->
         exists m,
           run_lprintCreateDriver true printer =
           Ok (Some (lprintInitDYMO (named_driver keyword)), m)).
Proof.
  assert (Hstep : forall c p d m,
             single_valued (printer_attrs p) ->
             run_lprintCreateDriver c p = Ok (d, m) ->
             single_valued (printer_attrs (m_printer m))).
  { intros c p [d|] m Hsv Hrun.
    - destruct (run_success c p d m Hrun)
        as (name & i & attrs & _ & _ & _ & _ & Hs & ->).
      cbn [m_printer printer_attrs].
      exact (sv_synthesized (printer_attrs p) attrs d i Hsv Hs).
    - rewrite (run_none c p m Hrun). exact Hsv. }
  intros Hsv. split.
  - intros driver m Hrun. pose proof (Hstep _ _ _ _ Hsv Hrun) as Hsv1.
    split; [exact Hsv1|]. intros c' d' m' Hrun'. exact (Hstep _ _ _ _ Hsv1 Hrun').
  - intros keyword Hreq Hin Hres.
    destruct (In_nth_error _ _ Hin) as [i Hi].
    apply (run_progress printer keyword Hreq Hin
             (copy_resolution
                (set_make_and_model
                   (media_store (printer_attrs printer)
                      (lprintInitDYMO (named_driver keyword))) i)
                (lprintInitDYMO (named_driver keyword))) i Hi).
    unfold synthesized_attrs.
    now rewrite (copy_media_resolved _ _ Hres).
Qed.

Lemma synthesis_single_valued_witness :
  exists driver m,
    run_lprintCreateDriver true (Sample.printer_with "dymo_lw-450") = Ok (driver, m)
    /\ single_valued (printer_attrs (m_printer m)).
Proof.
  pose proof (proj1 (@synthesis_single_valued Sample.collaborators true
                       (Sample.printer_with "dymo_lw-450")
                       (single_valuedb_sound
                          (printer_attrs (Sample.printer_with "dymo_lw-450"))
                          eq_refl))) as H.
  eexists. eexists. split; [vm_compute; reflexivity|].
  refine (proj1 (H _ _ _)). vm_compute. reflexivity.
Defined.

(** C4 as the specification words it fails: a capability set that holds
    urf-supported twice still holds it twice after the synthesis, which
    deletes the first of the two only. *)
Lemma duplicates_survive_synthesis :
  exists driver m,
    count_named "urf-supported" (printer_attrs Sample.duplicate_printer) = 2%nat
    /\ run_lprintCreateDriver true Sample.duplicate_printer = Ok (Some driver, m)
    /\ count_named "urf-supported" (printer_attrs (m_printer m)) = 2%nat
    /\ ~ single_valued (printer_attrs (m_printer m)).
Proof.
  eexists. eexists. split; [vm_compute; reflexivity|].
  split; [vm_compute; reflexivity|].
  split; [vm_compute; reflexivity|].
  intros H.
  destruct (H "urf-supported" IPP_TAG_KEYWORD) as [Hc _];
    [unfold synthesized; simpl; tauto|].
  vm_compute in Hc. lia.
Qed.

(* ================================================================== *)
(** ** Chains of replacements *)
(* ================================================================== *)

(** A replacement: the name and value tag looked up and deleted, and the
    attributes then added (none or one). *)
Record step : Type := mk_step {
  step_name : string;
  step_tag : ipp_tag_t;
  step_new : ipp_t
}.

Definition apply_step (X : ipp_t) (s : step) : ipp_t :=
  delete_if_found X (step_name s) (step_tag s) ++ step_new s.

(** The replacements of a list, from left to right. *)
Definition chain (X : ipp_t) (steps : list step) : ipp_t :=
  fold_left apply_step steps X.

(** The deletions of a chain alone, and its additions alone. *)
Definition purge (X : ipp_t) (steps : list step) : ipp_t :=
  fold_left (fun Y s => delete_if_found Y (step_name s) (step_tag s)) steps X.

Definition additions (steps : list step) : ipp_t :=
  List.concat (map step_new steps).

(** An attribute one of the lookups of the chain finds. *)
Definition touched (steps : list step) (a : ipp_attribute_t) : bool :=
  existsb (fun s => matches (step_name s) (step_tag s) a) steps.

(** The names of a list differ pairwise without regard to case. *)
Fixpoint distinct_names (names : list string) : bool :=
  match names with
  | [] => true
  | n :: rest =>
      forallb (fun n' => negb (CStr.strcaseeq n n')) rest && distinct_names rest
  end.

(** Each step adds at most one attribute, under its own name and tag. *)
Definition well_keyed (steps : list step) : Prop :=
  forall s, In s steps ->
            ReplaceFacts.all_keyed (step_name s) (step_tag s) (step_new s)
            /\ (List.length (step_new s) <= 1)%nat.

Module ChainFacts.
Import IppFacts ReplaceFacts.

Lemma strcaseeq_sym (a b : string) : CStr.strcaseeq a b = CStr.strcaseeq b a.
Proof. unfold CStr.strcaseeq. apply String.eqb_sym. Qed.

Lemma strcaseeq_refl (a : string) : CStr.strcaseeq a a = true.
Proof. unfold CStr.strcaseeq. apply String.eqb_refl. Qed.

Lemma tag_matches_refl (t : ipp_tag_t) : tag_matches t t = true.
Proof.
  unfold tag_matches, tag_eqb. destruct (tag_eq_dec t t); [reflexivity | congruence].
Qed.

Lemma keyed_matches (n : string) (t : ipp_tag_t) (new : ipp_t) (a : ipp_attribute_t) :
  all_keyed n t new -> In a new -> matches n t a = true.
Proof.
  intros Hk Ha. destruct (Hk a Ha) as [Hn Ht]. unfold matches.
  now rewrite Hn, Ht, strcaseeq_refl, tag_matches_refl.
Qed.

Lemma distinct_head (n : string) (rest : list string) (n' : string) :
  distinct_names (n :: rest) = true -> In n' rest ->
  CStr.strcaseeq n n' = false /\ CStr.strcaseeq n' n = false.
Proof.
  cbn [distinct_names]. intros H Hin. apply andb_true_iff in H. destruct H as [H _].
  rewrite forallb_forall in H. specialize (H n' Hin).
  apply negb_true_iff in H. split; [exact H | now rewrite strcaseeq_sym].
Qed.

Lemma distinct_tail (n : string) (rest : list string) :
  distinct_names (n :: rest) = true -> distinct_names rest = true.
Proof. cbn [distinct_names]. intros H. now apply andb_true_iff in H. Qed.

Lemma well_keyed_tail (s : step) (steps : list step) :
  well_keyed (s :: steps) -> well_keyed steps.
Proof. intros H x Hx. apply H. now right. Qed.

(** The additions of a step are not found by the lookup of another. *)
Lemma other_step_none (s s' : step) :
  all_keyed (step_name s) (step_tag s) (step_new s) ->
  CStr.strcaseeq (step_name s) (step_name s') = false ->
  none_of (matches (step_name s') (step_tag s')) (step_new s).
Proof. intros Hk Hne. exact (keyed_none _ _ _ _ _ Hne Hk). Qed.

Lemma delete_app_front (n : string) (t : ipp_tag_t) (P L : ipp_t) :
  none_of (matches n t) P ->
  delete_if_found (P ++ L) n t = P ++ delete_if_found L n t.
Proof.
  intros H. rewrite !delete_if_found_remove_first.
  induction P as [|a P IH]; [reflexivity|]. simpl.
  rewrite (H a) by now left. rewrite IH; [reflexivity|].
  intros b Hb. apply H. now right.
Qed.

Lemma delete_none (n : string) (t : ipp_tag_t) (X : ipp_t) :
  none_of (matches n t) X -> delete_if_found X n t = X.
Proof.
  intros H. rewrite delete_if_found_remove_first. now apply remove_first_none.
Qed.

Lemma delete_app_back (n : string) (t : ipp_tag_t) (X new : ipp_t) :
  none_of (matches n t) new ->
  delete_if_found (X ++ new) n t = delete_if_found X n t ++ new.
Proof.
  intros H. rewrite !delete_if_found_remove_first. now apply remove_first_app.
Qed.

Lemma purge_app_back (steps : list step) :
  forall (X new : ipp_t),
    (forall s, In s steps -> none_of (matches (step_name s) (step_tag s)) new) ->
    purge (X ++ new) steps = purge X steps ++ new.
Proof.
  unfold purge. induction steps as [|s steps IH]; intros X new H; [reflexivity|].
  cbn [fold_left]. rewrite delete_app_back by (apply H; now left).
  apply IH. intros x Hx. apply H. now right.
Qed.

(** A chain deletes first and appends all its additions behind. *)
Lemma chain_purge (steps : list step) :
  well_keyed steps -> distinct_names (map step_name steps) = true ->
  forall X, chain X steps = purge X steps ++ additions steps.
Proof.
  unfold chain, additions.
  induction steps as [|s steps IH]; intros Hk Hd X.
  - cbn. now rewrite app_nil_r.
  - cbn [fold_left map List.concat]. rewrite (IH (well_keyed_tail _ _ Hk)
                                            (distinct_tail _ _ Hd)).
    change (fold_left _ steps ?Y) with (purge Y steps).
    change (purge X (s :: steps))
      with (purge (delete_if_found X (step_name s) (step_tag s)) steps).
    unfold apply_step. rewrite purge_app_back, <- app_assoc; [reflexivity|].
    intros s' Hs'. apply other_step_none; [apply Hk; now left|].
    exact (proj1 (distinct_head (step_name s) (map step_name steps) (step_name s')
                    Hd (in_map step_name steps s' Hs'))).
Qed.

Lemma filter_remove_first_le {A : Type} (p q : A -> bool) (l : list A) :
  (List.length (filter q (remove_first p l)) <= List.length (filter q l))%nat.
Proof.
  induction l as [|a l IH]; simpl; [lia|].
  destruct (p a); simpl; destruct (q a); simpl; lia.
Qed.

Lemma count_delete_le (n n' : string) (t t' : ipp_tag_t) (X : ipp_t) :
  (count_matching n t (delete_if_found X n' t') <= count_matching n t X)%nat.
Proof.
  unfold count_matching. rewrite delete_if_found_remove_first.
  apply filter_remove_first_le.
Qed.

Lemma count_purge_le (n : string) (t : ipp_tag_t) (steps : list step) :
  forall X, (count_matching n t (purge X steps) <= count_matching n t X)%nat.
Proof.
  unfold purge. induction steps as [|s steps IH]; intros X; cbn [fold_left]; [lia|].
  etransitivity; [apply IH | apply count_delete_le].
Qed.

(** The deletions leave no attribute of a name held at most once. *)
Lemma purge_clears (steps : list step) (s : step) :
  In s steps ->
  forall X,
    (count_matching (step_name s) (step_tag s) X <= 1)%nat ->
    none_of (matches (step_name s) (step_tag s)) (purge X steps).
Proof.
  intros Hin X Hc. apply none_of_length. fold (count_matching (step_name s) (step_tag s) (purge X steps)).
  revert X Hc. induction steps as [|s' steps IH]; intros X Hc; [destruct Hin|].
  change (purge X (s' :: steps))
    with (purge (delete_if_found X (step_name s') (step_tag s')) steps).
  destruct Hin as [->|Hin].
  - pose proof (count_purge_le (step_name s) (step_tag s) steps
                  (delete_if_found X (step_name s) (step_tag s))) as Hle.
    rewrite count_delete_same in Hle. lia.
  - apply IH; [exact Hin|].
    pose proof (count_delete_le (step_name s) (step_name s') (step_tag s)
                  (step_tag s') X). lia.
Qed.

(** Run on a store that already ends with its additions, and has no other
    attribute of its names, a chain gives the same store again. *)
Lemma chain_again (steps : list step) :
  well_keyed steps -> distinct_names (map step_name steps) = true ->
  forall P D,
    (forall s, In s steps ->
               none_of (matches (step_name s) (step_tag s)) (P ++ D)) ->
    chain (P ++ additions steps ++ D) steps = P ++ D ++ additions steps.
Proof.
  unfold chain, additions.
  induction steps as [|s steps IH]; intros Hk Hd P D Hnone.
  - cbn. now rewrite app_nil_r.
  - cbn [fold_left map List.concat].
    assert (HP : none_of (matches (step_name s) (step_tag s)) P).
    { intros a Ha. apply (Hnone s); [now left | apply in_or_app; now left]. }
    assert (HD : none_of (matches (step_name s) (step_tag s)) D).
    { intros a Ha. apply (Hnone s); [now left | apply in_or_app; now right]. }
    assert (Hrest : none_of (matches (step_name s) (step_tag s))
                            (List.concat (map step_new steps))).
    { intros a Ha. apply in_concat in Ha. destruct Ha as (l & Hl & Ha).
      apply in_map_iff in Hl. destruct Hl as (s' & <- & Hs').
      refine (other_step_none s' s _ _ a Ha); [apply Hk; now right|].
      exact (proj2 (distinct_head (step_name s) (map step_name steps) (step_name s')
                      Hd (in_map step_name steps s' Hs'))). }
    assert (Hstep : apply_step (P ++ (step_new s ++ List.concat (map step_new steps)) ++ D) s
                    = P ++ List.concat (map step_new steps) ++ (D ++ step_new s)).
    { unfold apply_step. rewrite delete_app_front by exact HP.
      rewrite <- !app_assoc.
      destruct (Hk s (or_introl eq_refl)) as [Hkey Hlen].
      destruct (step_new s) as [|a [|b l]] eqn:Hnew; [| |simpl in Hlen; lia].
      - cbn [app]. rewrite delete_none; [now rewrite <- !app_assoc|].
        apply none_of_app. split; assumption.
      - cbn [app]. rewrite delete_if_found_remove_first. cbn [remove_first].
        rewrite (keyed_matches _ _ _ a Hkey) by now left.
        now rewrite <- !app_assoc. }
    rewrite Hstep.
    rewrite (IH (well_keyed_tail _ _ Hk) (distinct_tail _ _ Hd) P (D ++ step_new s)).
    + now rewrite <- !app_assoc.
    + intros s' Hs'. rewrite app_assoc. apply none_of_app. split.
      * apply Hnone. now right.
      * apply other_step_none; [apply Hk; now left|].
        exact (proj1 (distinct_head (step_name s) (map step_name steps) (step_name s')
                        Hd (in_map step_name steps s' Hs'))).
Qed.

(** Running a chain twice is running it once, on a store that holds each
    of its names at most once. *)
Lemma chain_idempotent (steps : list step) (X : ipp_t) :
  well_keyed steps -> distinct_names (map step_name steps) = true ->
  (forall s, In s steps ->
             (count_matching (step_name s) (step_tag s) X <= 1)%nat) ->
  chain (chain X steps) steps = chain X steps.
Proof.
  intros Hk Hd Hc. rewrite (chain_purge steps Hk Hd X).
  pose proof (chain_again steps Hk Hd (purge X steps) []) as H.
  rewrite !app_nil_r in H. cbn [app] in H. apply H.
  intros s Hs. apply purge_clears; auto.
Qed.

(** The attributes no lookup of the chain finds are kept, in order. *)
Lemma chain_frame (steps : list step) :
  well_keyed steps -> distinct_names (map step_name steps) = true ->
  forall X,
    filter (fun a => negb (touched steps a)) (chain X steps) =
    filter (fun a => negb (touched steps a)) X.
Proof.
  intros Hk Hd X. rewrite (chain_purge steps Hk Hd X), filter_app.
  assert (Hadd : filter (fun a => negb (touched steps a)) (additions steps) = []).
  { apply filter_none. intros a Ha. unfold additions in Ha.
    apply in_concat in Ha. destruct Ha as (l & Hl & Ha).
    apply in_map_iff in Hl. destruct Hl as (s & <- & Hs).
    apply negb_false_iff. unfold touched. apply existsb_exists.
    exists s. split; [exact Hs|].
    exact (keyed_matches _ _ _ a (proj1 (Hk s Hs)) Ha). }
  rewrite Hadd, app_nil_r.
  assert (Hp : forall sub Y,
             (forall s, In s sub -> In s steps) ->
             filter (fun a => negb (touched steps a)) (purge Y sub) =
             filter (fun a => negb (touched steps a)) Y).
  { unfold purge. induction sub as [|s sub IH]; intros Y Hsub; [reflexivity|].
    cbn [fold_left]. rewrite IH by (intros x Hx; apply Hsub; now right).
    rewrite delete_if_found_remove_first.
    apply filter_remove_first_other. intros a Ha.
    apply negb_false_iff. unfold touched. apply existsb_exists.
    exists s. split; [apply Hsub; now left | exact Ha]. }
  apply Hp. auto.
Qed.

(** A lookup of another name sees what it saw before the chain. *)
Lemma chain_find_other (n : string) (t : ipp_tag_t) (steps : list step) :
  well_keyed steps ->
  (forall s, In s steps -> CStr.strcaseeq (step_name s) n = false) ->
  forall X, find (matches n t) (chain X steps) = find (matches n t) X.
Proof.
  unfold chain. induction steps as [|s steps IH]; intros Hk Hn X; [reflexivity|].
  cbn [fold_left].
  rewrite (IH (well_keyed_tail _ _ Hk)) by (intros x Hx; apply Hn; now right).
  unfold apply_step. apply find_replace_other.
  - apply Hn. now left.
  - apply Hk. now left.
Qed.

(** The lookup of a step finds what the step added, for a name held at
    most once before. *)
Lemma chain_find_step (steps : list step) (s : step) :
  well_keyed steps -> distinct_names (map step_name steps) = true ->
  In s steps ->
  forall X,
    (count_matching (step_name s) (step_tag s) X <= 1)%nat ->
    find (matches (step_name s) (step_tag s)) (chain X steps) =
    find (matches (step_name s) (step_tag s)) (step_new s).
Proof.
  intros Hk Hd Hin X Hc. rewrite (chain_purge steps Hk Hd X), find_app.
  rewrite (find_none_of _ _ (purge_clears steps s Hin X Hc)).
  clear X Hc. unfold additions.
  induction steps as [|s' steps IH]; [destruct Hin|].
  cbn [map List.concat]. rewrite find_app.
  destruct Hin as [->|Hin].
  - destruct (find (matches (step_name s) (step_tag s)) (step_new s)) eqn:E;
      [reflexivity|].
    apply find_none_of.
    intros a Ha. apply in_concat in Ha. destruct Ha as (l & Hl & Ha).
    apply in_map_iff in Hl. destruct Hl as (s' & <- & Hs').
    refine (other_step_none s' s _ _ a Ha); [apply Hk; now right|].
    exact (proj2 (distinct_head (step_name s) (map step_name steps) (step_name s')
                    Hd (in_map step_name steps s' Hs'))).
  - rewrite find_none_of.
    + apply IH; [exact (well_keyed_tail _ _ Hk) | exact (distinct_tail _ _ Hd) | exact Hin].
    + apply other_step_none; [apply Hk; now left|].
      exact (proj1 (distinct_head (step_name s') (map step_name steps) (step_name s)
                      Hd (in_map step_name steps s Hin))).
Qed.

End ChainFacts.

(* ================================================================== *)
(** ** [lprint_copy_media] and the resolution block as chains *)
(* ================================================================== *)

(** The nine lookups of [lprint_copy_media], in the order of the code. *)
Definition media_names : list (string * ipp_tag_t) :=
  [ ("media-bottom-margin-supported", IPP_TAG_INTEGER);
    ("media-col-database", IPP_TAG_BEGIN_COLLECTION);
    ("media-left-margin-supported", IPP_TAG_INTEGER);
    ("media-right-margin-supported", IPP_TAG_INTEGER);
    ("media-size-supported", IPP_TAG_BEGIN_COLLECTION);
    ("media-source-supported", IPP_TAG_KEYWORD);
    ("media-supported", IPP_TAG_KEYWORD);
    ("media-top-margin-supported", IPP_TAG_INTEGER);
    ("media-type-supported", IPP_TAG_KEYWORD) ].

(** An attribute one of the nine lookups finds. *)
Definition is_media_attr (a : ipp_attribute_t) : bool :=
  existsb (fun p => matches (fst p) (snd p) a) media_names.

(** The store with the first attribute of each media name deleted. *)
Definition without_media (attrs : ipp_t) : ipp_t :=
  fold_left (fun Y p => delete_if_found Y (fst p) (snd p)) media_names attrs.

(** How [lprintCreateDriver] or [lprint_copy_media] ends. *)
Inductive outcome : Type := Created | NotCreated | Crashed.

Section Chains.

Context {collab : Collaborators}.
Import IppFacts ReplaceFacts ChainFacts.

Definition resolvesb (m : string) : bool :=
  match pwgMediaForPWG m with
  | Some _ => true
  | None => false
  end.

(** The names [lprint_copy_media] looks up in the media database all
    resolve: every fixed size and, when both kinds of sentinel occur, the
    last of each kind. *)
Definition media_okb (media : list string) : bool :=
  forallb (fun m => implb (is_fixed m) (resolvesb m)) media
  && match sentinels media with
     | Some (mn, mx) => resolvesb mn && resolvesb mx
     | None => true
     end.

Definition integer_step (name : string) (v : Z) : step :=
  mk_step name IPP_TAG_INTEGER
    [Attr name IPP_TAG_PRINTER IPP_TAG_INTEGER [VInteger v]].

Definition strings_step (name : string) (l : list string) : step :=
  mk_step name IPP_TAG_KEYWORD (strings_attr name l).

Definition sizes_step (name : string) (vals : list ipp_value_t) : step :=
  mk_step name IPP_TAG_BEGIN_COLLECTION (sizes_attr name vals).

Definition media_steps (driver : lprint_driver_t) : list step :=
  [ integer_step "media-bottom-margin-supported" (driver_bottom_top driver);
    sizes_step "media-col-database" (col_database_values driver);
    integer_step "media-left-margin-supported" (driver_left_right driver);
    integer_step "media-right-margin-supported" (driver_left_right driver);
    sizes_step "media-size-supported" (size_supported_values driver);
    strings_step "media-source-supported" (driver_source driver);
    strings_step "media-supported" (driver_media driver);
    integer_step "media-top-margin-supported" (driver_bottom_top driver);
    strings_step "media-type-supported" (driver_type driver) ].

Definition resolution_steps (driver : lprint_driver_t) : list step :=
  [ mk_step "printer-resolution-default" IPP_TAG_RESOLUTION (default_attr driver);
    mk_step "printer-resolution-supported" IPP_TAG_RESOLUTION
      (resolutions_attr "printer-resolution-supported" driver);
    mk_step "pwg-raster-document-resolution-supported" IPP_TAG_RESOLUTION
      (resolutions_attr "pwg-raster-document-resolution-supported" driver);
    mk_step "urf-supported" IPP_TAG_KEYWORD (urf_attr driver) ].

Lemma media_store_chain (attrs : ipp_t) (driver : lprint_driver_t) :
  media_store attrs driver = chain attrs (media_steps driver).
Proof. reflexivity. Qed.

Lemma copy_resolution_steps (attrs : ipp_t) (driver : lprint_driver_t) :
  copy_resolution attrs driver = chain attrs (resolution_steps driver).
Proof. rewrite copy_resolution_chain. reflexivity. Qed.

Lemma media_steps_keyed (driver : lprint_driver_t) : well_keyed (media_steps driver).
Proof.
  intros s Hs. unfold media_steps in Hs. simpl in Hs.
  repeat (destruct Hs as [<-|Hs];
          [cbn [step_name step_tag step_new integer_step strings_step sizes_step];
           first [ split; [apply keyed_single | simpl; lia]
                 | apply keyed_strings | apply keyed_sizes ] |]).
  destruct Hs.
Qed.

Lemma resolution_steps_keyed (driver : lprint_driver_t) :
  well_keyed (resolution_steps driver).
Proof.
  intros s Hs. unfold resolution_steps in Hs. simpl in Hs.
  repeat (destruct Hs as [<-|Hs];
          [cbn [step_name step_tag step_new];
           first [ apply keyed_default | apply keyed_resolutions | apply keyed_urf ] |]).
  destruct Hs.
Qed.

Lemma media_steps_distinct (driver : lprint_driver_t) :
  distinct_names (map step_name (media_steps driver)) = true.
Proof. reflexivity. Qed.

Lemma resolution_steps_distinct (driver : lprint_driver_t) :
  distinct_names (map step_name (resolution_steps driver)) = true.
Proof. reflexivity. Qed.

Lemma media_steps_touched (driver : lprint_driver_t) (a : ipp_attribute_t) :
  touched (media_steps driver) a = is_media_attr a.
Proof. reflexivity. Qed.

Lemma resolution_steps_touched (driver : lprint_driver_t) (a : ipp_attribute_t) :
  touched (resolution_steps driver) a = is_resolution_attr a.
Proof. reflexivity. Qed.

Lemma media_steps_purge (driver : lprint_driver_t) (attrs : ipp_t) :
  purge attrs (media_steps driver) = without_media attrs.
Proof. reflexivity. Qed.

Lemma resolution_steps_purge (driver : lprint_driver_t) (attrs : ipp_t) :
  purge attrs (resolution_steps driver) = without_resolution attrs.
Proof. reflexivity. Qed.

(** *** When [lprint_copy_media] returns *)

Lemma forallb_false {A : Type} (f : A -> bool) (l : list A) :
  forallb f l = false -> exists x, In x l /\ f x = false.
Proof.
  induction l as [|a l IH]; simpl; [discriminate|].
  destruct (f a) eqn:Ha; simpl.
  - intros H. destruct (IH H) as (x & Hx & Hf). exists x. auto.
  - intros _. exists a. auto.
Qed.

Lemma resolvesb_resolves (m : string) : resolvesb m = true <-> resolves m.
Proof.
  unfold resolvesb, resolves. destruct (pwgMediaForPWG m); split;
    intros H; try reflexivity; try discriminate. now elim H.
Qed.

Lemma roll_size_fault (mn mx : string) :
  resolvesb mn && resolvesb mx = false -> roll_size mn mx = NullDeref.
Proof.
  unfold resolvesb, roll_size, pwg_call.
  destruct (pwgMediaForPWG mn), (pwgMediaForPWG mx); try discriminate;
    intros _; repeat match goal with
                     | |- context [pwg_decoded ?n] => destruct (pwg_decoded n)
                     end; reflexivity.
Qed.

Lemma sizes_block_roll_fault (name : string) (fixed : string -> result ipp_t)
      (roll : ipp_t -> ipp_t) (col : string -> ipp_t) (attrs : ipp_t)
      (media : list string) (mn mx : string) :
  (forall m, In m media -> is_fixed m = true -> fixed m = Ok (col m)) ->
  sentinels media = Some (mn, mx) ->
  roll_size mn mx = NullDeref ->
  sizes_block name fixed roll attrs media None None = NullDeref.
Proof.
  intros Hfix Hs Hroll.
  destruct (sentinels_some media mn mx Hs) as (_ & _ & _ & _ & Hn & Hx).
  unfold sizes_block, ippAddCollections.
  destruct (count_loop media 0 <? 1); cbn [ipp_add_attr].
  - rewrite (fill_loop_null fixed col media Hfix).
    cbn [rbind fill_minname fill_maxname]. now rewrite Hn, Hx, Hroll.
  - rewrite (fill_loop_values fixed col _ name IPP_TAG_PRINTER media Hfix).
    cbn [rbind fill_minname fill_maxname]. now rewrite Hn, Hx, Hroll.
Qed.

(** With the names looked up all resolved, the store left is the chain. *)
Lemma copy_media_ok (attrs : ipp_t) (driver : lprint_driver_t) :
  media_okb (driver_media driver) = true ->
  lprint_copy_media attrs driver = Ok (chain attrs (media_steps driver)).
Proof.
  intros Hok. rewrite <- media_store_chain. unfold media_okb in Hok.
  apply andb_true_iff in Hok. destruct Hok as [Hfixed Hsent].
  rewrite forallb_forall in Hfixed.
  assert (Hres : forall m, In m (driver_media driver) -> is_fixed m = true -> resolves m).
  { intros m Hm Hf. specialize (Hfixed m Hm). rewrite Hf in Hfixed.
    now apply resolvesb_resolves. }
  rewrite lprint_copy_media_blocks.
  set (media := driver_media driver) in *.
  set (size := match sentinels media with
               | Some s => unwrap (roll_size (fst s) (snd s))
               | None => []
               end).
  assert (Hroll : forall mn mx,
             pick_last is_roll_min media None = Some mn ->
             pick_last is_roll_max media None = Some mx ->
             roll_size mn mx = Ok size).
  { intros mn mx Hmn Hmx. unfold size.
    assert (Hs : sentinels media = Some (mn, mx))
      by (unfold sentinels; now rewrite Hmn, Hmx).
    rewrite Hs in *. cbn [fst snd].
    apply andb_true_iff in Hsent. destruct Hsent as [H1 H2].
    apply roll_size_resolves; now apply resolvesb_resolves. }
  rewrite (sizes_block_values "media-col-database" _ media_col_roll
             (fun m => unwrap (lprintCreateMediaCol m None None
                                 (driver_left_right driver)
                                 (driver_bottom_top driver)))
             _ media None None size);
    [ | intros m Hm Hf; apply media_col_resolves; auto | reflexivity | exact Hroll ].
  cbn [rbind fill_attrs fill_maxname fill_minname].
  rewrite (sizes_block_values "media-size-supported" _ (fun s => s)
             (fun m => unwrap (lprint_create_media_size m))
             _ media _ _ size);
    [ | intros m Hm Hf; apply media_size_resolves; auto
      | apply pick_last_idem
      | rewrite !pick_last_idem; exact Hroll ].
  cbn [rbind fill_attrs fill_maxname fill_minname].
  rewrite !pick_last_idem.
  unfold media_store, col_database_values, size_supported_values.
  fold media. rewrite <- (sentinel_roll media media_col_roll).
  replace (roll_of media) with (option_map (fun s : ipp_t => s) (roll_of media))
    by (destruct (roll_of media); reflexivity).
  rewrite <- (sentinel_roll media (fun s => s)). reflexivity.
Qed.

(** With one of them unknown, the null pointer is dereferenced. *)
Lemma copy_media_fault (attrs : ipp_t) (driver : lprint_driver_t) :
  media_okb (driver_media driver) = false ->
  lprint_copy_media attrs driver = NullDeref.
Proof.
  intros Hbad. rewrite lprint_copy_media_blocks. unfold media_okb in Hbad.
  destruct (forallb (fun m => implb (is_fixed m) (resolvesb m)) (driver_media driver))
    eqn:Hfixed.
  - cbn [andb] in Hbad.
    destruct (sentinels (driver_media driver)) as [[mn mx]|] eqn:Hs; [|discriminate].
    rewrite forallb_forall in Hfixed.
    rewrite (sizes_block_roll_fault "media-col-database" _ media_col_roll
               (fun m => unwrap (lprintCreateMediaCol m None None
                                   (driver_left_right driver)
                                   (driver_bottom_top driver)))
               _ (driver_media driver) mn mx);
      [reflexivity | | exact Hs | now apply roll_size_fault].
    intros m Hm Hf. apply media_col_resolves.
    specialize (Hfixed m Hm). rewrite Hf in Hfixed. now apply resolvesb_resolves.
  - apply forallb_false in Hfixed. destruct Hfixed as (m & Hm & Hf).
    destruct (is_fixed m) eqn:Hfix; [|discriminate]. cbn [implb] in Hf.
    rewrite (sizes_block_fault "media-col-database"
               (fun m => lprintCreateMediaCol m None None
                           (driver_left_right driver) (driver_bottom_top driver))
               media_col_roll _ (driver_media driver) None None m Hm Hfix);
      [reflexivity|].
    unfold lprintCreateMediaCol, lprint_create_media_size.
    unfold resolvesb in Hf. destruct (pwgMediaForPWG m); [discriminate | reflexivity].
Qed.

Lemma copy_media_cases (attrs attrs' : ipp_t) (driver : lprint_driver_t) :
  lprint_copy_media attrs driver = Ok attrs' ->
  media_okb (driver_media driver) = true
  /\ attrs' = chain attrs (media_steps driver).
Proof.
  intros H. destruct (media_okb (driver_media driver)) eqn:Hok.
  - rewrite (copy_media_ok attrs driver Hok) in H. injection H as <-. auto.
  - rewrite (copy_media_fault attrs driver Hok) in H. discriminate.
Qed.

End Chains.

(* ================================================================== *)
(** ** Further properties of [lprint_copy_media] *)
(* ================================================================== *)

(** Whether a computation returns, or stops on a null pointer. *)
Definition returns {A : Type} (r : result A) : bool :=
  match r with
  | Ok _ => true
  | NullDeref => false
  end.

(** A collection slot that was never set. *)
Definition is_unset (v : ipp_value_t) : bool := negb (is_set v).

Lemma additions_touched (steps : list step) (a : ipp_attribute_t) :
  well_keyed steps -> In a (additions steps) -> touched steps a = true.
Proof.
  intros Hk Ha. unfold additions in Ha. apply in_concat in Ha.
  destruct Ha as (l & Hl & Ha). apply in_map_iff in Hl.
  destruct Hl as (s & <- & Hs). unfold touched. apply existsb_exists.
  exists s. split; [exact Hs|].
  exact (ChainFacts.keyed_matches _ _ _ a (proj1 (Hk s Hs)) Ha).
Qed.

Lemma find_handle_none (attrs : ipp_t) (n : string) (t : ipp_tag_t) :
  ippFindAttribute attrs n t = None <-> find (matches n t) attrs = None.
Proof.
  unfold ippFindAttribute.
  assert (G : forall l i, find_from i l n t = None <-> find (matches n t) l = None).
  { induction l as [|a l IH]; intros i; simpl; [tauto|].
    destruct (matches n t a); [split; discriminate | apply IH]. }
  apply G.
Qed.

Lemma no_unset_slots (cols : list ipp_t) :
  filter is_unset (map slot cols) = [].
Proof. induction cols as [|c cols IH]; simpl; [reflexivity | exact IH]. Qed.

Lemma all_unset (n : nat) :
  List.length (filter is_unset (repeat empty_slot n)) = n.
Proof. induction n as [|n IH]; simpl; [reflexivity | now rewrite IH]. Qed.

Lemma sizes_values_unset (cols : list ipp_t) (unset : nat) (rollcol : option ipp_t) :
  List.length (filter is_unset (sizes_values cols unset rollcol)) =
  match rollcol with
  | Some _ => (unset - 1)%nat
  | None => unset
  end.
Proof.
  unfold sizes_values. rewrite filter_app, no_unset_slots. cbn [app].
  destruct rollcol; cbn [filter is_unset is_set slot negb]; apply all_unset.
Qed.

Lemma not_max_none (media : list string) :
  List.length (filter (fun m => negb (is_roll_max m)) media) = 0%nat <->
  forallb is_roll_max media = true.
Proof.
  induction media as [|m media IH]; simpl; [tauto|].
  destruct (is_roll_max m); simpl; [exact IH|]. split; discriminate.
Qed.

Lemma roll_of_sentinels {collab : Collaborators} (media : list string) :
  roll_of media = None <->
  existsb is_roll_min media && existsb is_roll_max media = false.
Proof.
  unfold roll_of. destruct (sentinels media) as [[mn mx]|] eqn:Hs; cbn [option_map].
  - assert (H : existsb is_roll_min media && existsb is_roll_max media = true)
      by (apply sentinels_both; eauto).
    rewrite H. split; discriminate.
  - split; [intros _ | reflexivity].
    destruct (existsb is_roll_min media && existsb is_roll_max media) eqn:H;
      [|reflexivity].
    apply sentinels_both in H. destruct H as (mn & mx & H). congruence.
Qed.

(** X1 (when [lprint_copy_media] returns).  [lprint_copy_media] returns,
    rather than dereferencing a null pointer, exactly when the media
    database knows every name it looks up: each fixed size of the media list
    and, when the list has sentinels of both kinds, the last roll_min_ and
    the last roll_max_ name.  A sentinel without its counterpart is never
    looked up, and the capability set plays no part. *)
Theorem copy_media_outcome {collab : Collaborators}
        (attrs : ipp_t) (driver : lprint_driver_t) :
  returns (lprint_copy_media attrs driver) = media_okb (driver_media driver).
Proof.
  destruct (media_okb (driver_media driver)) eqn:Hok.
  - now rewrite (copy_media_ok attrs driver Hok).
  - now rewrite (copy_media_fault attrs driver Hok).
Qed.

(** X2 (what [lprint_copy_media] leaves alone).  When it returns, the
    attributes none of its nine lookups finds are all kept, in their order,
    and the result is the old store without the first attribute found by
    each lookup, followed by the attributes added, each of them one a lookup
    finds. *)
Theorem copy_media_frame {collab : Collaborators}
        (attrs attrs' : ipp_t) (driver : lprint_driver_t) :
  lprint_copy_media attrs driver = Ok attrs' ->
  filter (fun a => negb (is_media_attr a)) attrs' =
  filter (fun a => negb (is_media_attr a)) attrs
  /\ exists new,
       attrs' = without_media attrs ++ new
       /\ forallb is_media_attr new = true.
Proof.
  intros H. destruct (copy_media_cases attrs attrs' driver H) as [_ ->].
  split.
  - exact (ChainFacts.chain_frame (media_steps driver) (media_steps_keyed driver)
             (media_steps_distinct driver) attrs).
  - exists (additions (media_steps driver)). split.
    + exact (ChainFacts.chain_purge (media_steps driver) (media_steps_keyed driver)
               (media_steps_distinct driver) attrs).
    + apply forallb_forall. intros a Ha.
      exact (additions_touched (media_steps driver) a (media_steps_keyed driver) Ha).
Qed.

Lemma copy_media_frame_witness :
  exists attrs',
    lprint_copy_media (printer_attrs (Sample.printer_with "dymo_lw-450"))
      Sample.roll_driver = Ok attrs'
    /\ filter (fun a => negb (is_media_attr a)) attrs' =
       printer_attrs (Sample.printer_with "dymo_lw-450").
Proof.
  eexists. split; [vm_compute; reflexivity|].
  refine (proj1 (@copy_media_frame Sample.collaborators
                   (printer_attrs (Sample.printer_with "dymo_lw-450")) _
                   Sample.roll_driver _)).
  vm_compute. reflexivity.
Defined.

(** X3 (running [lprint_copy_media] again).  On a store that holds each of
    the nine media attributes at most once, a second call for the same
    driver returns the very store the first call left. *)
Theorem copy_media_idempotent {collab : Collaborators}
        (attrs attrs' : ipp_t) (driver : lprint_driver_t) :
  (forall n t, In (n, t) media_names -> (count_matching n t attrs <= 1)%nat) ->
  lprint_copy_media attrs driver = Ok attrs' ->
  lprint_copy_media attrs' driver = Ok attrs'.
Proof.
  intros Hc H. destruct (copy_media_cases attrs attrs' driver H) as [Hok ->].
  rewrite (copy_media_ok _ driver Hok). f_equal.
  apply ChainFacts.chain_idempotent;
    [apply media_steps_keyed | apply media_steps_distinct|].
  intros s Hs. apply Hc. unfold media_steps in Hs. simpl in Hs.
  repeat (destruct Hs as [<-|Hs]; [simpl; tauto|]). destruct Hs.
Qed.

Lemma copy_media_idempotent_witness :
  exists attrs',
    lprint_copy_media [] Sample.roll_driver = Ok attrs'
    /\ lprint_copy_media attrs' Sample.roll_driver = Ok attrs'.
Proof.
  eexists. split; [vm_compute; reflexivity|].
  apply (@copy_media_idempotent Sample.collaborators []).
  - intros n t _. unfold count_matching. simpl. lia.
  - vm_compute. reflexivity.
Defined.

(** What a lookup of one step of the media chain reads afterwards. *)
Lemma media_step_values {collab : Collaborators}
      (attrs attrs' : ipp_t) (driver : lprint_driver_t) (s : step) :
  lprint_copy_media attrs driver = Ok attrs' ->
  In s (media_steps driver) ->
  (count_matching (step_name s) (step_tag s) attrs <= 1)%nat ->
  find (matches (step_name s) (step_tag s)) attrs' =
  find (matches (step_name s) (step_tag s)) (step_new s).
Proof.
  intros H Hs Hc. destruct (copy_media_cases attrs attrs' driver H) as [_ ->].
  exact (ChainFacts.chain_find_step (media_steps driver) s (media_steps_keyed driver)
           (media_steps_distinct driver) Hs attrs Hc).
Qed.

Lemma integer_step_read {collab : Collaborators}
      (attrs attrs' : ipp_t) (driver : lprint_driver_t) (name : string) (v : Z) :
  lprint_copy_media attrs driver = Ok attrs' ->
  In (integer_step name v) (media_steps driver) ->
  (count_matching name IPP_TAG_INTEGER attrs <= 1)%nat ->
  values_of attrs' (ippFindAttribute attrs' name IPP_TAG_INTEGER) = [VInteger v].
Proof.
  intros H Hs Hc. rewrite IppFacts.values_of_find.
  pose proof (media_step_values attrs attrs' driver (integer_step name v) H Hs Hc) as Hf.
  cbn [integer_step step_name step_tag step_new] in Hf. rewrite Hf.
  cbn [find]. unfold matches. cbn [attr_name attr_value_tag].
  now rewrite ChainFacts.strcaseeq_refl, ChainFacts.tag_matches_refl.
Qed.

Lemma strings_step_read {collab : Collaborators}
      (attrs attrs' : ipp_t) (driver : lprint_driver_t) (name : string)
      (l : list string) :
  lprint_copy_media attrs driver = Ok attrs' ->
  In (strings_step name l) (media_steps driver) ->
  (count_matching name IPP_TAG_KEYWORD attrs <= 1)%nat ->
  values_of attrs' (ippFindAttribute attrs' name IPP_TAG_KEYWORD) = map VString l
  /\ (ippFindAttribute attrs' name IPP_TAG_KEYWORD = None <-> l = []).
Proof.
  intros H Hs Hc. rewrite IppFacts.values_of_find, find_handle_none.
  pose proof (media_step_values attrs attrs' driver (strings_step name l) H Hs Hc) as Hf.
  cbn [strings_step step_name step_tag step_new] in Hf. rewrite Hf.
  unfold strings_attr. destruct l as [|x l]; [split; [reflexivity | tauto]|].
  cbn [find]. unfold matches. cbn [attr_name attr_value_tag].
  rewrite ChainFacts.strcaseeq_refl, ChainFacts.tag_matches_refl. cbn [andb].
  split; [reflexivity | split; discriminate].
Qed.

(** X4 (the margins).  After [lprint_copy_media] has returned on a store
    that held each margin attribute at most once, a client reads the
    driver's bottom/top margin under media-bottom-margin-supported and
    media-top-margin-supported and its left/right margin under
    media-left-margin-supported and media-right-margin-supported, whatever
    the media list. *)
Theorem copy_media_margins {collab : Collaborators}
        (attrs attrs' : ipp_t) (driver : lprint_driver_t) :
  lprint_copy_media attrs driver = Ok attrs' ->
  (forall n,
      In n ["media-bottom-margin-supported"; "media-left-margin-supported";
            "media-right-margin-supported"; "media-top-margin-supported"] ->
      (count_matching n IPP_TAG_INTEGER attrs <= 1)%nat) ->
  values_of attrs'
    (ippFindAttribute attrs' "media-bottom-margin-supported" IPP_TAG_INTEGER) =
  [VInteger (driver_bottom_top driver)]
  /\ values_of attrs'
       (ippFindAttribute attrs' "media-top-margin-supported" IPP_TAG_INTEGER) =
     [VInteger (driver_bottom_top driver)]
  /\ values_of attrs'
       (ippFindAttribute attrs' "media-left-margin-supported" IPP_TAG_INTEGER) =
     [VInteger (driver_left_right driver)]
  /\ values_of attrs'
       (ippFindAttribute attrs' "media-right-margin-supported" IPP_TAG_INTEGER) =
     [VInteger (driver_left_right driver)].
Proof.
  intros H Hc.
  repeat split;
    apply (integer_step_read attrs attrs' driver _ _ H);
    first [ unfold media_steps; simpl; tauto | apply Hc; simpl; tauto ].
Qed.

Lemma copy_media_margins_witness :
  exists attrs',
    lprint_copy_media [] Sample.roll_driver = Ok attrs'
    /\ values_of attrs'
         (ippFindAttribute attrs' "media-top-margin-supported" IPP_TAG_INTEGER) =
       [VInteger 525].
Proof.
  eexists. split; [vm_compute; reflexivity|].
  refine (proj1 (proj2 (@copy_media_margins Sample.collaborators []
                          _ Sample.roll_driver _ _))).
  - vm_compute. reflexivity.
  - intros n _. unfold count_matching. simpl. lia.
Defined.

(** X5 (the keyword lists).  After [lprint_copy_media] has returned on a
    store that held media-supported, media-source-supported and
    media-type-supported at most once each, a client reads under
    media-supported the media list as it stands, sentinels included, and
    under the other two the driver's sources and types; each attribute is
    absent exactly when its list is empty, also when it was present before
    the call. *)
Theorem copy_media_keyword_lists {collab : Collaborators}
        (attrs attrs' : ipp_t) (driver : lprint_driver_t) :
  lprint_copy_media attrs driver = Ok attrs' ->
  (forall n,
      In n ["media-supported"; "media-source-supported"; "media-type-supported"] ->
      (count_matching n IPP_TAG_KEYWORD attrs <= 1)%nat) ->
  (values_of attrs' (ippFindAttribute attrs' "media-supported" IPP_TAG_KEYWORD) =
   map VString (driver_media driver)
   /\ (ippFindAttribute attrs' "media-supported" IPP_TAG_KEYWORD = None <->
       driver_media driver = []))
  /\ (values_of attrs'
        (ippFindAttribute attrs' "media-source-supported" IPP_TAG_KEYWORD) =
      map VString (driver_source driver)
      /\ (ippFindAttribute attrs' "media-source-supported" IPP_TAG_KEYWORD = None <->
          driver_source driver = []))
  /\ (values_of attrs'
        (ippFindAttribute attrs' "media-type-supported" IPP_TAG_KEYWORD) =
      map VString (driver_type driver)
      /\ (ippFindAttribute attrs' "media-type-supported" IPP_TAG_KEYWORD = None <->
          driver_type driver = [])).
Proof.
  intros H Hc.
  repeat apply conj;
    try (apply (strings_step_read attrs attrs' driver _ _ H);
         first [ unfold media_steps; simpl; tauto | apply Hc; simpl; tauto ]).
Qed.

Lemma copy_media_keyword_lists_witness :
  exists attrs',
    lprint_copy_media [Attr "media-source-supported" IPP_TAG_PRINTER IPP_TAG_KEYWORD
                         [VString "main-roll"]]
      Sample.roll_driver = Ok attrs'
    /\ ippFindAttribute attrs' "media-source-supported" IPP_TAG_KEYWORD = None
    /\ values_of attrs' (ippFindAttribute attrs' "media-supported" IPP_TAG_KEYWORD) =
       [VString "w36h23"; VString "roll_min_w6"; VString "roll_max_w101"].
Proof.
  eexists. split; [vm_compute; reflexivity|].
  assert (H := @copy_media_keyword_lists Sample.collaborators
                 [Attr "media-source-supported" IPP_TAG_PRINTER IPP_TAG_KEYWORD
                    [VString "main-roll"]]).
  specialize (H _ Sample.roll_driver ltac:(vm_compute; reflexivity)).
  destruct H as ((Hm & _) & (_ & Hs) & _).
  - intros n Hn. simpl in Hn.
    destruct Hn as [<-|[<-|[<-|[]]]]; vm_compute; lia.
  - split; [now apply Hs | exact Hm].
Defined.

(** The slots of a size attribute that [lprint_copy_media] allocates and
    never sets: one for each roll_min_ name, less the one the roll takes. *)
Definition spare_slots (media : list string) : nat :=
  (List.length (filter is_roll_min media)
   - (if existsb is_roll_max media then 1 else 0))%nat.

Lemma sizes_step_read {collab : Collaborators}
      (attrs attrs' : ipp_t) (driver : lprint_driver_t) (name : string)
      (vals : list ipp_value_t) :
  lprint_copy_media attrs driver = Ok attrs' ->
  In (sizes_step name vals) (media_steps driver) ->
  (count_matching name IPP_TAG_BEGIN_COLLECTION attrs <= 1)%nat ->
  values_of attrs' (ippFindAttribute attrs' name IPP_TAG_BEGIN_COLLECTION) = vals
  /\ (ippFindAttribute attrs' name IPP_TAG_BEGIN_COLLECTION = None <-> vals = []).
Proof.
  intros H Hs Hc. rewrite IppFacts.values_of_find, find_handle_none.
  pose proof (media_step_values attrs attrs' driver (sizes_step name vals) H Hs Hc) as Hf.
  cbn [sizes_step step_name step_tag step_new] in Hf. rewrite Hf.
  unfold sizes_attr. destruct vals as [|x l]; [split; [reflexivity | tauto]|].
  cbn [find]. unfold matches. cbn [attr_name attr_value_tag].
  rewrite ChainFacts.strcaseeq_refl, ChainFacts.tag_matches_refl. cbn [andb].
  split; [reflexivity | split; discriminate].
Qed.

Lemma sizes_values_nil (cols : list ipp_t) (unset : nat) (rollcol : option ipp_t) :
  (rollcol <> None -> 1 <= unset)%nat ->
  sizes_values cols unset rollcol = [] <-> (List.length cols + unset = 0)%nat.
Proof.
  intros H. rewrite <- (sizes_values_length cols unset rollcol H).
  destruct (sizes_values cols unset rollcol); simpl; split;
    first [reflexivity | discriminate].
Qed.

Lemma option_map_none {A B : Type} (f : A -> B) (o : option A) :
  option_map f o = None <-> o = None.
Proof. destruct o; simpl; split; first [reflexivity | discriminate]. Qed.

Lemma sizes_values_spare {collab : Collaborators}
      (cols : list ipp_t) (media : list string) (rollcol : option ipp_t) :
  (rollcol = None <-> roll_of media = None) ->
  List.length (filter is_unset
                 (sizes_values cols (List.length (filter is_roll_min media)) rollcol))
  = spare_slots media.
Proof.
  intros Hroll. rewrite sizes_values_unset. unfold spare_slots.
  destruct rollcol as [r|].
  - assert (Hb : existsb is_roll_min media && existsb is_roll_max media = true).
    { destruct (existsb is_roll_min media && existsb is_roll_max media) eqn:E;
        [reflexivity|].
      apply roll_of_sentinels, Hroll in E. discriminate. }
    apply andb_true_iff in Hb. destruct Hb as [_ ->]. reflexivity.
  - assert (Hr : roll_of media = None) by now apply Hroll.
    apply roll_of_sentinels in Hr. apply andb_false_iff in Hr.
    destruct Hr as [Hr | ->]; [|lia].
    assert (Hn : filter is_roll_min media = []).
    { clear - Hr. induction media as [|m media IH]; [reflexivity|].
      simpl in *. apply orb_false_iff in Hr. destruct Hr as [-> Hr]. now apply IH. }
    rewrite Hn. simpl. destruct (existsb is_roll_max media); reflexivity.
Qed.

Lemma sizes_values_absent {collab : Collaborators}
      (cols : list ipp_t) (media : list string) (rollcol : option ipp_t) :
  (rollcol = None <-> roll_of media = None) ->
  List.length cols = List.length (fixed_sizes media) ->
  sizes_values cols (List.length (filter is_roll_min media)) rollcol = [] <->
  forallb is_roll_max media = true.
Proof.
  intros Hroll Hlen. rewrite sizes_values_nil.
  - rewrite Hlen, <- not_max_split. apply not_max_none.
  - intros Hr. apply roll_of_some. intros E. apply Hr. now apply Hroll.
Qed.

(** X6 (slots left unset, and absent size attributes).  After
    [lprint_copy_media] has returned on a store that held media-col-database
    and media-size-supported at most once each, both attributes hold the same
    number of slots that were allocated and never set: the number of
    roll_min_ names of the media list, less one when the list also has a
    roll_max_ name.  Both attributes are absent exactly when every name of the
    media list is a roll_max_ sentinel, the empty list included. *)
Theorem copy_media_unset_slots {collab : Collaborators}
        (attrs attrs' : ipp_t) (driver : lprint_driver_t) :
  lprint_copy_media attrs driver = Ok attrs' ->
  (count_matching "media-col-database" IPP_TAG_BEGIN_COLLECTION attrs <= 1)%nat ->
  (count_matching "media-size-supported" IPP_TAG_BEGIN_COLLECTION attrs <= 1)%nat ->
  let db := ippFindAttribute attrs' "media-col-database" IPP_TAG_BEGIN_COLLECTION in
  let ss := ippFindAttribute attrs' "media-size-supported" IPP_TAG_BEGIN_COLLECTION in
  List.length (filter is_unset (values_of attrs' db)) = spare_slots (driver_media driver)
  /\ List.length (filter is_unset (values_of attrs' ss)) = spare_slots (driver_media driver)
  /\ (db = None <-> forallb is_roll_max (driver_media driver) = true)
  /\ (ss = None <-> forallb is_roll_max (driver_media driver) = true).
Proof.
  intros H Hdb Hss db ss.
  destruct (sizes_step_read attrs attrs' driver "media-col-database"
              (col_database_values driver) H) as [Vdb Ndb];
    [unfold media_steps; simpl; tauto | exact Hdb |].
  destruct (sizes_step_read attrs attrs' driver "media-size-supported"
              (size_supported_values driver) H) as [Vss Nss];
    [unfold media_steps; simpl; tauto | exact Hss |].
  subst db ss. rewrite Vdb, Vss, Ndb, Nss.
  unfold col_database_values, size_supported_values.
  repeat split;
    first [ apply sizes_values_spare | apply sizes_values_absent ];
    first [ apply option_map_none | tauto | apply length_map ].
Qed.

Lemma copy_media_unset_slots_witness :
  exists attrs',
    lprint_copy_media [] (mk_driver (Some "dymo_lm-400") [(300, 300)] 100 525
                            ["roll_min_w9"; "roll_min_w6"; "roll_max_w101"] [] [])
    = Ok attrs'
    /\ List.length
         (filter is_unset
            (values_of attrs'
               (ippFindAttribute attrs' "media-col-database" IPP_TAG_BEGIN_COLLECTION)))
       = 1%nat.
Proof.
  eexists. split; [vm_compute; reflexivity|].
  refine (proj1 (@copy_media_unset_slots Sample.collaborators [] _
                   (mk_driver (Some "dymo_lm-400") [(300, 300)] 100 525
                      ["roll_min_w9"; "roll_min_w6"; "roll_max_w101"] [] [])
                   _ _ _)).
  - vm_compute. reflexivity.
  - vm_compute. lia.
  - vm_compute. lia.
Defined.

(* ================================================================== *)
(** ** Further properties of [lprintCreateMediaCol]                    *)
(* ================================================================== *)

(** The values of the member [name] of a collection. *)
Definition member (col : ipp_t) (name : string) (tag : ipp_tag_t)
  : list ipp_value_t :=
  values_of col (ippFindAttribute col name tag).

Definition opt_list {A : Type} (o : option A) : list A :=
  match o with
  | Some a => [a]
  | None => []
  end.

(** X7 (the members of a media-col).  [lprintCreateMediaCol] returns exactly
    when the media database knows the size name.  The collection it returns
    then has 6 members and one more for each of source and type that is not
    null; looked up by name, media-size-name reads the size name, media-size
    reads the collection [lprint_create_media_size] builds for that name
    (x-dimension the width, y-dimension the length), media-bottom-margin and
    media-top-margin both read the bottom/top argument, media-left-margin and
    media-right-margin both read the left/right argument, and media-source
    and media-type read their argument or are absent when it is null. *)
Theorem media_col_members {collab : Collaborators}
        (size_name : string) (source type : option string)
        (left_right bottom_top : Z) :
  returns (lprintCreateMediaCol size_name source type left_right bottom_top) =
  resolvesb size_name
  /\ forall col,
      lprintCreateMediaCol size_name source type left_right bottom_top = Ok col ->
      List.length col =
        (6 + List.length (opt_list source) + List.length (opt_list type))%nat
      /\ member col "media-size-name" IPP_TAG_KEYWORD = [VString size_name]
      /\ (exists size p,
             lprint_create_media_size size_name = Ok size
             /\ pwgMediaForPWG size_name = Some p
             /\ member col "media-size" IPP_TAG_BEGIN_COLLECTION =
                [VCollection (Some size)]
             /\ member size "x-dimension" IPP_TAG_INTEGER = [VInteger (pwg_width p)]
             /\ member size "y-dimension" IPP_TAG_INTEGER = [VInteger (pwg_length p)])
      /\ member col "media-bottom-margin" IPP_TAG_INTEGER = [VInteger bottom_top]
      /\ member col "media-top-margin" IPP_TAG_INTEGER = [VInteger bottom_top]
      /\ member col "media-left-margin" IPP_TAG_INTEGER = [VInteger left_right]
      /\ member col "media-right-margin" IPP_TAG_INTEGER = [VInteger left_right]
      /\ member col "media-source" IPP_TAG_KEYWORD = map VString (opt_list source)
      /\ member col "media-type" IPP_TAG_KEYWORD = map VString (opt_list type).
Proof.
  unfold lprintCreateMediaCol, lprint_create_media_size, resolvesb.
  destruct (pwgMediaForPWG size_name) as [p|] eqn:Hp; cbn [deref rbind returns].
  - split; [reflexivity|]. intros col Hcol. injection Hcol as <-.
    destruct source, type;
      (split; [reflexivity|]; split; [reflexivity|];
       split; [exists [Attr "x-dimension" IPP_TAG_ZERO IPP_TAG_INTEGER
                         [VInteger (pwg_width p)];
                       Attr "y-dimension" IPP_TAG_ZERO IPP_TAG_INTEGER
                         [VInteger (pwg_length p)]], p;
               repeat split; reflexivity|];
       repeat split; reflexivity).
  - split; [reflexivity | discriminate].
Qed.

Lemma media_col_members_witness :
  exists col,
    lprintCreateMediaCol "w36h23" None (Some "labels") 100 525 = Ok col
    /\ member col "media-source" IPP_TAG_KEYWORD = []
    /\ member col "media-type" IPP_TAG_KEYWORD = [VString "labels"]
    /\ member col "media-top-margin" IPP_TAG_INTEGER = [VInteger 525].
Proof.
  eexists. split; [vm_compute; reflexivity|].
  destruct (proj2 (@media_col_members Sample.collaborators
                     "w36h23" None (Some "labels") 100 525) _ eq_refl)
    as (_ & _ & _ & _ & Ht & _ & _ & Hs & Hy).
  repeat split; assumption.
Defined.

(* ================================================================== *)
(** ** Further properties of the registry                              *)
(* ================================================================== *)

(** The model the registry gives for a keyword, if any. *)
Definition model_of (name : string) : option string :=
  make_and_model_loop lprint_drivers 0 name.

(** The assertion of [lprintGetDrivers] (line 257), the tables being arrays
    of pointers of [ptr] bytes each. *)
Definition drivers_assertion (ptr : Z) : bool :=
  ptr * Z.of_nat (List.length lprint_drivers) =?
  ptr * Z.of_nat (List.length lprint_models).

Lemma model_of_miss (name : string) :
  ~ In name lprint_drivers -> model_of name = None.
Proof.
  unfold model_of. generalize 0%nat. generalize lprint_drivers.
  induction l as [|k rest IH]; intros i Hn; simpl; [reflexivity|].
  rewrite CStrFacts.strcmp_eqb.
  destruct (String.eqb_spec k name) as [->|Hne].
  - exfalso. apply Hn. now left.
  - apply IH. intros H. apply Hn. now right.
Qed.

Lemma model_of_index (i : nat) (name : string) :
  nth_error lprint_drivers i = Some name ->
  model_of name = Some (lprint_models_at i).
Proof.
  intros Hi.
  do 25 (destruct i as [|i]; [injection Hi as <-; reflexivity|]).
  destruct i; discriminate.
Qed.

Lemma model_of_hit (name : string) :
  In name lprint_drivers ->
  exists model, model_of name = Some model /\ In model lprint_models.
Proof.
  intros Hin. destruct (In_nth_error _ _ Hin) as [i Hi].
  exists (lprint_models_at i). split; [now apply model_of_index|].
  unfold lprint_models_at. apply nth_In.
  assert (i < List.length lprint_drivers)%nat
    by (apply nth_error_Some; congruence).
  exact H.
Qed.

Lemma get_make_and_model_of (driver : lprint_driver_t) (name : string) :
  driver_name driver = Some name ->
  lprintGetMakeAndModel (Some driver) =
  match model_of name with
  | Some model => model
  | None => "Unknown"
  end.
Proof. intros H. unfold lprintGetMakeAndModel, model_of. now rewrite H. Qed.

Lemma models_known (model : string) :
  In model lprint_models -> model <> "Unknown".
Proof.
  intros Hin ->. simpl in Hin.
  repeat (destruct Hin as [Hin|Hin]; [discriminate|]). exact Hin.
Qed.

(** X8 (when the model is unknown).  [lprintGetMakeAndModel] answers
    "Unknown" only for a null driver, a driver without a name, or a name
    that is no keyword of the registry: no registered keyword has a model of
    that name, so the answer tells a caller whether the driver is
    registered. *)
Theorem make_and_model_unknown (driver : option lprint_driver_t) :
  lprintGetMakeAndModel driver = "Unknown" <->
  (forall d name,
      driver = Some d -> driver_name d = Some name -> ~ In name lprint_drivers).
Proof.
  split.
  - intros Hu d name -> Hname Hin.
    rewrite (get_make_and_model_of d name Hname) in Hu.
    destruct (model_of_hit name Hin) as (model & Hm & Hin').
    rewrite Hm in Hu. exact (models_known model Hin' Hu).
  - intros H. destruct driver as [d|]; [|reflexivity].
    destruct (driver_name d) as [name|] eqn:Hname.
    + rewrite (get_make_and_model_of d name Hname).
      now rewrite (model_of_miss name (H d name eq_refl Hname)).
    + unfold lprintGetMakeAndModel. now rewrite Hname.
Qed.

(** X9 (models tell the keywords apart).  Two drivers named by registry
    keywords get the same make and model from [lprintGetMakeAndModel] only
    when they carry the same keyword: the registry has no keyword twice and
    no model twice. *)
Theorem make_and_model_injective (d1 d2 : lprint_driver_t) (n1 n2 : string) :
  driver_name d1 = Some n1 ->
  driver_name d2 = Some n2 ->
  In n1 lprint_drivers ->
  In n2 lprint_drivers ->
  lprintGetMakeAndModel (Some d1) = lprintGetMakeAndModel (Some d2) ->
  n1 = n2.
Proof.
  intros H1 H2 I1 I2.
  rewrite (get_make_and_model_of d1 n1 H1), (get_make_and_model_of d2 n2 H2).
  assert (Hall :
            forallb (fun a =>
              forallb (fun b =>
                implb (match model_of a, model_of b with
                       | Some x, Some y => String.eqb x y
                       | _, _ => true
                       end) (String.eqb a b))
                lprint_drivers) lprint_drivers = true)
    by (vm_compute; reflexivity).
  rewrite forallb_forall in Hall. specialize (Hall n1 I1).
  rewrite forallb_forall in Hall. specialize (Hall n2 I2).
  destruct (model_of_hit n1 I1) as (m1 & E1 & _).
  destruct (model_of_hit n2 I2) as (m2 & E2 & _).
  rewrite E1, E2 in *. intros ->. rewrite String.eqb_refl in Hall.
  now apply String.eqb_eq.
Qed.

Lemma make_and_model_injective_witness :
  lprintGetMakeAndModel (Some (named_driver "dymo_lw-450")) =
  lprintGetMakeAndModel (Some Sample.roll_driver)
  /\ "dymo_lw-450" = "dymo_lw-450".
Proof.
  split; [vm_compute; reflexivity|].
  apply (make_and_model_injective (named_driver "dymo_lw-450") Sample.roll_driver
           "dymo_lw-450" "dymo_lw-450" eq_refl eq_refl).
  - simpl. tauto.
  - simpl. tauto.
  - vm_compute. reflexivity.
Defined.

(** X10 (what [lprintGetDrivers] reports).  Whatever the size of a pointer,
    the assertion of [lprintGetDrivers] holds; the count it stores is the
    length of the array it returns and fits a C [int]; and every keyword of
    that array, given to a driver as its name, gets from
    [lprintGetMakeAndModel] the model at the same index of the model table,
    never "Unknown". *)
Theorem get_drivers_complete :
  (forall ptr, drivers_assertion ptr = true)
  /\ snd lprintGetDrivers = Z.of_nat (List.length (fst lprintGetDrivers))
  /\ 0 < snd lprintGetDrivers <= 2147483647
  /\ forall i keyword driver,
      nth_error (fst lprintGetDrivers) i = Some keyword ->
      driver_name driver = Some keyword ->
      lprintGetMakeAndModel (Some driver) = lprint_models_at i
      /\ nth_error lprint_models i = Some (lprint_models_at i)
      /\ lprintGetMakeAndModel (Some driver) <> "Unknown".
Proof.
  split; [intros ptr; unfold drivers_assertion; apply Z.eqb_eq; reflexivity|].
  split; [reflexivity|]. split; [vm_compute; split; [reflexivity | discriminate]|].
  intros i keyword driver Hi Hname. cbn [fst lprintGetDrivers] in Hi.
  rewrite (get_make_and_model_of driver keyword Hname), (model_of_index i keyword Hi).
  assert (Hlt : (i < List.length lprint_models)%nat)
    by (change (List.length lprint_models) with (List.length lprint_drivers);
        apply nth_error_Some; congruence).
  split; [reflexivity|]. split.
  - unfold lprint_models_at. now apply nth_error_nth'.
  - apply models_known. unfold lprint_models_at. now apply nth_In.
Qed.

(* ================================================================== *)
(** ** Further properties of [lprintCreateDriver]                      *)
(* ================================================================== *)

(** How a run of [lprintCreateDriver] ends. *)
Definition create_outcome
           (r : result (option lprint_driver_t * machine)) : outcome :=
  match r with
  | Ok (Some _, _) => Created
  | Ok (None, _) => NotCreated
  | NullDeref => Crashed
  end.

(** The keyword the printer asks for, when it is one of the registry. *)
Definition registered {collab : Collaborators} (printer : lprint_printer_t)
  : option string :=
  match requested_driver printer with
  | Some name => if existsb (String.eqb name) lprint_drivers then Some name else None
  | None => None
  end.

Lemma existsb_eqb_In (name : string) (l : list string) :
  existsb (String.eqb name) l = true <-> In name l.
Proof.
  rewrite existsb_exists. split.
  - intros (x & Hx & E). apply String.eqb_eq in E. now subst.
  - intros H. exists name. split; [exact H | apply String.eqb_refl].
Qed.

Lemma registered_some {collab : Collaborators}
      (printer : lprint_printer_t) (name : string) :
  registered printer = Some name <->
  requested_driver printer = Some name /\ In name lprint_drivers.
Proof.
  unfold registered. destruct (requested_driver printer) as [n|].
  - destruct (existsb (String.eqb n) lprint_drivers) eqn:E.
    + apply existsb_eqb_In in E. split.
      * intros H. injection H as <-. auto.
      * intros [H _]. exact H.
    + split; [discriminate|]. intros [H Hin]. injection H as ->.
      apply existsb_eqb_In in Hin. congruence.
  - split; [discriminate | intros [H _]; discriminate].
Qed.

Lemma registered_none {collab : Collaborators} (printer : lprint_printer_t) :
  registered printer = None ->
  forall name, requested_driver printer = Some name -> ~ In name lprint_drivers.
Proof.
  unfold registered. intros H name Hreq Hin. rewrite Hreq in H.
  apply existsb_eqb_In in Hin. rewrite Hin in H. discriminate.
Qed.

(** The run for a registry keyword and a successful allocation. *)
Lemma run_registered {collab : Collaborators}
      (printer : lprint_printer_t) (name : string) :
  registered printer = Some name ->
  exists i,
    nth_error lprint_drivers i = Some name
    /\ run_lprintCreateDriver true printer =
       let driver := lprintInitDYMO (named_driver name) in
       match synthesized_attrs (printer_attrs printer) driver i with
       | Ok attrs =>
           Ok (Some driver,
               mk_machine (mk_printer attrs (Some driver))
                 [EvWrLock; EvInit DYMO; EvAttach; EvCopyMedia; EvMakeAndModel;
                  EvResolution; EvUnlock])
       | NullDeref => NullDeref
       end.
Proof.
  intros Hreg. apply registered_some in Hreg. destruct Hreg as [Hreq Hin].
  destruct (create_loop_hit true name (mk_machine printer [EvWrLock])
              lprint_drivers 0 Hin) as (j & Hj & Heq).
  exists j. split; [exact Hj|].
  rewrite run_unfold, Hreq, Heq, (create_matched_registry name (0 + j) _ Hin).
  cbn [m_printer m_trace printer_attrs Nat.add]. cbv zeta.
  destruct (synthesized_attrs (printer_attrs printer)
              (lprintInitDYMO (named_driver name)) j); reflexivity.
Qed.

Lemma run_unregistered {collab : Collaborators}
      (calloc_ok : bool) (printer : lprint_printer_t) :
  registered printer = None ->
  run_lprintCreateDriver calloc_ok printer =
  Ok (None, mk_machine printer [EvWrLock; EvUnlock]).
Proof.
  intros Hreg. rewrite run_unfold.
  destruct (requested_driver printer) as [name|] eqn:Hreq; [|reflexivity].
  now rewrite (create_loop_miss calloc_ok name _ lprint_drivers 0
                 (registered_none printer Hreg name Hreq)).
Qed.

Lemma run_no_memory {collab : Collaborators} (printer : lprint_printer_t) :
  run_lprintCreateDriver false printer =
  Ok (None, mk_machine printer [EvWrLock; EvUnlock]).
Proof.
  rewrite run_unfold.
  destruct (requested_driver printer) as [name|] eqn:Hreq; [|reflexivity].
  destruct (in_dec string_dec name lprint_drivers) as [Hin|Hnin].
  - destruct (create_loop_hit false name (mk_machine printer [EvWrLock])
                lprint_drivers 0 Hin) as (j & _ & ->).
    reflexivity.
  - now rewrite (create_loop_miss false name _ lprint_drivers 0 Hnin).
Qed.

(** X11 (how a run ends).  A run of [lprintCreateDriver] returns a driver
    exactly when the printer's keyword is one of the registry, the
    allocation succeeds, and the media database knows every name that
    [lprint_copy_media] looks up in the media list the DYMO initializer
    installs; with the first two and an unknown media name the run
    dereferences a null pointer; in every other case it returns null. *)
Theorem create_driver_outcome {collab : Collaborators}
        (calloc_ok : bool) (printer : lprint_printer_t) :
  create_outcome (run_lprintCreateDriver calloc_ok printer) =
  match registered printer with
  | Some name =>
      if calloc_ok then
        if media_okb (driver_media (lprintInitDYMO (named_driver name)))
        then Created else Crashed
      else NotCreated
  | None => NotCreated
  end.
Proof.
  destruct (registered printer) as [name|] eqn:Hreg.
  - destruct calloc_ok; [|now rewrite run_no_memory].
    destruct (run_registered printer name Hreg) as (i & _ & ->). cbv zeta.
    unfold synthesized_attrs.
    destruct (media_okb (driver_media (lprintInitDYMO (named_driver name)))) eqn:Hok.
    + now rewrite (copy_media_ok _ _ Hok).
    + now rewrite (copy_media_fault _ _ Hok).
  - now rewrite (run_unregistered calloc_ok printer Hreg).
Qed.

(** X12 (allocation failure, and what a return leaves).  When the
    allocation fails the run returns null whatever the keyword, without
    calling an initializer.  A run that returns null has taken and released
    the lock and nothing else: the printer is unchanged, a driver attached
    earlier included.  A run that returns a driver has taken the lock first
    and released it last, and the driver it returns is the one it left
    attached to the printer. *)
Theorem create_driver_returns {collab : Collaborators}
        (calloc_ok : bool) (printer : lprint_printer_t) :
  run_lprintCreateDriver false printer =
  Ok (None, mk_machine printer [EvWrLock; EvUnlock])
  /\ forall driver m,
      run_lprintCreateDriver calloc_ok printer = Ok (driver, m) ->
      hd_error (m_trace m) = Some EvWrLock
      /\ last (m_trace m) EvWrLock = EvUnlock
      /\ count_occ event_eq_dec (m_trace m) EvWrLock = 1%nat
      /\ count_occ event_eq_dec (m_trace m) EvUnlock = 1%nat
      /\ match driver with
         | Some d => printer_driver (m_printer m) = Some d
         | None => m_printer m = printer
         end.
Proof.
  split; [apply run_no_memory|].
  intros [d|] m Hrun.
  - destruct (run_success calloc_ok printer d m Hrun)
      as (name & i & attrs & _ & _ & _ & _ & _ & ->).
    repeat split; reflexivity.
  - rewrite (run_none calloc_ok printer m Hrun). repeat split; reflexivity.
Qed.

Lemma create_driver_returns_witness :
  exists m,
    run_lprintCreateDriver true
      (mk_printer [] (Some Sample.plain_driver)) = Ok (None, m)
    /\ m_printer m = mk_printer [] (Some Sample.plain_driver).
Proof.
  eexists. split; [vm_compute; reflexivity|].
  refine (proj2 (proj2 (proj2 (proj2
            (proj2 (@create_driver_returns Sample.collaborators true
                      (mk_printer [] (Some Sample.plain_driver))) None _ _))))).
  vm_compute. reflexivity.
Defined.

(** *** printer-make-and-model *)

(** The string a client reads at element 0 of an attribute. *)
Definition string_at (a : ipp_attribute_t) : option string :=
  if is_string_tag (attr_value_tag a) then
    match nth_error (attr_values a) 0 with
    | Some (VString s) => Some s
    | _ => None
    end
  else None.

(** [ippGetString(ippFindAttribute(attrs, name, type), 0, NULL)]. *)
Definition get_first (attrs : ipp_t) (name : string) (type : ipp_tag_t)
  : option string :=
  ippGetString attrs (ippFindAttribute attrs name type) 0.

Lemma get_first_find (attrs : ipp_t) (n : string) (t : ipp_tag_t) :
  get_first attrs n t =
  match find (matches n t) attrs with
  | Some a => string_at a
  | None => None
  end.
Proof.
  unfold get_first, ippFindAttribute, ippGetString.
  pose proof (IppFacts.find_from_spec n t attrs 0) as H.
  destruct (find_from 0 attrs n t) as [j|].
  - destruct H as (_ & _ & H). rewrite Nat.sub_0_r in H. rewrite H.
    destruct (find (matches n t) attrs); reflexivity.
  - destruct H as [_ H]. now rewrite H.
Qed.

Lemma matches_key (n : string) (t : ipp_tag_t) (a b : ipp_attribute_t) :
  IppFacts.key a = IppFacts.key b -> matches n t a = matches n t b.
Proof.
  unfold IppFacts.key, matches. intros H. injection H as -> ->. reflexivity.
Qed.

Lemma find_from_keys (n : string) (t : ipp_tag_t) (X : ipp_t) :
  forall Y i,
    map IppFacts.key X = map IppFacts.key Y ->
    find_from i X n t = find_from i Y n t.
Proof.
  induction X as [|a X IH]; intros [|b Y] i H; try discriminate; [reflexivity|].
  cbn [map] in H.
  assert (Hk : IppFacts.key a = IppFacts.key b) by congruence.
  assert (Ht : map IppFacts.key X = map IppFacts.key Y) by congruence.
  simpl. rewrite (matches_key n t a b Hk). destruct (matches n t b); [reflexivity|].
  now apply IH.
Qed.

Lemma find_from_some (n : string) (t : ipp_tag_t) (l : ipp_t) :
  forall i j,
    find_from i l n t = Some j ->
    exists a, nth_error l (j - i) = Some a /\ matches n t a = true.
Proof.
  induction l as [|a l IH]; intros i j H; simpl in H; [discriminate|].
  destruct (matches n t a) eqn:Hm.
  - injection H as <-. rewrite Nat.sub_diag. exists a. split; [reflexivity | exact Hm].
  - pose proof (IppFacts.find_from_spec n t l (S i)) as Hs. rewrite H in Hs.
    destruct Hs as (Hle & _). destruct (IH (S i) j H) as (b & Hb & Hmb).
    exists b. split; [|exact Hmb].
    replace (j - i)%nat with (S (j - S i)) by lia. exact Hb.
Qed.

Lemma nth_error_update_at (f : ipp_attribute_t -> ipp_attribute_t) (l : ipp_t) :
  forall i a,
    nth_error l i = Some a -> nth_error (update_at i f l) i = Some (f a).
Proof.
  induction l as [|b l IH]; intros [|i] a H; simpl in *; try discriminate.
  - now injection H as ->.
  - now apply IH.
Qed.

Lemma text_is_string (a : ipp_attribute_t) :
  matches "printer-make-and-model" IPP_TAG_TEXT a = true ->
  is_string_tag (attr_value_tag a) = true.
Proof.
  unfold matches. intros H. apply andb_true_iff in H. destruct H as [_ H].
  destruct (attr_value_tag a); try discriminate; reflexivity.
Qed.

Lemma string_at_set (a : ipp_attribute_t) (s : string) :
  is_string_tag (attr_value_tag a) = true ->
  string_at (set_value a 0 (VString s)) = Some s.
Proof.
  destruct a as [n g t vs]. cbn [attr_value_tag]. intros Ht.
  unfold set_value, string_at.
  replace ((0 <? 0) || (Z.of_nat (List.length vs) <? 0)) with false
    by (symmetry; apply orb_false_iff; split; apply Z.ltb_ge; lia).
  cbn [attr_value_tag attr_values]. rewrite Ht.
  destruct vs; reflexivity.
Qed.

(** What lines 140-144 leave: the model readable at element 0, written in
    place when the attribute was there and appended otherwise. *)
Lemma set_make_and_model_spec (attrs : ipp_t) (i : nat) :
  get_first (set_make_and_model attrs i) "printer-make-and-model" IPP_TAG_TEXT =
  Some (lprint_models_at i)
  /\ match ippFindAttribute attrs "printer-make-and-model" IPP_TAG_TEXT with
     | Some h =>
         map IppFacts.key (set_make_and_model attrs i) = map IppFacts.key attrs
         /\ ippFindAttribute (set_make_and_model attrs i)
              "printer-make-and-model" IPP_TAG_TEXT = Some h
     | None =>
         set_make_and_model attrs i =
         attrs ++ [Attr "printer-make-and-model" IPP_TAG_PRINTER IPP_TAG_TEXT
                     [VString (lprint_models_at i)]]
     end.
Proof.
  unfold set_make_and_model.
  destruct (ippFindAttribute attrs "printer-make-and-model" IPP_TAG_TEXT)
    as [h|] eqn:Hf.
  - assert (Hk : map IppFacts.key (ippSetString attrs (Some h) 0 (lprint_models_at i))
                 = map IppFacts.key attrs) by apply IppFacts.ippSetString_keys.
    assert (Hh : ippFindAttribute (ippSetString attrs (Some h) 0 (lprint_models_at i))
                   "printer-make-and-model" IPP_TAG_TEXT = Some h).
    { unfold ippFindAttribute in *. now rewrite (find_from_keys _ _ _ _ 0%nat Hk). }
    split; [|split; assumption].
    unfold get_first. rewrite Hh. unfold ippFindAttribute in Hf.
    destruct (find_from_some _ _ _ _ _ Hf) as (a & Ha & Hm).
    rewrite Nat.sub_0_r in Ha. unfold ippSetString, ippGetString.
    rewrite (nth_error_update_at _ _ _ _ Ha).
    rewrite (text_is_string a Hm).
    pose proof (string_at_set a (lprint_models_at i) (text_is_string a Hm)) as Hs.
    unfold string_at in Hs. exact Hs.
  - split; [|reflexivity].
    rewrite get_first_find. cbn [ippAddString ipp_add_attr fst].
    rewrite IppFacts.find_app.
    apply find_handle_none in Hf. rewrite Hf. reflexivity.
Qed.

Lemma resolution_steps_other (driver : lprint_driver_t) (n : string) :
  forallb (fun k => negb (CStr.strcaseeq k n))
          ["printer-resolution-default"; "printer-resolution-supported";
           "pwg-raster-document-resolution-supported"; "urf-supported"] = true ->
  forall s, In s (resolution_steps driver) -> CStr.strcaseeq (step_name s) n = false.
Proof.
  intros H s Hs. rewrite forallb_forall in H. apply negb_true_iff, H.
  unfold resolution_steps in Hs. simpl in Hs.
  repeat (destruct Hs as [<-|Hs]; [simpl; tauto|]). destruct Hs.
Qed.

Lemma media_steps_other (driver : lprint_driver_t) (n : string) :
  forallb (fun k => negb (CStr.strcaseeq k n)) (map fst media_names) = true ->
  forall s, In s (media_steps driver) -> CStr.strcaseeq (step_name s) n = false.
Proof.
  intros H s Hs. rewrite forallb_forall in H. apply negb_true_iff, H.
  unfold media_steps in Hs. simpl in Hs.
  repeat (destruct Hs as [<-|Hs]; [simpl; tauto|]). destruct Hs.
Qed.

(** X13 (the make and model after creation).  Lines 140-144 write the model
    in place when the capability set has a printer-make-and-model text
    attribute (names, tags and positions of all attributes stay as they were)
    and append the attribute otherwise.  After a run of [lprintCreateDriver]
    that returns a driver, a client reading printer-make-and-model from the
    printer gets the model [lprintGetMakeAndModel] gives for the keyword the
    printer asked for, and for the returned driver itself whenever the
    initializer kept the name. *)
Theorem make_and_model_written {collab : Collaborators}
        (calloc_ok : bool) (printer : lprint_printer_t)
        (driver : lprint_driver_t) (m : machine) :
  run_lprintCreateDriver calloc_ok printer = Ok (Some driver, m) ->
  exists keyword,
    requested_driver printer = Some keyword
    /\ get_first (printer_attrs (m_printer m)) "printer-make-and-model" IPP_TAG_TEXT =
       Some (lprintGetMakeAndModel (Some (named_driver keyword)))
    /\ (driver_name driver = Some keyword ->
        get_first (printer_attrs (m_printer m)) "printer-make-and-model" IPP_TAG_TEXT =
        Some (lprintGetMakeAndModel (Some driver))).
Proof.
  intros Hrun.
  destruct (run_success calloc_ok printer driver m Hrun)
    as (name & i & attrs & Hreq & Hi & _ & _ & Hs & ->).
  exists name. split; [exact Hreq|].
  cbn [m_printer printer_attrs].
  unfold synthesized_attrs in Hs.
  destruct (lprint_copy_media (printer_attrs printer) driver) as [attrs1|];
    [|discriminate].
  cbn [rbind] in Hs. injection Hs as <-.
  assert (Hget : get_first (copy_resolution (set_make_and_model attrs1 i) driver)
                   "printer-make-and-model" IPP_TAG_TEXT = Some (lprint_models_at i)).
  { rewrite get_first_find, copy_resolution_steps.
    assert (Hother : forall s, In s (resolution_steps driver) ->
                       CStr.strcaseeq (step_name s) "printer-make-and-model" = false)
      by (apply resolution_steps_other; vm_compute; reflexivity).
    rewrite (ChainFacts.chain_find_other "printer-make-and-model" IPP_TAG_TEXT _
               (resolution_steps_keyed driver) Hother).
    rewrite <- get_first_find. apply set_make_and_model_spec. }
  rewrite Hget. split.
  - rewrite (get_make_and_model_of (named_driver name) name eq_refl).
    now rewrite (model_of_index i name Hi).
  - intros Hname. rewrite (get_make_and_model_of driver name Hname).
    now rewrite (model_of_index i name Hi).
Qed.

Lemma make_and_model_written_witness :
  exists m,
    run_lprintCreateDriver true (Sample.printer_with "dymo_lw-4xl") =
    Ok (Some (Sample.init_dymo (named_driver "dymo_lw-4xl")), m)
    /\ get_first (printer_attrs (m_printer m)) "printer-make-and-model" IPP_TAG_TEXT =
       Some "Dymo LabelWriter 4XL".
Proof.
  eexists. split; [vm_compute; reflexivity|].
  refine (match @make_and_model_written Sample.collaborators true
                  (Sample.printer_with "dymo_lw-4xl") _ _ _ with
          | ex_intro _ keyword (conj Hreq (conj Hget _)) => _
          end).
  - vm_compute. reflexivity.
  - vm_compute in Hreq. injection Hreq as <-. exact Hget.
Defined.

(** *** What a run leaves alone *)

(** The fourteen lookups of a run: the nine of [lprint_copy_media], the one
    for printer-make-and-model and the four of the resolution block. *)
Definition written_names : list (string * ipp_tag_t) :=
  media_names ++ [("printer-make-and-model", IPP_TAG_TEXT)] ++ resolution_names.

(** An attribute one of the fourteen lookups finds. *)
Definition written (a : ipp_attribute_t) : bool :=
  existsb (fun p => matches (fst p) (snd p) a) written_names.

Lemma written_cases (a : ipp_attribute_t) :
  written a =
  is_media_attr a || (matches "printer-make-and-model" IPP_TAG_TEXT a
                      || is_resolution_attr a).
Proof.
  unfold written, written_names, is_media_attr, is_resolution_attr.
  rewrite !existsb_app. cbn [existsb fst snd]. now rewrite orb_false_r.
Qed.

Lemma filter_refine {A : Type} (p q : A -> bool) (l l' : list A) :
  (forall a, p a = true -> q a = true) ->
  filter q l = filter q l' -> filter p l = filter p l'.
Proof.
  intros Hpq H.
  assert (G : forall x, filter p (filter q x) = filter p x).
  { induction x as [|a x IH]; simpl; [reflexivity|].
    destruct (q a) eqn:Hq; simpl.
    - destruct (p a); now rewrite IH.
    - destruct (p a) eqn:Hp; [|exact IH].
      rewrite (Hpq a Hp) in Hq. discriminate. }
  rewrite <- (G l), <- (G l'). now rewrite H.
Qed.

Lemma filter_update_at (p : ipp_attribute_t -> bool)
      (f : ipp_attribute_t -> ipp_attribute_t) (l : ipp_t) :
  forall i a,
    nth_error l i = Some a -> p a = false -> p (f a) = false ->
    filter p (update_at i f l) = filter p l.
Proof.
  induction l as [|b l IH]; intros [|i] a H Ha Hfa; simpl in *; try discriminate.
  - injection H as ->. now rewrite Ha, Hfa.
  - now rewrite (IH i a H Ha Hfa).
Qed.

Lemma find_filter {A : Type} (p q : A -> bool) (l : list A) :
  (forall a, p a = true -> q a = true) ->
  find p (filter q l) = find p l.
Proof.
  intros Hpq. induction l as [|a l IH]; simpl; [reflexivity|].
  destruct (q a) eqn:Hq; simpl.
  - destruct (p a); [reflexivity | exact IH].
  - destruct (p a) eqn:Hp; [|exact IH].
    rewrite (Hpq a Hp) in Hq. discriminate.
Qed.

Lemma written_key (a b : ipp_attribute_t) :
  IppFacts.key a = IppFacts.key b -> written a = written b.
Proof.
  intros H. unfold written. induction written_names as [|p l IH]; [reflexivity|].
  cbn [existsb]. now rewrite IH, (matches_key (fst p) (snd p) a b H).
Qed.

(** Lines 140-144 leave every attribute that none of the lookups finds. *)
Lemma set_make_and_model_frame (attrs : ipp_t) (i : nat) :
  filter (fun a => negb (written a)) (set_make_and_model attrs i) =
  filter (fun a => negb (written a)) attrs.
Proof.
  unfold set_make_and_model.
  destruct (ippFindAttribute attrs "printer-make-and-model" IPP_TAG_TEXT)
    as [h|] eqn:Hf.
  - unfold ippFindAttribute in Hf.
    destruct (find_from_some _ _ _ _ _ Hf) as (a & Ha & Hm).
    rewrite Nat.sub_0_r in Ha. unfold ippSetString.
    assert (Hw : negb (written a) = false)
      by (rewrite written_cases, Hm, orb_true_r; reflexivity).
    apply (filter_update_at _ _ _ h a Ha Hw).
    rewrite <- Hw. f_equal. apply written_key.
    destruct (is_string_tag (attr_value_tag a));
      [apply IppFacts.set_value_key | reflexivity].
  - cbn [ippAddString ipp_add_attr fst]. rewrite filter_app. cbn [filter].
    replace (negb (written _)) with false by (vm_compute; reflexivity).
    apply app_nil_r.
Qed.

(** The capability set a run leaves keeps every attribute that none of the
    fourteen lookups finds, in its order. *)
Lemma synthesized_frame {collab : Collaborators}
      (attrs attrs' : ipp_t) (driver : lprint_driver_t) (i : nat) :
  synthesized_attrs attrs driver i = Ok attrs' ->
  filter (fun a => negb (written a)) attrs' =
  filter (fun a => negb (written a)) attrs.
Proof.
  unfold synthesized_attrs. intros H.
  destruct (lprint_copy_media attrs driver) as [attrs1|] eqn:H1; [|discriminate].
  cbn [rbind] in H. injection H as <-.
  destruct (copy_media_cases attrs attrs1 driver H1) as [_ ->].
  rewrite copy_resolution_steps.
  transitivity (filter (fun a => negb (written a))
                  (set_make_and_model (chain attrs (media_steps driver)) i)).
  - apply (filter_refine _ (fun a => negb (touched (resolution_steps driver) a))).
    + intros a Ha. rewrite resolution_steps_touched.
      rewrite written_cases in Ha. apply negb_true_iff in Ha.
      apply orb_false_iff in Ha. destruct Ha as [_ Ha].
      apply orb_false_iff in Ha. destruct Ha as [_ ->]. reflexivity.
    + apply (ChainFacts.chain_frame _ (resolution_steps_keyed driver)
               (resolution_steps_distinct driver)).
  - rewrite set_make_and_model_frame.
    apply (filter_refine _ (fun a => negb (touched (media_steps driver) a))).
    + intros a Ha. rewrite media_steps_touched.
      rewrite written_cases in Ha. apply negb_true_iff in Ha.
      apply orb_false_iff in Ha. destruct Ha as [-> _]. reflexivity.
    + apply (ChainFacts.chain_frame _ (media_steps_keyed driver)
               (media_steps_distinct driver)).
Qed.

Lemma run_frame {collab : Collaborators}
      (calloc_ok : bool) (printer : lprint_printer_t)
      (driver : option lprint_driver_t) (m : machine) :
  run_lprintCreateDriver calloc_ok printer = Ok (driver, m) ->
  filter (fun a => negb (written a)) (printer_attrs (m_printer m)) =
  filter (fun a => negb (written a)) (printer_attrs printer).
Proof.
  intros Hrun. destruct driver as [d|].
  - destruct (run_success calloc_ok printer d m Hrun)
      as (name & i & attrs & _ & _ & _ & _ & Hs & ->).
    cbn [m_printer printer_attrs].
    exact (synthesized_frame _ _ _ _ Hs).
  - now rewrite (run_none calloc_ok printer m Hrun).
Qed.

Lemma written_other (n : string) (t : ipp_tag_t) (a : ipp_attribute_t) :
  forallb (fun p => negb (CStr.strcaseeq (fst p) n)) written_names = true ->
  matches n t a = true -> negb (written a) = true.
Proof.
  intros Hall Hm. apply negb_true_iff.
  destruct (written a) eqn:Hw; [|reflexivity].
  unfold written in Hw. apply existsb_exists in Hw.
  destruct Hw as (p & Hp & Hmp). rewrite forallb_forall in Hall.
  specialize (Hall p Hp). apply negb_true_iff in Hall.
  rewrite (ReplaceFacts.matches_disjoint n (fst p) t (snd p) Hall a Hmp) in Hm.
  discriminate.
Qed.

Lemma run_keeps_keyword {collab : Collaborators}
      (calloc_ok : bool) (printer : lprint_printer_t)
      (driver : option lprint_driver_t) (m : machine) :
  run_lprintCreateDriver calloc_ok printer = Ok (driver, m) ->
  requested_driver (m_printer m) = requested_driver printer.
Proof.
  intros Hrun. unfold requested_driver.
  fold (get_first (printer_attrs (m_printer m)) "lprint-driver" IPP_TAG_KEYWORD).
  fold (get_first (printer_attrs printer) "lprint-driver" IPP_TAG_KEYWORD).
  rewrite !get_first_find.
  assert (Hother : forall a,
             matches "lprint-driver" IPP_TAG_KEYWORD a = true ->
             negb (written a) = true)
    by (intros a; apply written_other; vm_compute; reflexivity).
  rewrite <- (find_filter _ _ (printer_attrs (m_printer m)) Hother).
  rewrite <- (find_filter _ _ (printer_attrs printer) Hother).
  now rewrite (run_frame calloc_ok printer driver m Hrun).
Qed.

(** X14 (what a run leaves alone).  Every run of [lprintCreateDriver] that
    returns keeps each attribute that none of its fourteen lookups finds
    (the nine media names, printer-make-and-model and the four names of the
    resolution block), all in their order; in particular any attribute of
    another name, whatever its tag. *)
Theorem create_driver_frame {collab : Collaborators}
        (calloc_ok : bool) (printer : lprint_printer_t)
        (driver : option lprint_driver_t) (m : machine) :
  run_lprintCreateDriver calloc_ok printer = Ok (driver, m) ->
  filter (fun a => negb (written a)) (printer_attrs (m_printer m)) =
  filter (fun a => negb (written a)) (printer_attrs printer)
  /\ forall a,
      In a (printer_attrs printer) ->
      forallb (fun p => negb (CStr.strcaseeq (fst p) (attr_name a))) written_names
      = true ->
      In a (printer_attrs (m_printer m)).
Proof.
  intros Hrun. pose proof (run_frame calloc_ok printer driver m Hrun) as Hf.
  split; [exact Hf|]. intros a Ha Hother.
  assert (Hin : In a (filter (fun a => negb (written a)) (printer_attrs printer))).
  { apply filter_In. split; [exact Ha|].
    apply (written_other (attr_name a) (attr_value_tag a) a Hother).
    unfold matches. now rewrite ChainFacts.strcaseeq_refl, ChainFacts.tag_matches_refl. }
  rewrite <- Hf in Hin. apply filter_In in Hin. apply Hin.
Qed.

Lemma create_driver_frame_witness :
  exists m,
    run_lprintCreateDriver true (Sample.printer_with "dymo_lw-4xl") =
    Ok (Some (Sample.init_dymo (named_driver "dymo_lw-4xl")), m)
    /\ filter (fun a => negb (written a)) (printer_attrs (m_printer m)) =
       [Attr "lprint-driver" IPP_TAG_PRINTER IPP_TAG_KEYWORD [VString "dymo_lw-4xl"]].
Proof.
  eexists. split; [vm_compute; reflexivity|].
  refine (proj1 (@create_driver_frame Sample.collaborators true
                   (Sample.printer_with "dymo_lw-4xl") _ _ _)).
  vm_compute. reflexivity.
Defined.

(** X15 (a second run).  A run of [lprintCreateDriver] that returns leaves
    the printer asking for the same keyword.  So when a run has returned a
    driver, a further run on the printer it left returns that driver again
    if the allocation succeeds (and null if it fails): the media names were
    all known the first time, and which names are looked up depends on the
    driver alone. *)
Theorem create_driver_again {collab : Collaborators}
        (calloc_ok : bool) (printer : lprint_printer_t)
        (driver : lprint_driver_t) (m : machine) :
  run_lprintCreateDriver calloc_ok printer = Ok (Some driver, m) ->
  requested_driver (m_printer m) = requested_driver printer
  /\ (exists m', run_lprintCreateDriver true (m_printer m) = Ok (Some driver, m'))
  /\ run_lprintCreateDriver false (m_printer m) =
     Ok (None, mk_machine (m_printer m) [EvWrLock; EvUnlock]).
Proof.
  intros Hrun.
  pose proof (run_keeps_keyword calloc_ok printer (Some driver) m Hrun) as Hkeep.
  split; [exact Hkeep|]. split; [|apply run_no_memory].
  destruct (run_success calloc_ok printer driver m Hrun)
    as (name & i & attrs & Hreq & Hi & _ & Hd & Hs & Hm).
  assert (Hreg : registered (m_printer m) = Some name).
  { apply registered_some. split; [congruence|].
    eapply nth_error_In. exact Hi. }
  destruct (run_registered (m_printer m) name Hreg) as (j & _ & Hrun').
  cbv zeta in Hrun'. rewrite <- Hd in Hrun'.
  assert (Hok : media_okb (driver_media driver) = true).
  { unfold synthesized_attrs in Hs.
    destruct (lprint_copy_media (printer_attrs printer) driver) as [a1|] eqn:H1;
      [|discriminate].
    apply (copy_media_cases _ _ _ H1). }
  unfold synthesized_attrs in Hrun'.
  rewrite (copy_media_ok _ _ Hok) in Hrun'. cbn [rbind] in Hrun'.
  eexists. exact Hrun'.
Qed.

Lemma create_driver_again_witness :
  exists m m',
    run_lprintCreateDriver true (Sample.printer_with "dymo_lw-4xl") =
    Ok (Some (Sample.init_dymo (named_driver "dymo_lw-4xl")), m)
    /\ run_lprintCreateDriver true (m_printer m) =
       Ok (Some (Sample.init_dymo (named_driver "dymo_lw-4xl")), m').
Proof.
  eexists.
  refine (match proj1 (proj2 (@create_driver_again Sample.collaborators true
                                (Sample.printer_with "dymo_lw-4xl") _ _ _)) with
          | ex_intro _ m' H => ex_intro _ m' (conj _ H)
          end).
  - vm_compute. reflexivity.
  - vm_compute. reflexivity.
Defined.

(* ================================================================== *)
(** ** Further properties of the resolution block                      *)
(* ================================================================== *)

Lemma last_resolution (driver : lprint_driver_t) :
  driver_resolution driver <> [] ->
  (num_resolution driver >? 0) = true
  /\ x_resolution driver (num_resolution driver - 1) =
     fst (last (driver_resolution driver) (0, 0))
  /\ y_resolution driver (num_resolution driver - 1) =
     snd (last (driver_resolution driver) (0, 0)).
Proof.
  intros Hne. unfold num_resolution, x_resolution, y_resolution.
  destruct (exists_last Hne) as (pre & r & ->).
  rewrite length_app, last_last. cbn [List.length].
  replace (Z.to_nat (Z.of_nat (List.length pre + 1) - 1)) with (List.length pre)
    by lia.
  rewrite app_nth2, Nat.sub_diag by lia. cbn [nth].
  split; [apply Z.gtb_lt; lia | split; reflexivity].
Qed.

Lemma resolution_step_find (attrs : ipp_t) (driver : lprint_driver_t) (s : step) :
  In s (resolution_steps driver) ->
  (count_matching (step_name s) (step_tag s) attrs <= 1)%nat ->
  find (matches (step_name s) (step_tag s)) (copy_resolution attrs driver) =
  find (matches (step_name s) (step_tag s)) (step_new s).
Proof.
  intros Hs Hc. rewrite copy_resolution_steps.
  exact (ChainFacts.chain_find_step (resolution_steps driver) s
           (resolution_steps_keyed driver) (resolution_steps_distinct driver)
           Hs attrs Hc).
Qed.

(** X16 (running the resolution block twice).  On a capability set that
    holds each of the four names at most once, running lines 146-184 a
    second time for the same driver changes nothing: the block deletes what
    it added and adds it again at the same place. *)
Theorem copy_resolution_idempotent (attrs : ipp_t) (driver : lprint_driver_t) :
  (forall n t, In (n, t) resolution_names -> (count_matching n t attrs <= 1)%nat) ->
  copy_resolution (copy_resolution attrs driver) driver =
  copy_resolution attrs driver.
Proof.
  intros Hc. rewrite !copy_resolution_steps.
  apply (ChainFacts.chain_idempotent _ _ (resolution_steps_keyed driver)
           (resolution_steps_distinct driver)).
  intros s Hs. apply Hc. unfold resolution_steps in Hs. simpl in Hs.
  repeat (destruct Hs as [<-|Hs]; [simpl; tauto|]). destruct Hs.
Qed.

Lemma copy_resolution_idempotent_witness :
  copy_resolution (copy_resolution [Sample.urf] Sample.roll_driver) Sample.roll_driver =
  copy_resolution [Sample.urf] Sample.roll_driver.
Proof.
  apply (copy_resolution_idempotent [Sample.urf] Sample.roll_driver).
  intros n t Hin. simpl in Hin.
  destruct Hin as [H|[H|[H|[H|[]]]]]; injection H as <- <-; vm_compute; lia.
Defined.

(** X17 (a default resolution that is refused).  On a capability set that
    holds printer-resolution-default and printer-resolution-supported at most
    once each, the block leaves printer-resolution-supported with the
    driver's resolutions as they stand, absent only when the driver has
    none; printer-resolution-default is absent when the driver has no
    resolution and also when the last one has a negative component, which
    [ippAddResolution] refuses: the list is then advertised without a
    default. *)
Theorem resolution_default_refused (attrs : ipp_t) (driver : lprint_driver_t) :
  (count_matching "printer-resolution-default" IPP_TAG_RESOLUTION attrs <= 1)%nat ->
  (count_matching "printer-resolution-supported" IPP_TAG_RESOLUTION attrs <= 1)%nat ->
  let attrs' := copy_resolution attrs driver in
  let res := driver_resolution driver in
  (ippFindAttribute attrs' "printer-resolution-default" IPP_TAG_RESOLUTION = None <->
   res = [] \/ fst (last res (0, 0)) < 0 \/ snd (last res (0, 0)) < 0)
  /\ (ippFindAttribute attrs' "printer-resolution-supported" IPP_TAG_RESOLUTION = None
      <-> res = [])
  /\ values_of attrs'
       (ippFindAttribute attrs' "printer-resolution-supported" IPP_TAG_RESOLUTION) =
     map (fun r => VResolution (fst r) (snd r) IPP_RES_PER_INCH) res.
Proof.
  intros Hd Hs attrs' res. subst attrs'.
  rewrite IppFacts.values_of_find, !find_handle_none.
  pose proof (resolution_step_find attrs driver
                (mk_step "printer-resolution-default" IPP_TAG_RESOLUTION
                   (default_attr driver))
                ltac:(unfold resolution_steps; simpl; tauto) Hd) as Fd.
  pose proof (resolution_step_find attrs driver
                (mk_step "printer-resolution-supported" IPP_TAG_RESOLUTION
                   (resolutions_attr "printer-resolution-supported" driver))
                ltac:(unfold resolution_steps; simpl; tauto) Hs) as Fs.
  cbn [step_name step_tag step_new] in Fd, Fs. rewrite Fd, Fs. clear Fd Fs.
  unfold default_attr, resolutions_attr.
  subst res. destruct (driver_resolution driver) as [|r rs] eqn:Hres.
  - unfold num_resolution. rewrite Hres. cbn.
    repeat split; auto.
  - assert (Hne : driver_resolution driver <> []) by (rewrite Hres; discriminate).
    destruct (last_resolution driver Hne) as (Hn & Hx & Hy).
    rewrite Hn, Hx, Hy, Hres.
    set (l := last (r :: rs) (0, 0)).
    split; [|split; [split; discriminate | reflexivity]].
    destruct (fst l <? 0) eqn:Ex; cbn [orb].
    + apply Z.ltb_lt in Ex. cbn [find]. split; [auto | reflexivity].
    + apply Z.ltb_ge in Ex. destruct (snd l <? 0) eqn:Ey.
      * apply Z.ltb_lt in Ey. cbn [find]. split; [auto | reflexivity].
      * apply Z.ltb_ge in Ey. split; [discriminate|].
        intros [H|[H|H]]; [discriminate | lia | lia].
Qed.

Lemma resolution_default_refused_witness :
  let attrs' :=
    copy_resolution [] (mk_driver None [(203, 203); (300, -1)] 0 0 [] [] []) in
  ippFindAttribute attrs' "printer-resolution-default" IPP_TAG_RESOLUTION = None
  /\ values_of attrs'
       (ippFindAttribute attrs' "printer-resolution-supported" IPP_TAG_RESOLUTION) =
     [VResolution 203 203 IPP_RES_PER_INCH; VResolution 300 (-1) IPP_RES_PER_INCH].
Proof.
  destruct (resolution_default_refused []
              (mk_driver None [(203, 203); (300, -1)] 0 0 [] [] []))
    as (Hd & _ & Hv).
  - vm_compute. lia.
  - vm_compute. lia.
  - split; [|exact Hv]. apply Hd. right. right. vm_compute. reflexivity.
Defined.

(* ================================================================== *)
(** ** The roll                                                        *)
(* ================================================================== *)

(** The entry read through [maxpwg] at lines 352-353 and 415-416, after
    the lookup of the roll_min_ name: the entry of the roll_max_ name, unless
    both names were decoded into the storage of the thread, which then holds
    the entry of the roll_min_ name. *)
Definition upper_read {collab : Collaborators} (mn mx : string)
           (pmin pmax : pwg_media_t) : pwg_media_t :=
  if pwg_decoded mx && pwg_decoded mn then pmin else pmax.

Definition range_of (pmin upper : pwg_media_t) : ipp_t :=
  [Attr "x-dimension" IPP_TAG_ZERO IPP_TAG_RANGE
     [VRange (pwg_width pmin) (pwg_width upper)];
   Attr "y-dimension" IPP_TAG_ZERO IPP_TAG_RANGE
     [VRange (pwg_length pmin) (pwg_length upper)]].

Lemma roll_size_read {collab : Collaborators} (mn mx : string)
      (pmin pmax : pwg_media_t) :
  pwgMediaForPWG mn = Some pmin -> pwgMediaForPWG mx = Some pmax ->
  roll_size mn mx = Ok (range_of pmin (upper_read mn mx pmin pmax)).
Proof.
  intros Hn Hx. unfold roll_size, pwg_call, upper_read. rewrite Hn, Hx.
  destruct (pwg_decoded mx), (pwg_decoded mn); reflexivity.
Qed.

Lemma okb_sentinels {collab : Collaborators} (media : list string) (mn mx : string) :
  media_okb media = true -> sentinels media = Some (mn, mx) ->
  exists pmin pmax,
    pwgMediaForPWG mn = Some pmin /\ pwgMediaForPWG mx = Some pmax.
Proof.
  unfold media_okb. intros H Hs. rewrite Hs in H.
  apply andb_true_iff in H. destruct H as [_ H].
  apply andb_true_iff in H. destruct H as [Hn Hx]. unfold resolvesb in *.
  destruct (pwgMediaForPWG mn) as [pmin|]; [|discriminate].
  destruct (pwgMediaForPWG mx) as [pmax|]; [|discriminate]. eauto.
Qed.

(** C2 (the roll), what the code does.  Let [lprint_copy_media] return on a
    store that held media-col-database and media-size-supported at most once
    each.  When the media list has a name prefixed roll_min_ and a name
    prefixed roll_max_, the slot after the fixed sizes holds one more
    collection (in media-col-database under the member media-size, in
    media-size-supported as the size itself) and the slots set are the fixed
    sizes and this one.  Its ranges start at the width and length of the
    (last) roll_min_ name; they end at those of the (last) roll_max_ name
    only when one of the two names is an entry of the library's table.  When
    both names are decoded, as self-describing names are, the pointer kept
    from the first lookup points to storage the second lookup has
    overwritten, and both ranges end where they start, at the dimensions of
    the roll_min_ name.  When either kind is missing, the slots set are the
    fixed sizes alone and every later slot is unset. *)
Theorem roll_collection_iff_both_sentinels {collab : Collaborators}
        (attrs attrs' : ipp_t) (driver : lprint_driver_t) :
  (count_matching "media-col-database" IPP_TAG_BEGIN_COLLECTION attrs <= 1)%nat ->
  (count_matching "media-size-supported" IPP_TAG_BEGIN_COLLECTION attrs <= 1)%nat ->
  lprint_copy_media attrs driver = Ok attrs' ->
  let dbv := values_of attrs'
               (ippFindAttribute attrs' "media-col-database" IPP_TAG_BEGIN_COLLECTION) in
  let ssv := values_of attrs'
               (ippFindAttribute attrs' "media-size-supported" IPP_TAG_BEGIN_COLLECTION) in
  let media := driver_media driver in
  let d := List.length (fixed_sizes media) in
  (existsb is_roll_min media && existsb is_roll_max media = true ->
   exists mn mx pmin pmax,
     pick_last is_roll_min media None = Some mn
     /\ pick_last is_roll_max media None = Some mx
     /\ pwgMediaForPWG mn = Some pmin
     /\ pwgMediaForPWG mx = Some pmax
     /\ let range :=
          range_of pmin (if pwg_decoded mx && pwg_decoded mn then pmin else pmax) in
        nth_error dbv d =
        Some (VCollection
                (Some [Attr "media-size" IPP_TAG_ZERO IPP_TAG_BEGIN_COLLECTION
                         [VCollection (Some range)]]))
        /\ nth_error ssv d = Some (VCollection (Some range))
        /\ List.length (filter is_set dbv) = S d
        /\ List.length (filter is_set ssv) = S d
        /\ (pwg_decoded mn = true -> pwg_decoded mx = true ->
            nth_error ssv d =
            Some (VCollection
                    (Some [Attr "x-dimension" IPP_TAG_ZERO IPP_TAG_RANGE
                             [VRange (pwg_width pmin) (pwg_width pmin)];
                           Attr "y-dimension" IPP_TAG_ZERO IPP_TAG_RANGE
                             [VRange (pwg_length pmin) (pwg_length pmin)]]))))
  /\ (existsb is_roll_min media && existsb is_roll_max media = false ->
      List.length (filter is_set dbv) = d
      /\ List.length (filter is_set ssv) = d
      /\ (forall i v,
             (d <= i)%nat ->
             nth_error dbv i = Some v \/ nth_error ssv i = Some v ->
             v = VCollection None)).
Proof.
  intros H1 H2 Hrun dbv ssv media d.
  destruct (copy_media_cases attrs attrs' driver Hrun) as [Hok _].
  destruct (sizes_step_read attrs attrs' driver "media-col-database"
              (col_database_values driver) Hrun) as [Hdb _];
    [unfold media_steps; simpl; tauto | exact H1 |].
  destruct (sizes_step_read attrs attrs' driver "media-size-supported"
              (size_supported_values driver) Hrun) as [Hss _];
    [unfold media_steps; simpl; tauto | exact H2 |].
  subst dbv ssv. rewrite Hdb, Hss.
  unfold col_database_values, size_supported_values. fold media.
  split.
  - intros Hboth. apply sentinels_both in Hboth. destruct Hboth as (mn & mx & Hs).
    destruct (sentinels_some media mn mx Hs) as (_ & _ & _ & _ & Hpn & Hpx).
    destruct (okb_sentinels media mn mx Hok Hs) as (pmin & pmax & En & Ex).
    exists mn, mx, pmin, pmax.
    assert (Hroll : roll_of media =
                    Some (range_of pmin (upper_read mn mx pmin pmax))).
    { unfold roll_of. rewrite Hs. cbn [option_map fst snd].
      now rewrite (roll_size_read mn mx pmin pmax En Ex). }
    rewrite Hroll. unfold upper_read. cbn [option_map].
    assert (Rdb := sizes_values_roll
                     (map (fun m => unwrap (lprintCreateMediaCol m None None
                                              (driver_left_right driver)
                                              (driver_bottom_top driver)))
                          (fixed_sizes media))).
    assert (Rss := sizes_values_roll
                     (map (fun m => unwrap (lprint_create_media_size m))
                          (fixed_sizes media))).
    rewrite length_map in Rdb, Rss. fold d in Rdb, Rss.
    repeat split; try assumption.
    + apply Rdb.
    + apply Rss.
    + rewrite sizes_values_set, length_map. fold d. lia.
    + rewrite sizes_values_set, length_map. fold d. lia.
    + intros Dn Dx. rewrite Rss, Dn, Dx. reflexivity.
  - intros Hnot.
    assert (Hs : roll_of media = None) by now apply roll_of_sentinels.
    rewrite Hs. cbn [option_map]. rewrite !sizes_values_set, !length_map.
    fold d. repeat split; try lia.
    intros i v Hi [Hv|Hv]; apply sizes_values_rest in Hv;
      rewrite ?length_map; try exact Hi;
      destruct Hv as [->|(r & Hr & _)]; [reflexivity | discriminate
                                       | reflexivity | discriminate].
Qed.

Lemma roll_collection_iff_both_sentinels_witness :
  exists attrs',
    lprint_copy_media [] Sample.roll_driver = Ok attrs'
    /\ pwgMediaForPWG "roll_min_w6" = Some (mk_pwg 600 600)
    /\ pwgMediaForPWG "roll_max_w101" = Some (mk_pwg 10100 360000)
    /\ nth_error
         (values_of attrs'
            (ippFindAttribute attrs' "media-size-supported" IPP_TAG_BEGIN_COLLECTION))
         1 =
       Some (VCollection
               (Some [Attr "x-dimension" IPP_TAG_ZERO IPP_TAG_RANGE [VRange 600 600];
                      Attr "y-dimension" IPP_TAG_ZERO IPP_TAG_RANGE [VRange 600 600]])).
Proof.
  eexists. split; [vm_compute; reflexivity|].
  split; [reflexivity|]. split; [reflexivity|].
  refine (match proj1 (@roll_collection_iff_both_sentinels Sample.collaborators []
                         _ Sample.roll_driver _ _ _) _ with
          | ex_intro _ mn (ex_intro _ mx (ex_intro _ pmin (ex_intro _ pmax
              (conj Hn (conj Hx (conj Epn (conj Epx (conj _ (conj Hss _)))))))))
            => _
          end).
  - vm_compute. lia.
  - vm_compute. lia.
  - vm_compute. reflexivity.
  - vm_compute. reflexivity.
  - vm_compute in Hn, Hx. injection Hn as <-. injection Hx as <-.
    vm_compute in Epn, Epx. injection Epn as <-. injection Epx as <-.
    exact Hss.
Defined.
